(** * gofigure: the resolution engine of [gofigure.go], embedded and verified

    The development follows the source file top to bottom: the pieces of
    Go's [strconv] and [regexp] the engine relies on, the directive parser
    [getStructTags], plan construction ([ParseStruct], [parseGofigureField],
    [parseFields]), the source life cycle ([initSources], [registerFields],
    [cleanupSources]), population ([populateDefaultType],
    [populateSliceType], [populateStruct]) and the entry points [Apply] and
    [Gofigure]. *)

From Stdlib Require Import ZArith Ascii String List Lia Bool.
From stdpp Require Import base option list strings gmap fin_maps.

Open Scope string_scope.
Open Scope list_scope.
Open Scope Z_scope.

(** The double quote and the backslash. *)
Definition dquote : ascii := "034"%char.
Definition backslash : ascii := "092"%char.

(** ** Errors *)

(** [strconv.ErrSyntax] and [strconv.ErrRange]. *)
Inductive numErr := ErrSyntax | ErrRange.

(** The three sentinel errors of the package, [*strconv.NumError], and
    whatever error a source hands back. *)
Inductive error :=
| ErrInvalidOrder
| ErrUnsupportedFieldType
| ErrInvalidEnvPrefix
| NumError (fn num : string) (e : numErr)
| SourceError (msg : string).

Inductive result (A : Type) :=
| Ok (a : A)
| Err (e : error).
Arguments Ok {A} a.
Arguments Err {A} e.

(** ** The target *)

(** The word size of the target the package is built for: [int] and
    [uint] have 32 bits on the one and 64 on the other. *)
Inductive arch := Arch32 | Arch64.

(** ** The fragment of [strconv] used by the engine *)

Module Strconv.

(** [strconv.IntSize]: the size in bits of an [int] or [uint] value. *)
Definition IntSize (target : arch) : Z :=
  match target with
  | Arch32 => 32
  | Arch64 => 64
  end.

Definition byteOf (c : ascii) : Z := Z.of_N (N_of_ascii c).

(** [ParseBool]: a fixed table of literals. *)
Definition ParseBool (str : string) : result bool :=
  if decide (str = "1" ∨ str = "t" ∨ str = "T" ∨ str = "TRUE"
             ∨ str = "true" ∨ str = "True") then Ok true
  else if decide (str = "0" ∨ str = "f" ∨ str = "F" ∨ str = "FALSE"
                  ∨ str = "false" ∨ str = "False") then Ok false
  else Err (NumError "ParseBool" str ErrSyntax).

(** The digit loop of [ParseUint] for base 10: [n] is the accumulator,
    [maxVal = 1<<bitSize - 1]. A range error returns [maxVal] at the
    digit where it is detected, without looking at what follows. *)
Fixpoint uintLoop (maxVal : Z) (s : string) (n : Z) : Z * option numErr :=
  match s with
  | EmptyString => (n, None)
  | String c rest =>
      let b := byteOf c in
      if (48 <=? b) && (b <=? 57) then
        let d := b - 48 in
        if (2 ^ 64 - 1) / 10 + 1 <=? n then (maxVal, Some ErrRange)
        else
          let n1 := n * 10 + d in
          if (2 ^ 64 <=? n1) || (maxVal <? n1) then (maxVal, Some ErrRange)
          else uintLoop maxVal rest n1
      else (0, Some ErrSyntax)
  end.

(** [ParseUint(s, 10, bitSize)], as the pair Go returns. *)
Definition ParseUint10 (target : arch) (s : string) (bitSize : Z)
  : Z * option numErr :=
  if decide (s = "") then (0, Some ErrSyntax)
  else
    let bitSize := if bitSize =? 0 then IntSize target else bitSize in
    uintLoop (2 ^ bitSize - 1) s 0.

Definition ParseUint (target : arch) (s : string) (bitSize : Z) : result Z :=
  match ParseUint10 target s bitSize with
  | (n, None) => Ok n
  | (_, Some e) => Err (NumError "ParseUint" s e)
  end.

(** [ParseInt(s, 10, bitSize)]: sign, then [ParseUint], then the signed
    cutoff. *)
Definition ParseInt (target : arch) (s : string) (bitSize : Z) : result Z :=
  match s with
  | EmptyString => Err (NumError "ParseInt" s ErrSyntax)
  | String c rest =>
      let '(neg, digits) :=
        if decide (c = "+"%char) then (false, rest)
        else if decide (c = "-"%char) then (true, rest)
        else (false, s) in
      match ParseUint10 target digits bitSize with
      | (_, Some ErrSyntax) => Err (NumError "ParseInt" s ErrSyntax)
      | (un, _) =>
          let bitSize := if bitSize =? 0 then IntSize target else bitSize in
          let cutoff := 2 ^ (bitSize - 1) in
          if negb neg && (cutoff <=? un) then Err (NumError "ParseInt" s ErrRange)
          else if neg && (cutoff <? un) then Err (NumError "ParseInt" s ErrRange)
          else Ok (if neg then - un else un)
      end
  end.

End Strconv.

(** ** [reflect.Kind] and the shape of a field's type *)

Inductive Kind :=
| Invalid | Bool
| Int | Int8 | Int16 | Int32 | Int64
| Uint | Uint8 | Uint16 | Uint32 | Uint64 | Uintptr
| Float32 | Float64 | Complex64 | Complex128
| Array | Chan | Func | Interface | Map | Ptr | Slice | String_ | Struct
| UnsafePointer.

#[global] Instance Kind_eq_dec : EqDecision Kind.
Proof. solve_decision. Defined.

(** A [reflect.Type] as far as the engine looks at it: its kind, for a
    slice the element type, and whether it is a defined type. For a basic
    kind [k], [TKind k] is the type Go predeclares for it ([bool], [int8],
    [string], ...); for the other kinds it stands for every type of that
    kind that is not written [TSlice] or [TNamed]. [TNamed name t] is a
    defined type, [type name t]: [time.Duration] is
    [TNamed "Duration" (TKind Int64)]. [Elem()] is only ever asked of a
    slice, and [TKind Slice], which no Go type has, is read as a slice
    whose element kind is [Invalid]. *)
Inductive rtype :=
| TKind (k : Kind)
| TSlice (elem : rtype)
| TNamed (name : string) (underlying : rtype).

Fixpoint rkind (t : rtype) : Kind :=
  match t with
  | TKind k => k
  | TSlice _ => Slice
  | TNamed _ u => rkind u
  end.

Fixpoint relem (t : rtype) : rtype :=
  match t with
  | TKind _ => TKind Invalid
  | TSlice e => e
  | TNamed _ u => relem u
  end.

(** Whether a value of the predeclared type of kind [rkind t] can be
    assigned to a variable of type [t]: both types have a name, so they
    have to be the same type. This is what [reflect.Append] asks of the
    element it is given; the [Set...] methods of a scalar field look at the
    kind only. *)
Definition predeclared (t : rtype) : bool :=
  match t with
  | TKind _ => true
  | _ => false
  end.

(** Two's-complement conversion of [x] to a signed integer of [bits] bits,
    and reduction to an unsigned one: Go's [int(x)], [int8(x)], [uint(x)]. *)
Definition toSigned (bits x : Z) : Z :=
  let m := x mod 2 ^ bits in
  if m <? 2 ^ (bits - 1) then m else m - 2 ^ bits.

Definition toUnsigned (bits x : Z) : Z := x mod 2 ^ bits.

(** [numVal] (gofigure.go, l. 241). *)
Definition numVal (i : string) : string :=
  if (String.length i =? 0)%nat then "0" else i.

(** The assignment [val = "false"] guarded by [len(val) == 0] in the
    [reflect.Bool] case. *)
Definition boolVal (val : string) : string :=
  if (String.length val =? 0)%nat then "false" else val.

(** ** Values of record fields and the coercion layer *)

Section Coercion.

Variable target : arch.

(** Floating-point numbers and [strconv.ParseFloat] are taken from the
    Go runtime as they are. *)
Variable F : Type.
Variable ParseFloat : string → Z → result F.

(** The contents of a record field. *)
#[warnings="-register-all"]
Inductive value :=
| VBool (b : bool)
| VInt (i : Z)
| VUint (u : Z)
| VFloat (f : F)
| VString (s : string)
| VSlice (l : list value)
| VOpaque.

(** Result of one pass through the [switch] of [populateDefaultType]
    (l. 266-353) for a value [val] just obtained: the value that the
    [Set...] call of the matching case stores, or the error returned. *)
Definition coerceScalar (k : Kind) (val : string) : result value :=
  match k with
  | Bool =>
      match Strconv.ParseBool (boolVal val) with
      | Ok b => Ok (VBool b) | Err e => Err e end
  | Int =>
      match Strconv.ParseInt target (numVal val) 64 with
      | Ok i => Ok (VInt (toSigned (Strconv.IntSize target) i))
      | Err e => Err e end
  | Int8 =>
      match Strconv.ParseInt target (numVal val) 8 with
      | Ok i => Ok (VInt (toSigned 8 i)) | Err e => Err e end
  | Int16 =>
      match Strconv.ParseInt target (numVal val) 16 with
      | Ok i => Ok (VInt (toSigned 16 i)) | Err e => Err e end
  | Int32 =>
      match Strconv.ParseInt target (numVal val) 32 with
      | Ok i => Ok (VInt (toSigned 32 i)) | Err e => Err e end
  | Int64 =>
      match Strconv.ParseInt target (numVal val) 64 with
      | Ok i => Ok (VInt (toSigned 64 i)) | Err e => Err e end
  | Uint =>
      match Strconv.ParseUint target (numVal val) 64 with
      | Ok u => Ok (VUint (toUnsigned (Strconv.IntSize target) u))
      | Err e => Err e end
  | Uint8 =>
      match Strconv.ParseUint target (numVal val) 8 with
      | Ok u => Ok (VUint (toUnsigned 8 u)) | Err e => Err e end
  | Uint16 =>
      match Strconv.ParseUint target (numVal val) 16 with
      | Ok u => Ok (VUint (toUnsigned 16 u)) | Err e => Err e end
  | Uint32 =>
      match Strconv.ParseUint target (numVal val) 32 with
      | Ok u => Ok (VUint (toUnsigned 32 u)) | Err e => Err e end
  | Uint64 =>
      match Strconv.ParseUint target (numVal val) 64 with
      | Ok u => Ok (VUint (toUnsigned 64 u)) | Err e => Err e end
  | Float32 =>
      match ParseFloat (numVal val) 32 with
      | Ok f => Ok (VFloat f) | Err e => Err e end
  | Float64 =>
      match ParseFloat (numVal val) 64 with
      | Ok f => Ok (VFloat f) | Err e => Err e end
  | String_ => Ok (VString val)
  | _ => Err ErrUnsupportedFieldType
  end.

(** The conversion applied to each element in one arm of the inner
    [switch] of [populateSliceType] (l. 381-480); [None] is the [default]
    arm, where nothing is appended and no error is returned. *)
Definition elemConv (k : Kind) : option (string → result value) :=
  match k with
  | String_ => Some (fun s => Ok (VString s))
  | Int => Some (fun s =>
      match Strconv.ParseInt target (numVal s) 64 with
      | Ok i => Ok (VInt (toSigned (Strconv.IntSize target) i))
      | Err e => Err e end)
  | Int8 => Some (fun s =>
      match Strconv.ParseInt target (numVal s) 8 with
      | Ok i => Ok (VInt (toSigned 8 i)) | Err e => Err e end)
  | Int16 => Some (fun s =>
      match Strconv.ParseInt target (numVal s) 16 with
      | Ok i => Ok (VInt (toSigned 16 i)) | Err e => Err e end)
  | Int32 => Some (fun s =>
      match Strconv.ParseInt target (numVal s) 32 with
      | Ok i => Ok (VInt (toSigned 32 i)) | Err e => Err e end)
  | Int64 => Some (fun s =>
      match Strconv.ParseInt target (numVal s) 64 with
      | Ok i => Ok (VInt (toSigned 64 i)) | Err e => Err e end)
  | Uint => Some (fun s =>
      match Strconv.ParseUint target (numVal s) 64 with
      | Ok u => Ok (VUint (toUnsigned (Strconv.IntSize target) u))
      | Err e => Err e end)
  | Uint8 => Some (fun s =>
      match Strconv.ParseUint target (numVal s) 8 with
      | Ok u => Ok (VUint (toUnsigned 8 u)) | Err e => Err e end)
  | Uint16 => Some (fun s =>
      match Strconv.ParseUint target (numVal s) 16 with
      | Ok u => Ok (VUint (toUnsigned 16 u)) | Err e => Err e end)
  | Uint32 => Some (fun s =>
      match Strconv.ParseUint target (numVal s) 32 with
      | Ok u => Ok (VUint (toUnsigned 32 u)) | Err e => Err e end)
  | Uint64 => Some (fun s =>
      match Strconv.ParseUint target (numVal s) 64 with
      | Ok u => Ok (VUint (toUnsigned 64 u)) | Err e => Err e end)
  | _ => None
  end.

End Coercion.

Arguments VBool {F} b.
Arguments VInt {F} i.
Arguments VUint {F} u.
Arguments VFloat {F} f.
Arguments VString {F} s.
Arguments VSlice {F} l.
Arguments VOpaque {F}.

(** ** Strings as Go sees them: byte sequences with indexing and slicing *)

(** [s[:n]] and [s[n:]]; the callers keep [n] within [len(s)]. *)
Fixpoint strTake (n : nat) (s : string) : string :=
  match n, s with
  | S n', String c r => String c (strTake n' r)
  | _, _ => EmptyString
  end.

Fixpoint strDrop (n : nat) (s : string) : string :=
  match n, s with
  | S n', String _ r => strDrop n' r
  | _, _ => s
  end.

(** [strings.Split(s, ",")] for a one-byte separator: [cur] collects the
    piece being read. The result is never empty. *)
Fixpoint splitOn (sep : ascii) (s cur : string) : list string :=
  match s with
  | EmptyString => [cur]
  | String c r =>
      if decide (c = sep) then cur :: splitOn sep r EmptyString
      else splitOn sep r (cur +:+ String c EmptyString)
  end.

Definition Split (s : string) (sep : ascii) : list string :=
  splitOn sep s EmptyString.

Definition isLower (c : ascii) : bool :=
  let b := Strconv.byteOf c in (97 <=? b) && (b <=? 122).
Definition isUpper (c : ascii) : bool :=
  let b := Strconv.byteOf c in (65 <=? b) && (b <=? 90).
Definition isDigit (c : ascii) : bool :=
  let b := Strconv.byteOf c in (48 <=? b) && (b <=? 57).

(** The class [[A-Z0-9_]]. *)
Definition isPrefixByte (c : ascii) : bool :=
  isUpper c || isDigit c || bool_decide (c = "_"%char).

(** [strings.ToLower] on the bytes it changes in an ASCII string. *)
Definition lowerByte (c : ascii) : ascii :=
  if isUpper c then ascii_of_N (N_of_ascii c + 32) else c.

Fixpoint ToLower (s : string) : string :=
  match s with
  | EmptyString => EmptyString
  | String c r => String (lowerByte c) (ToLower r)
  end.

(** ** The directive parser, [getStructTags] (l. 103-147) *)

Section DirectiveParser.

(** [strconv.Unquote]; [None] is its error. *)
Variable Unquote : string → option string.

(** The first loop: number of leading spaces. *)
Fixpoint skipSpace (tag : string) : nat :=
  match tag with
  | String c r => if decide (c = " "%char) then S (skipSpace r) else O
  | EmptyString => O
  end.

(** The second loop: index of the first space, colon or quote, or
    [len(tag)]. *)
Fixpoint scanName (tag : string) : nat :=
  match tag with
  | String c r =>
      if decide (c ≠ " "%char ∧ c ≠ ":"%char ∧ c ≠ dquote)
      then S (scanName r) else O
  | EmptyString => O
  end.

(** The third loop, which starts at [i = 1]: [scanQuoted s] is [i - 1]
    when the loop is left, for [s = tag[1:]]. A backslash advances [i]
    twice, also past the end. *)
Fixpoint scanQuoted (s : string) : nat :=
  match s with
  | EmptyString => O
  | String c r =>
      if decide (c = dquote) then O
      else if decide (c = backslash) then
        match r with
        | EmptyString => 2%nat
        | String _ r' => S (S (scanQuoted r'))
        end
      else S (scanQuoted r)
  end.

(** One turn of the outer loop: [None] is a [break], otherwise the pair
    stored into [m] and the rest of the tag. *)
Definition tagStep (tag : string) : option (string * string * string) :=
  let tag := strDrop (skipSpace tag) tag in
  if decide (tag = "") then None
  else
    let i := scanName tag in
    if decide ((String.length tag ≤ i + 1)%nat
               ∨ String.get i tag ≠ Some ":"%char
               ∨ String.get (i + 1) tag ≠ Some dquote) then None
    else
      let name := strTake i tag in
      let tag := strDrop (i + 1) tag in
      let i := S (scanQuoted (strDrop 1 tag)) in
      if decide (String.length tag ≤ i)%nat then None
      else
        let qvalue := strTake (i + 1) tag in
        let tag := strDrop (i + 1) tag in
        let value := default "" (Unquote qvalue) in
        Some (name, value, tag).

(** The outer loop [for tag != ""]; every turn that does not break
    shortens [tag], so [fuel = len(tag)] turns are never used up. *)
Fixpoint tagLoop (fuel : nat) (tag : string) (m : gmap string string)
  : gmap string string :=
  match fuel with
  | O => m
  | S fuel' =>
      if decide (tag = "") then m
      else match tagStep tag with
           | None => m
           | Some (name, value, tag') => tagLoop fuel' tag' (<[name := value]> m)
           end
  end.

Definition getStructTags (tag : string) : gmap string string :=
  tagLoop (String.length tag) tag ∅.

End DirectiveParser.

(** ** The fragment of [regexp] used by the package *)

Module Regexp.

(** Syntax of the two expressions of the file. Groups carry the number
    Go gives them (by opening parenthesis, from 1). *)
Inductive re :=
| Class (p : ascii → bool)
| Cat (r1 r2 : re)
| Alt (r1 r2 : re)
| Plus (r : re)
| Empty
| Group (n : nat) (r : re)
| BeginText
| EndText.

(** Start and end offset of each group that took part in the match;
    group 0 is the whole match. *)
Abbreviation caps := (gmap nat (nat * nat)).

(** One or more turns of a sub-matcher [m1], then [k]: as many turns as
    possible are tried before one is given back. A turn that consumes
    nothing ends the repetition, so [n = len(s)] turns are enough. *)
Fixpoint plusLoop (m1 : nat → string → caps → (nat → string → caps → option caps)
                        → option caps)
  (k : nat → string → caps → option caps)
  (n : nat) (pos : nat) (s : string) (c : caps) : option caps :=
  m1 pos s c (fun pos' s' c' =>
    match n with
    | O => k pos' s' c'
    | S n' =>
        if (pos <? pos')%nat then
          match plusLoop m1 k n' pos' s' c' with
          | Some c'' => Some c''
          | None => k pos' s' c'
          end
        else k pos' s' c'
    end).

(** Backtracking matcher in continuation-passing style: [pos] is the
    offset reached, [s] what is left of the text, [k] what has to match
    after [r]. Alternatives are tried left to right and [Plus] is greedy,
    which gives the match Go's [regexp] documents (the one a backtracking
    search finds first). *)
Fixpoint matchRe (r : re) (pos : nat) (s : string) (c : caps)
  (k : nat → string → caps → option caps) : option caps :=
  match r with
  | Class p =>
      match s with
      | String a s' => if p a then k (S pos) s' c else None
      | EmptyString => None
      end
  | Cat r1 r2 => matchRe r1 pos s c (fun pos' s' c' => matchRe r2 pos' s' c' k)
  | Alt r1 r2 =>
      match matchRe r1 pos s c k with
      | Some c' => Some c'
      | None => matchRe r2 pos s c k
      end
  | Plus r1 => plusLoop (matchRe r1) k (String.length s) pos s c
  | Empty => k pos s c
  | Group n r1 =>
      matchRe r1 pos s c (fun pos' s' c' => k pos' s' (<[n := (pos, pos')]> c'))
  | BeginText => if (pos =? 0)%nat then k pos s c else None
  | EndText =>
      match s with
      | EmptyString => k pos s c
      | String _ _ => None
      end
  end.

(** The unanchored search: the leftmost offset at which [r] matches. *)
Fixpoint findFrom (r : re) (pos : nat) (s : string) : option caps :=
  match matchRe r pos s ∅ (fun pos' _ c => Some (<[O := (pos, pos')]> c)) with
  | Some c => Some c
  | None =>
      match s with
      | EmptyString => None
      | String _ s' => findFrom r (S pos) s'
      end
  end.

Definition MatchString (r : re) (s : string) : bool :=
  bool_decide (is_Some (findFrom r 0 s)).

(** The text of group [n]; a group that took no part gives [""]. *)
Definition submatch (s : string) (c : caps) (n : nat) : string :=
  match c !! n with
  | Some (a, b) => strTake (b - a) (strDrop a s)
  | None => EmptyString
  end.

(** [FindStringSubmatch] for an expression with [groups] groups: [nil]
    when there is no match, else the match and its [groups] groups. *)
Definition FindStringSubmatch (r : re) (groups : nat) (s : string) : list string :=
  match findFrom r 0 s with
  | None => []
  | Some c => submatch s c <$> seq 0 (S groups)
  end.

End Regexp.

(** [ReEnvPrefix = regexp.MustCompile("^([A-Z][A-Z0-9_]+|)$")] (l. 67). *)
Definition ReEnvPrefix : Regexp.re :=
  Regexp.Cat Regexp.BeginText
    (Regexp.Cat
       (Regexp.Group 1
          (Regexp.Alt
             (Regexp.Cat (Regexp.Class isUpper)
                (Regexp.Plus (Regexp.Class isPrefixByte)))
             Regexp.Empty))
       Regexp.EndText).

(** [argRe = regexp.MustCompile("([a-z]+)([A-Z][a-z]+)")] (l. 149). *)
Definition argRe : Regexp.re :=
  Regexp.Cat
    (Regexp.Group 1 (Regexp.Plus (Regexp.Class isLower)))
    (Regexp.Group 2 (Regexp.Cat (Regexp.Class isUpper)
                                (Regexp.Plus (Regexp.Class isLower)))).

(** ** Data model (l. 35-63) *)

(** [reflect.StructField]: an exported field has an empty [PkgPath]. *)
Record StructField := {
  Name : string;
  PkgPath : string;
  Type_ : rtype;
  Tag : string }.

(** [Gofiguritem]. [goValue] is a reference into the bound record: the
    index of the field whose storage it designates. *)
Record Gofiguritem := {
  keys : gmap string string;
  field : string;
  goField : StructField;
  goValue : nat }.

(** [Gofiguration]; [flagged] and [s] are never read. *)
Record Gofiguration := {
  order : list string;
  params : gmap string (gmap string string);
  fields : gmap string Gofiguritem }.

Definition DefaultOrder : list string := ["env"; "flag"].

(** A [range] loop over a Go map visits its entries in an order the
    runtime chooses. The loops below take that order as a list; [ranges m l]
    says that [l] is one of the orders in which [m] can be visited. *)
Definition ranges {V} (m : gmap string V) (l : list (string * V)) : Prop :=
  l ≡ₚ map_to_list m.

(** ** The syntax of directive strings *)

(** What stands between the quotes of a value: bytes other than the quote
    and the backslash, and a backslash with the byte it escapes. *)
Inductive bodyItem :=
| Plain (c : ascii)
| Escaped (c : ascii).

Definition renderItem (i : bodyItem) : string :=
  match i with
  | Plain c => String c EmptyString
  | Escaped c => String backslash (String c EmptyString)
  end.

Fixpoint renderBody (b : list bodyItem) : string :=
  match b with
  | [] => EmptyString
  | i :: b' => renderItem i +:+ renderBody b'
  end.

Definition quoted (b : list bodyItem) : string :=
  String dquote (renderBody b +:+ String dquote EmptyString).

Fixpoint spaces (n : nat) : string :=
  match n with
  | O => EmptyString
  | S n' => String " "%char (spaces n')
  end.

(** One pair [key:"value"] with the spaces in front of it. *)
Record directive := {
  dSpaces : nat;
  dName : string;
  dBody : list bodyItem }.

Definition renderDirective (d : directive) : string :=
  spaces (dSpaces d) +:+ dName d +:+ String ":"%char (quoted (dBody d)).

Fixpoint renderDirectives (ds : list directive) : string :=
  match ds with
  | [] => EmptyString
  | d :: ds' => renderDirective d +:+ renderDirectives ds'
  end.

Fixpoint strForall (P : ascii → Prop) (s : string) : Prop :=
  match s with
  | EmptyString => True
  | String c r => P c ∧ strForall P r
  end.

Definition nameChar (c : ascii) : Prop :=
  c ≠ " "%char ∧ c ≠ ":"%char ∧ c ≠ dquote.

Definition wfItem (i : bodyItem) : Prop :=
  match i with
  | Plain c => c ≠ dquote ∧ c ≠ backslash
  | Escaped _ => True
  end.

Definition wfDirective (d : directive) : Prop :=
  strForall nameChar (dName d) ∧ Forall wfItem (dBody d).

Definition startsWith (c : ascii) (s : string) : Prop :=
  ∃ r, s = String c r.

(** A token that is not a pair: the colon is missing (the key ends the
    string, or is followed by a space, by a quote, or by a colon with no
    quote after it), or the quote that opens the value is never closed. *)
Inductive malformed : string → Prop :=
| MissingColon name tail :
    strForall nameChar name →
    tail = EmptyString ∨ startsWith " "%char tail ∨ startsWith dquote tail
    ∨ (∃ t, tail = String ":"%char t ∧ ¬ startsWith dquote t) →
    malformed (name +:+ tail)
| UnterminatedQuote name body trail :
    strForall nameChar name →
    Forall wfItem body →
    trail = EmptyString ∨ trail = String backslash EmptyString →
    malformed (name +:+ String ":"%char (String dquote (renderBody body +:+ trail))).

(** What is left where the parser stops: spaces only, or spaces and a
    malformed token. *)
Definition stopsAt (rest : string) : Prop :=
  ∃ n r, rest = spaces n +:+ r ∧
         (r = EmptyString ∨ (¬ startsWith " "%char r ∧ malformed r)).

(** ** The specification's readings of the two patterns *)

Fixpoint strForallb (p : ascii → bool) (s : string) : bool :=
  match s with
  | EmptyString => true
  | String c r => p c && strForallb p r
  end.

(** The prefix rule as the specification words it: [^[A-Z][A-Z0-9_]*$], or
    the empty string. *)
Definition specEnvPrefix (s : string) : bool :=
  match s with
  | EmptyString => true
  | String c r => isUpper c && strForallb isPrefixByte r
  end.

(** The longest prefix of lowercase letters, and what follows it. *)
Fixpoint spanLower (s : string) : string * string :=
  match s with
  | EmptyString => (EmptyString, EmptyString)
  | String c r =>
      if isLower c then let '(p, q) := spanLower r in (String c p, q)
      else (EmptyString, s)
  end.

(** The key pattern as the specification words it: a lowercase prefix
    followed by a suffix that starts with an uppercase letter, split into
    the prefix and the lowercased suffix. *)
Definition specSplitKey (key : string) : option (string * string) :=
  match spanLower key with
  | (String c p, String u sfx) =>
      if isUpper u then Some (String c p, ToLower (String u sfx)) else None
  | _ => None
  end.

(** ** Sources, calls and the state of a resolution *)

(** The interface [sources.Source], over the world the sources read and
    change (environment, command line, their own fields). A nil
    [map[string]string] given to [Init] reads like the empty map. *)
Record Source (World : Type) := {
  Init : gmap string string → World → option error * World;
  Register : string → string → gmap string string → rtype → World
             → option error * World;
  Get : string → option string → World → result string * World;
  GetArray : string → option (list string) → World
             → result (list string) * World;
  Cleanup : World → World }.
Arguments Init {World} _ _ _.
Arguments Register {World} _ _ _ _ _ _.
Arguments Get {World} _ _ _ _.
Arguments GetArray {World} _ _ _ _.
Arguments Cleanup {World} _ _.

(** The method calls made on sources, in the order they are made. *)
Inductive call :=
| CallInit (src : string) (args : gmap string string)
| CallRegister (src key def : string) (tags : gmap string string) (t : rtype)
| CallGet (src key : string) (prev : option string)
| CallGetArray (src key : string) (prev : option (list string))
| CallCleanup (src : string).

(** The state a resolution runs in: the world of the sources, the calls
    made so far, and the fields of the bound record. *)
Record state (F World : Type) := {
  world : World;
  calls : list call;
  record : list (value F) }.
Arguments world {F World} _.
Arguments calls {F World} _.
Arguments record {F World} _.

(** How a Go function that returns [error] can end: [nil], an error, or a
    panic. The state reached is kept in every case. *)
Inductive outcome (A : Type) :=
| Done (a : A)
| Failed (e : error)
| Panicked.
Arguments Done {A} a.
Arguments Failed {A} e.
Arguments Panicked {A}.

(** ** Sample instances, on which the engine is run *)

(** [strconv.Unquote] on the double-quoted strings that hold neither a
    backslash nor a quote between their quotes: it returns what stands
    between the quotes. Any other string is answered with the error
    here. *)
Fixpoint unquoteBody (s : string) : option string :=
  match s with
  | EmptyString => None
  | String c r =>
      if decide (c = dquote) then
        if decide (r = EmptyString) then Some EmptyString else None
      else if decide (c = backslash) then None
      else String c <$> unquoteBody r
  end.

Definition sampleUnquote (s : string) : option string :=
  match s with
  | String c r => if decide (c = dquote) then unquoteBody r else None
  | EmptyString => None
  end.

(** [strconv.ParseFloat] on decimal integers, with the integers standing
    for the floating-point numbers they denote. *)
Definition sampleParseFloat (s : string) (bitSize : Z) : result Z :=
  Strconv.ParseInt Arch64 s 64.

(** A source that answers from two tables and gives back [previous], or
    the empty string, for a key its table does not hold. Its world counts
    the calls it has served. *)
Definition tableSource (tbl : gmap string string)
  (arr : gmap string (list string)) : Source nat :=
  {| Init := fun _ w => (None, S w);
     Register := fun _ _ _ _ w => (None, S w);
     Get := fun key prev w =>
       (Ok (default (default EmptyString prev) (tbl !! key)), S w);
     GetArray := fun key _ w => (Ok (default [] (arr !! key)), S w);
     Cleanup := fun w => S w |}.

Definition sampleSources (env flag : Source nat) : gmap string (Source nat) :=
  {[ "env" := env; "flag" := flag ]}.

(** The text [key:"value"]. *)
Definition kv (key value : string) : string :=
  key +:+ String ":"%char (String dquote (value +:+ String dquote EmptyString)).

Definition exportedField (name : string) (t : rtype) (tag : string) : StructField :=
  {| Name := name; PkgPath := EmptyString; Type_ := t; Tag := tag |}.

(** The directive field, declared as [gofigure interface{}] in package
    [main]. *)
Definition sentinelField (tag : string) : StructField :=
  {| Name := "gofigure"; PkgPath := "main"; Type_ := TKind Interface; Tag := tag |}.

Definition sampleItem (name : string) (t : rtype) (i : nat) : Gofiguritem :=
  {| keys := ∅; field := name; goField := exportedField name t EmptyString;
     goValue := i |}.

Definition sampleState (fields : list (value Z)) : state Z nat :=
  {| world := O; calls := []; record := fields |}.

Definition sampleRangeTags (m : gmap string string) : list (string * string) :=
  map_to_list m.

Definition sampleRangeFields (site : nat) (m : gmap string Gofiguritem)
  : list (string * Gofiguritem) :=
  map_to_list m.

(** A record with the directive field and one integer field, and the plan
    [ParseStruct] builds for it. *)
Definition sampleRecord : list StructField :=
  [sentinelField (kv "order" "env,flag" +:+ " " +:+ kv "envPrefix" "APP");
   exportedField "Port" (TKind Int) (kv "env" "PORT")].

Definition samplePlan : Gofiguration :=
  {| order := ["env"; "flag"];
     params := {[ "env" := {[ "prefix" := "APP" ]} ]};
     fields := {[ "Port" := {| keys := {[ "env" := "PORT" ]}; field := "Port";
                               goField := exportedField "Port" (TKind Int)
                                            (kv "env" "PORT");
                               goValue := 1 |} ]} |}.

(** A record type without embedded records has no promoted field. *)
Definition noPromoted (t : list StructField) (name : string) : option StructField :=
  None.

(** A source whose [Init] fails with the error [e]. *)
Definition initFailSource (e : error) : Source nat :=
  {| Init := fun _ w => (Some e, S w);
     Register := fun _ _ _ _ w => (None, S w);
     Get := fun key prev w => (Ok (default EmptyString prev), S w);
     GetArray := fun key _ w => (Ok [], S w);
     Cleanup := fun w => S w |}.

(** A source whose [Get] and [GetArray] fail with the error [e]. *)
Definition getFailSource (e : error) : Source nat :=
  {| Init := fun _ w => (None, S w);
     Register := fun _ _ _ _ w => (None, S w);
     Get := fun key prev w => (Err e, S w);
     GetArray := fun key _ w => (Err e, S w);
     Cleanup := fun w => S w |}.

Section Engine.

Variable target : arch.
Variable F : Type.
Variable ParseFloat : string → Z → result F.
Variable Unquote : string → option string.
Variable World : Type.

(** The registry [Sources] (l. 57). *)
Variable Sources : gmap string (Source World).

(** The order in which [range tags] (l. 155) visits the directive map, and
    the orders in which the two [range gfg.fields] loops (l. 225, site 0,
    and l. 488, site 1) visit the field map. *)
Variable rangeTags : gmap string string → list (string * string).
Variable rangeFields : nat → gmap string Gofiguritem → list (string * Gofiguritem).

(** The fields a record type has through its embedded records:
    [promoted t name] is what [reflect]'s search below the top level of
    the record with the fields [t] gives for [name], nothing when no
    embedded record has such a field or when the name is ambiguous. The
    embedded records themselves are fields of [t], of kind [Struct] or
    [Ptr]. *)
Variable promoted : list StructField → string → option StructField.

Definition M (A : Type) : Type := state F World → outcome A * state F World.

Definition ret {A} (a : A) : M A := fun st => (Done a, st).
Definition fail {A} (e : error) : M A := fun st => (Failed e, st).
Definition panic {A} : M A := fun st => (Panicked, st).
Definition bind {A B} (m : M A) (f : A → M B) : M B :=
  fun st =>
    match m st with
    | (Done a, st') => f a st'
    | (Failed e, st') => (Failed e, st')
    | (Panicked, st') => (Panicked, st')
    end.

#[local] Instance M_ret : MRet M := @ret.
#[local] Instance M_bind : MBind M := fun A B f m => bind m f.

(** [for _, x := range l { body }] where [body] returns on error. *)
Fixpoint forEach {A} (l : list A) (body : A → M unit) : M unit :=
  match l with
  | [] => ret tt
  | x :: l' => body x;; forEach l' body
  end.

(** [defer d] around [body]: [d] runs when [body] has returned or
    panicked; a panic in [d] is the panic that goes on. *)
Definition defer {A} (d : M unit) (body : M A) : M A :=
  fun st =>
    let '(r, st1) := body st in
    match d st1 with
    | (Panicked, st2) => (Panicked, st2)
    | (_, st2) => (r, st2)
    end.

Definition logCall (c : call) (w : World) (st : state F World) : state F World :=
  {| world := w; calls := calls st ++ [c]; record := record st |}.

(** [Sources[name]] followed by a method call: the index expression
    gives the nil interface for a name that is not registered, and the
    call panics. *)
Definition withSource {A} (name : string) (f : Source World → M A) : M A :=
  match Sources !! name with
  | Some src => f src
  | None => panic
  end.

Definition callInit (o : string) (args : gmap string string) : M unit :=
  withSource o (fun src st =>
    let '(err, w) := Init src args (world st) in
    (match err with None => Done tt | Some e => Failed e end,
     logCall (CallInit o args) w st)).

Definition callRegister (o key def : string) (tags : gmap string string)
  (t : rtype) : M unit :=
  withSource o (fun src st =>
    let '(err, w) := Register src key def tags t (world st) in
    (match err with None => Done tt | Some e => Failed e end,
     logCall (CallRegister o key def tags t) w st)).

Definition callGet (o key : string) (prev : option string) : M string :=
  withSource o (fun src st =>
    let '(r, w) := Get src key prev (world st) in
    (match r with Ok val => Done val | Err e => Failed e end,
     logCall (CallGet o key prev) w st)).

Definition callGetArray (o key : string) (prev : option (list string))
  : M (list string) :=
  withSource o (fun src st =>
    let '(r, w) := GetArray src key prev (world st) in
    (match r with Ok val => Done val | Err e => Failed e end,
     logCall (CallGetArray o key prev) w st)).

Definition callCleanup (o : string) : M unit :=
  withSource o (fun src st =>
    (Done tt, logCall (CallCleanup o) (Cleanup src (world st)) st)).

(** *** Plan construction (l. 81-206) *)

(** [t.FieldByName(name)]: the field of that name among the fields [t] of
    the record, and when the record has none, what [reflect] finds among
    the fields promoted from its embedded records. *)
Definition FieldByName (t : list StructField) (name : string) : option StructField :=
  match List.find (fun f => bool_decide (Name f = name)) t with
  | Some f => Some f
  | None => promoted t name
  end.

(** [gfg.params[src][key] = value], making the inner map when it is
    missing (l. 173-176). *)
Definition setParam (gfg : Gofiguration) (src key value : string) : Gofiguration :=
  {| order := order gfg;
     params := <[src := <[key := value]> (default ∅ (params gfg !! src))]> (params gfg);
     fields := fields gfg |}.

Definition setOrder (gfg : Gofiguration) (o : list string) : Gofiguration :=
  {| order := o; params := params gfg; fields := fields gfg |}.

(** The body of [for name, value := range tags] (l. 155-178), over the
    entries in the order they are visited. The plan is changed in place, so
    it is returned next to the error. *)
Fixpoint directiveLoop (gfg : Gofiguration) (visit : list (string * string))
  : Gofiguration * option error :=
  match visit with
  | [] => (gfg, None)
  | (name, value) :: rest =>
      if decide (name = "order") then
        let oParts := Split value ","%char in
        if forallb (fun p => bool_decide (is_Some (Sources !! p))) oParts
        then directiveLoop (setOrder gfg oParts) rest
        else (gfg, Some ErrInvalidOrder)
      else
        match Regexp.FindStringSubmatch argRe 2 name with
        | _ :: m1 :: m2 :: _ =>
            directiveLoop (setParam gfg m1 (ToLower m2) value) rest
        | _ => directiveLoop gfg rest
        end
  end.

(** [parseGofigureField] (l. 151). *)
Definition parseGofigureField (gfg : Gofiguration) (t : list StructField)
  : Gofiguration * option error :=
  match FieldByName t "gofigure" with
  | Some gf => directiveLoop gfg (rangeTags (getStructTags Unquote (Tag gf)))
  | None => (gfg, None)
  end.

(** [parseFields] (l. 183): [i] is the index of the head of [fs] in the
    record. *)
Fixpoint fieldLoop (fs : list StructField) (i : nat)
  (acc : gmap string Gofiguritem) : gmap string Gofiguritem :=
  match fs with
  | [] => acc
  | sf :: rest =>
      let f := Name sf in
      if decide (f = "gofigure") then fieldLoop rest (S i) acc
      else
        let gfi := {| field := f; goField := sf; goValue := i;
                      keys := if (0 <? String.length (Tag sf))%nat
                              then getStructTags Unquote (Tag sf) else ∅ |} in
        fieldLoop rest (S i) (<[f := gfi]> acc)
  end.

Definition parseFields (gfg : Gofiguration) (t : list StructField) : Gofiguration :=
  {| order := order gfg; params := params gfg;
     fields := fieldLoop t 0 (fields gfg) |}.

(** [ParseStruct] (l. 82), for a record with the fields [t]. *)
Definition ParseStruct (t : list StructField) : result Gofiguration :=
  let gfg := {| params := ∅; order := DefaultOrder; fields := ∅ |} in
  match parseGofigureField gfg t with
  | (_, Some err) => Err err
  | (gfg, None) => Ok (parseFields gfg t)
  end.

(** *** The life cycle of the sources (l. 208-239) *)

Definition cleanupSources (gfg : Gofiguration) : M unit :=
  forEach (order gfg) callCleanup.

Definition initSources (gfg : Gofiguration) : M unit :=
  forEach (order gfg) (fun o => callInit o (default ∅ (params gfg !! o))).

(** The key a field is looked up under in source [o]: the tag of that
    name if the field has one, else the field name. *)
Definition keyFor (gfi : Gofiguritem) (o : string) : string :=
  default (field gfi) (keys gfi !! o).

Definition registerFields (gfg : Gofiguration) : M unit :=
  forEach (rangeFields 0 (fields gfg)).*2 (fun gfi =>
    forEach (order gfg) (fun o =>
      callRegister o (keyFor gfi o) "" (keys gfi) (Type_ (goField gfi)))).

(** *** Population (l. 248-535) *)

(** [gfi.goValue.Set...(v)]: [reflect] panics when the value was reached
    through a field that is not exported. *)
Definition setField (gfi : Gofiguritem) (v : value F) : M unit :=
  fun st =>
    if decide (PkgPath (goField gfi) = "")
    then (Done tt, {| world := world st; calls := calls st;
                      record := <[goValue gfi := v]> (record st) |})
    else (Panicked, st).

(** [gfi.goValue.Set(reflect.Append(gfi.goValue, reflect.ValueOf(v)))],
    where [v] has the predeclared type of the element kind ([string],
    [int(i)], [int8(i)], ...): [reflect.Append] panics when that value
    cannot be assigned to the element type of the slice, that is when the
    element type is a defined type. *)
Definition appendField (gfi : Gofiguritem) (v : value F) : M unit :=
  fun st =>
    if predeclared (relem (Type_ (goField gfi))) then
      match record st !! goValue gfi with
      | Some (VSlice l) => setField gfi (VSlice (l ++ [v])) st
      | _ => (Panicked, st)
      end
    else (Panicked, st).

(** What the variable [val] holds when the [switch] is left: the
    [reflect.Bool] case assigns to it (l. 270). *)
Definition valAfter (k : Kind) (val : string) : string :=
  match k with
  | Bool => boolVal val
  | _ => val
  end.

(** [populateDefaultType] (l. 248). The loop carries what [prevVal] points
    to, [None] for nil, and hands it back when it is done. After
    [prevVal = &val] (l. 262) the pointer and the variable [val] of the turn
    are the same cell, so the next turn reads through [prevVal] what [val]
    held at the end of this one. *)
Fixpoint defaultTypeLoop (gfi : Gofiguritem) (order : list string)
  (prevVal : option string) : M (option string) :=
  match order with
  | [] => ret prevVal
  | source :: rest =>
      val ← callGet source (keyFor gfi source) prevVal;
      let k := rkind (Type_ (goField gfi)) in
      match coerceScalar target F ParseFloat k val with
      | Err e => fail e
      | Ok v => setField gfi v;; defaultTypeLoop gfi rest (Some (valAfter k val))
      end
  end.

Definition populateDefaultType (gfi : Gofiguritem) (order : list string) : M unit :=
  defaultTypeLoop gfi order None;; ret tt.

(** [populateSliceType] (l. 359). [prevVal] stays nil: the assignment to
    it is commented out (l. 375). *)
Definition populateSliceType (gfi : Gofiguritem) (order : list string) : M unit :=
  forEach order (fun source =>
    val ← callGetArray source (keyFor gfi source) None;
    match rkind (Type_ (goField gfi)) with
    | Slice =>
        match elemConv target F (rkind (relem (Type_ (goField gfi)))) with
        | Some conv =>
            forEach val (fun s =>
              match conv s with
              | Err e => fail e
              | Ok v => appendField gfi v
              end)
        | None => ret tt
        end
    | _ => ret tt
    end).

(** [populateStruct] (l. 487). *)
Definition populateField (gfg : Gofiguration) (gfi : Gofiguritem) : M unit :=
  match rkind (Type_ (goField gfi)) with
  | Invalid | Uintptr | Complex64 | Complex128 | Chan | Func | Ptr
  | UnsafePointer | Interface | Map | Struct | Array =>
      fail ErrUnsupportedFieldType
  | Slice => populateSliceType gfi (order gfg)
  | _ => populateDefaultType gfi (order gfg)
  end.

Definition populateStruct (gfg : Gofiguration) : M unit :=
  forEach (rangeFields 1 (fields gfg)).*2 (populateField gfg).

(** *** Entry points (l. 537-561) *)

(** [Apply]; its argument [s] is not used by the body. *)
Definition Apply (gfg : Gofiguration) : M unit :=
  defer (cleanupSources gfg)
    (initSources gfg;; registerFields gfg;; populateStruct gfg).

(** [Gofigure], for a record whose fields are described by [t] and held
    in the state. *)
Definition Gofigure (t : list StructField) : M unit :=
  match ParseStruct t with
  | Err err => fail err
  | Ok gfg => Apply gfg
  end.

(** *** Notions used to state what plan construction does *)

(** The source and parameter name a directive key stands for: groups 1 and
    2 of the leftmost match of [argRe], the second lowercased (l. 171-176);
    [None] when [argRe] has no match in the key. *)
Definition paramOf (name : string) : option (string * string) :=
  match Regexp.FindStringSubmatch argRe 2 name with
  | _ :: m1 :: m2 :: _ => Some (m1, ToLower m2)
  | _ => None
  end.

(** [gfg.params[src][key]], where reading a missing inner map gives
    nothing. *)
Definition getParam (gfg : Gofiguration) (src key : string) : option string :=
  params gfg !! src ≫= (.!! key).

(** The value of the last entry visited whose key stands for the
    parameter [key] of source [src]. *)
Fixpoint lastParam (visit : list (string * string)) (src key : string)
  : option string :=
  match visit with
  | [] => None
  | (name, value) :: rest =>
      match lastParam rest src key with
      | Some v => Some v
      | None =>
          if decide (name ≠ "order" ∧ paramOf name = Some (src, key))
          then Some value else None
      end
  end.

(** The value stored for a pair, and the map a sequence of pairs gives:
    a later pair with the same key replaces an earlier one. *)
Definition directiveValue (d : directive) : string :=
  default EmptyString (Unquote (quoted (dBody d))).

Definition directiveMap (ds : list directive) : gmap string string :=
  foldl (fun m d => <[dName d := directiveValue d]> m) ∅ ds.

(** A call other than [Cleanup]. *)
Definition notCleanup (c : call) : Prop :=
  match c with
  | CallCleanup _ => False
  | _ => True
  end.

(** A computation that leaves the fields of the record alone and only
    adds calls that satisfy [P] to those made so far, however it ends. *)
Definition adds {A} (P : call → Prop) (m : M A) : Prop :=
  ∀ st, ∃ l, calls (m st).2 = calls st ++ l ∧ Forall P l.

(** The elements of a sequence after conversion, or the first error. *)
Fixpoint coerceAll (conv : string → result (value F)) (val : list string)
  : result (list (value F)) :=
  match val with
  | [] => Ok []
  | s :: rest =>
      match conv s with
      | Err e => Err e
      | Ok v =>
          match coerceAll conv rest with
          | Err e => Err e
          | Ok vs => Ok (v :: vs)
          end
      end
  end.

(** The world after [Cleanup] has been invoked on the sources that the
    names [os] stand for, one after the other, starting from [w]. *)
Definition cleanupWorld (os : list string) (w : World) : World :=
  foldl (fun w o => match Sources !! o with
                    | Some src => Cleanup src w
                    | None => w
                    end) w os.

(** The world after [GetArray] has been called for the field [gfi], with
    nil for [previous], on the sources that the names [os] stand for, one
    after the other, starting from [w]. *)
Fixpoint getArrayWorld (gfi : Gofiguritem) (os : list string) (w : World)
  : World :=
  match os with
  | [] => w
  | o :: rest =>
      match Sources !! o with
      | Some src =>
          getArrayWorld gfi rest (GetArray src (keyFor gfi o) None w).2
      | None => w
      end
  end.

(** The body of [Apply] that the deferred cleanup waits for. *)
Definition applyBody (gfg : Gofiguration) : M unit :=
  initSources gfg;; registerFields gfg;; populateStruct gfg.

(** *** Notions used to state what the engine leaves alone *)

(** A call that asks a source for a value. *)
Definition isGet (c : call) : Prop :=
  match c with
  | CallGet _ _ _ | CallGetArray _ _ _ => True
  | _ => False
  end.

(** A computation that keeps the number of fields of the record and
    writes to no field whose index is outside [I], however it ends. *)
Definition writesOnly {A} (I : nat → Prop) (m : M A) : Prop :=
  ∀ st, length (record (m st).2) = length (record st)
        ∧ ∀ i, ¬ I i → record (m st).2 !! i = record st !! i.

(** The item [parseFields] makes for the field [sf] at index [i]. *)
Definition itemOf (sf : StructField) (i : nat) : Gofiguritem :=
  {| keys := getStructTags Unquote (Tag sf); field := Name sf;
     goField := sf; goValue := i |}.

(** A call of the set-up phase. *)
Definition isSetup (c : call) : Prop :=
  match c with
  | CallInit _ _ | CallRegister _ _ _ _ _ => True
  | _ => False
  end.

(** A [Get] that is given a value for [previous], and a [GetArray] that is
    given nil. *)
Definition getWithPrevious (c : call) : Prop :=
  match c with
  | CallGet _ _ (Some _) => True
  | _ => False
  end.

Definition getArrayWithNil (c : call) : Prop :=
  match c with
  | CallGetArray _ _ None => True
  | _ => False
  end.

(** The set-up that [Apply] runs before population. *)
Definition applySetup (gfg : Gofiguration) : M unit :=
  initSources gfg;; registerFields gfg.

(** The [Register] calls for one field: one for each source of the
    order, in order, under the key of that source, with the empty default,
    the directives of the field and its type. *)
Definition registerCalls (gfg : Gofiguration) (gfi : Gofiguritem) : list call :=
  (fun o => CallRegister o (keyFor gfi o) EmptyString (keys gfi)
              (Type_ (goField gfi))) <$> order gfg.

(** * Properties *)

(** ** Coercion of the empty string *)

Lemma numVal_empty : numVal EmptyString = "0".
Proof. reflexivity. Qed.

(** C8. An empty string coerced to a boolean field gives [false]; coerced
    to a field of any integer kind it gives 0, and for the floating-point
    kinds it gives what [ParseFloat] makes of "0", that is zero: in every
    numeric case the empty string is parsed as "0". *)
Theorem coerce_empty_string (fzero : F)
  (Hzero : ∀ bitSize, ParseFloat "0" bitSize = Ok fzero) :
  coerceScalar target F ParseFloat Bool EmptyString = Ok (VBool false)
  ∧ (∀ k, k ∈ [Int; Int8; Int16; Int32; Int64] →
          coerceScalar target F ParseFloat k EmptyString = Ok (VInt 0))
  ∧ (∀ k, k ∈ [Uint; Uint8; Uint16; Uint32; Uint64] →
          coerceScalar target F ParseFloat k EmptyString = Ok (VUint 0))
  ∧ (∀ k, k ∈ [Float32; Float64] →
          coerceScalar target F ParseFloat k EmptyString = Ok (VFloat fzero))
  ∧ (∀ k, k ∈ [Int; Int8; Int16; Int32; Int64; Uint; Uint8; Uint16; Uint32;
               Uint64; Float32; Float64] →
          coerceScalar target F ParseFloat k EmptyString
          = coerceScalar target F ParseFloat k "0").
Proof.
  split; [reflexivity|].
  repeat split; intros k Hk;
    repeat (apply elem_of_cons in Hk as [->|Hk];
            [try (destruct target; reflexivity)|]);
    try (by apply elem_of_nil in Hk);
    cbn; rewrite ?numVal_empty, ?Hzero; reflexivity.
Qed.

(** ** The two regular expressions *)

Lemma plusLoop_class p k n pos s c :
  Regexp.plusLoop (Regexp.matchRe (Regexp.Class p)) k n pos s c =
  match s with
  | String a s' =>
      if p a then
        match n with
        | O => k (S pos) s' c
        | S n' =>
            match Regexp.plusLoop (Regexp.matchRe (Regexp.Class p)) k n' (S pos) s' c with
            | Some c' => Some c'
            | None => k (S pos) s' c
            end
        end
      else None
  | EmptyString => None
  end.
Proof.
  destruct n, s as [|a s']; simpl; try reflexivity;
    destruct (p a); try reflexivity.
  replace (pos <? S pos)%nat with true; [reflexivity|].
  symmetry. apply Nat.ltb_lt. lia.
Qed.

(** A class repeated up to the end of the text: when what follows only
    matches at the end, the repetition succeeds exactly on a non-empty run
    of bytes of the class. *)
Lemma plusLoop_to_end p k :
  (∀ pos a s' c, k pos (String a s') c = None) →
  (∀ pos c, is_Some (k pos EmptyString c)) →
  ∀ s n pos c, (String.length s ≤ n)%nat →
    is_Some (Regexp.plusLoop (Regexp.matchRe (Regexp.Class p)) k n pos s c)
    ↔ s ≠ EmptyString ∧ strForallb p s = true.
Proof.
  intros Hk1 Hk2 s. induction s as [|a s' IH]; intros n pos c Hn.
  - rewrite plusLoop_class. split; [intros [? ?]; discriminate|intros [? _]; done].
  - rewrite plusLoop_class. simpl in *. destruct (p a); simpl.
    + destruct n as [|n']; [lia|].
      specialize (IH n' (S pos) c ltac:(lia)).
      destruct (Regexp.plusLoop _ k n' (S pos) s' c) as [c'|] eqn:E.
      * split; [intros _|eauto]. split; [done|]. apply IH. eauto.
      * destruct s' as [|b s''].
        -- split; [done|intros _; apply Hk2].
        -- rewrite Hk1. split; [intros [? ?]; discriminate|].
           intros [_ Hall]. destruct IH as [_ IH].
           destruct IH as [? ?]; [split; [done|exact Hall]|discriminate].
    + split; [intros [? ?]; discriminate|intros [_ ?]; discriminate].
Qed.

Lemma findFrom_unfold r pos s :
  Regexp.findFrom r pos s =
  match Regexp.matchRe r pos s ∅ (fun pos' _ c => Some (<[O := (pos, pos')]> c)) with
  | Some c => Some c
  | None =>
      match s with
      | EmptyString => None
      | String _ s' => Regexp.findFrom r (S pos) s'
      end
  end.
Proof. destruct s; reflexivity. Qed.

Lemma findFrom_ReEnvPrefix_later s : ∀ pos, pos ≠ O →
  Regexp.findFrom ReEnvPrefix pos s = None.
Proof.
  induction s as [|a s' IH]; intros pos Hpos; simpl;
    destruct pos as [|pos']; try done; simpl.
  apply IH. done.
Qed.

(** What [ReEnvPrefix] matches: the empty string, and an uppercase letter
    followed by at least one byte of [[A-Z0-9_]] and nothing else. *)
Lemma ReEnvPrefix_matches s :
  Regexp.MatchString ReEnvPrefix s = true
  ↔ s = EmptyString
    ∨ ∃ c r, s = String c r ∧ isUpper c = true ∧ r ≠ EmptyString
             ∧ strForallb isPrefixByte r = true.
Proof.
  unfold Regexp.MatchString. rewrite bool_decide_eq_true.
  destruct s as [|a r].
  - split; [auto|]. intros _. vm_compute. eauto.
  - assert (Hlater : Regexp.findFrom ReEnvPrefix 1 r = None)
      by (apply findFrom_ReEnvPrefix_later; done).
    pose (k := fun (pos' : nat) (s' : string) (c' : Regexp.caps) =>
                 match s' with
                 | EmptyString =>
                     Some (<[O := (O, pos')]> (<[1%nat := (O, pos')]> c'))
                 | String _ _ => None
                 end).
    assert (Hform : Regexp.findFrom ReEnvPrefix 0 (String a r) =
                    if isUpper a then
                      Regexp.plusLoop (Regexp.matchRe (Regexp.Class isPrefixByte)) k
                        (String.length r) 1 r ∅
                    else None).
    { cbn [Regexp.findFrom]. rewrite Hlater.
      cbn [ReEnvPrefix Regexp.matchRe Nat.eqb].
      destruct (isUpper a); [|reflexivity].
      fold (Regexp.matchRe (Regexp.Class isPrefixByte)). fold k.
      destruct (Regexp.plusLoop _ k _ _ _ _); reflexivity. }
    rewrite Hform. clear Hform.
    destruct (isUpper a) eqn:Ha.
    + pose proof (plusLoop_to_end isPrefixByte k) as Hend.
      specialize (Hend ltac:(intros; reflexivity) ltac:(intros; subst k; simpl; eauto)).
      specialize (Hend r (String.length r) 1%nat ∅ ltac:(lia)).
      rewrite Hend. split.
      * intros [? ?]. right. eauto 10.
      * intros [?|(c & r' & Heq & _ & Hne & Hall)]; [discriminate|].
        injection Heq as -> ->. auto.
    + split; [intros [? ?]; discriminate|].
      intros [?|(c & r' & Heq & Hc & _)]; [discriminate|].
      injection Heq as -> ->. congruence.
Qed.

(** C9, as the code has it. The file holds the pattern of the prefix
    rule, [ReEnvPrefix], and the error [ErrInvalidEnvPrefix], which its
    comment says is returned if the value of envPrefix does not match the
    pattern; none of its functions applies the pattern. The pattern matches
    the empty string and the strings made of an uppercase letter followed
    by one or more bytes of [[A-Z0-9_]], and nothing else: a prefix of one
    byte never matches. What it matches, the rule [^[A-Z][A-Z0-9_]*$]
    matches too, and the two differ exactly on the single uppercase
    letters. *)
Theorem ReEnvPrefix_accepts (s : string) :
  (Regexp.MatchString ReEnvPrefix s = true
   ↔ s = EmptyString
     ∨ ∃ c r, s = String c r ∧ isUpper c = true ∧ r ≠ EmptyString
              ∧ strForallb isPrefixByte r = true)
  ∧ (∀ c, Regexp.MatchString ReEnvPrefix (String c EmptyString) = false)
  ∧ (Regexp.MatchString ReEnvPrefix s = true → specEnvPrefix s = true)
  ∧ (specEnvPrefix s = true ∧ Regexp.MatchString ReEnvPrefix s = false
     ↔ ∃ c, s = String c EmptyString ∧ isUpper c = true).
Proof.
  assert (Hone : ∀ c, Regexp.MatchString ReEnvPrefix (String c EmptyString)
                      = false).
  { intros c.
    destruct (Regexp.MatchString ReEnvPrefix (String c EmptyString)) eqn:E;
      [|reflexivity].
    apply ReEnvPrefix_matches in E as [?|(c' & r & Heq & _ & Hne & _)];
      [discriminate|].
    injection Heq as -> <-. done. }
  split_and!.
  - apply ReEnvPrefix_matches.
  - exact Hone.
  - intros Hm. apply ReEnvPrefix_matches in Hm as [->|(c & r & -> & Hc & _ & Hr)];
      [reflexivity|].
    simpl. by rewrite Hc, Hr.
  - split.
    + intros [Hspec Hrej]. destruct s as [|c r]; [by vm_compute in Hrej|].
      simpl in Hspec. apply andb_true_iff in Hspec as [Hc Hr].
      destruct r as [|b r']; [eauto|].
      exfalso. apply not_true_iff_false in Hrej. apply Hrej.
      apply ReEnvPrefix_matches. right.
      exists c, (String b r'). done.
    + intros (c & -> & Hc). split; [simpl; rewrite Hc; reflexivity|].
      apply Hone.
Qed.

Lemma isUpper_not_isLower c : isUpper c = true → isLower c = false.
Proof.
  unfold isUpper, isLower. intros H.
  apply andb_true_iff in H as [H1 H2]. apply Z.leb_le in H1, H2.
  apply andb_false_iff. left. apply Z.leb_gt. lia.
Qed.

Lemma append_String a s t : String a s +:+ t = String a (s +:+ t).
Proof. reflexivity. Qed.

Lemma append_empty_l t : EmptyString +:+ t = t.
Proof. reflexivity. Qed.

Lemma append_empty_r s : s +:+ EmptyString = s.
Proof. induction s as [|c s IH]; [reflexivity|]. rewrite append_String. by rewrite IH. Qed.

Lemma strTake_app a b : strTake (String.length a) (a +:+ b) = a.
Proof. induction a as [|c a IH]; simpl; [by destruct b|by rewrite IH]. Qed.

Lemma strDrop_app a b : strDrop (String.length a) (a +:+ b) = b.
Proof. induction a as [|c a IH]; simpl; [reflexivity|exact IH]. Qed.

Lemma strTake_all a : strTake (String.length a) a = a.
Proof. induction a as [|c a IH]; simpl; [reflexivity|by rewrite IH]. Qed.

Lemma length_app a b :
  String.length (a +:+ b) = (String.length a + String.length b)%nat.
Proof. induction a as [|c a IH]; simpl; [reflexivity|by rewrite IH]. Qed.

(** A greedy repetition over a run of bytes of the class that is followed
    by a byte outside it, or by nothing: the whole run is taken when what
    follows it matches. *)
Lemma plusLoop_run p k x run : ∀ rest n pos c,
  run ≠ EmptyString → strForallb p run = true →
  (rest = EmptyString ∨ ∃ b r, rest = String b r ∧ p b = false) →
  (String.length run ≤ n)%nat →
  k (pos + String.length run)%nat rest c = Some x →
  Regexp.plusLoop (Regexp.matchRe (Regexp.Class p)) k n pos (run +:+ rest) c = Some x.
Proof.
  induction run as [|a run' IH]; intros rest n pos c Hne Hall Hrest Hn Hk; [done|].
  simpl in Hall, Hn. apply andb_true_iff in Hall as [Ha Hall].
  rewrite plusLoop_class, append_String. rewrite Ha.
  destruct n as [|n']; [lia|].
  destruct run' as [|b run''].
  - rewrite append_empty_l. cbn [String.length] in *.
    replace (pos + 1)%nat with (S pos) in Hk by lia.
    rewrite plusLoop_class.
    destruct Hrest as [->|(b & r & -> & Hb)]; [by rewrite Hk|].
    rewrite Hb. by rewrite Hk.
  - rewrite (IH rest n' (S pos) c); try done; [cbn [String.length] in *; lia|].
    rewrite <- Hk. f_equal. cbn [String.length]. lia.
Qed.

Lemma plusLoop_run_end p k x run n pos c :
  run ≠ EmptyString → strForallb p run = true →
  (String.length run ≤ n)%nat →
  k (pos + String.length run)%nat EmptyString c = Some x →
  Regexp.plusLoop (Regexp.matchRe (Regexp.Class p)) k n pos run c = Some x.
Proof.
  intros Hne Hall Hn Hk.
  pose proof (plusLoop_run p k x run EmptyString n pos c Hne Hall
                (or_introl eq_refl) Hn Hk) as H.
  by rewrite append_empty_r in H.
Qed.

Lemma findFrom_argRe p u l :
  p ≠ EmptyString → strForallb isLower p = true → isUpper u = true →
  l ≠ EmptyString → strForallb isLower l = true →
  let key := p +:+ String u l in
  Regexp.findFrom argRe 0 key
  = Some (<[0%nat := (0%nat, String.length key)]>
           (<[2%nat := (String.length p, String.length key)]>
             (<[1%nat := (0%nat, String.length p)]> ∅))).
Proof.
  intros Hp Hpl Hu Hl Hll key.
  assert (Hm : Regexp.matchRe argRe 0 key ∅
                 (fun pos' _ c => Some (<[0%nat := (0%nat, pos')]> c))
               = Some (<[0%nat := (0%nat, String.length key)]>
                        (<[2%nat := (String.length p, String.length key)]>
                          (<[1%nat := (0%nat, String.length p)]> ∅)))).
  { cbn [argRe Regexp.matchRe].
    fold (Regexp.matchRe (Regexp.Class isLower)).
    apply plusLoop_run; try done.
    - right. exists u, l. split; [done|by apply isUpper_not_isLower].
    - subst key. rewrite length_app. lia.
    - cbn beta iota. rewrite Hu.
      apply plusLoop_run_end; try done.
      subst key. rewrite length_app. cbn [String.length].
      rewrite Nat.add_0_l.
      by replace (S (String.length p) + String.length l)%nat
        with (String.length p + S (String.length l))%nat by lia. }
  rewrite findFrom_unfold. by rewrite Hm.
Qed.

(** A key made of lowercase letters, one uppercase letter and lowercase
    letters stands for the parameter named by its second part, lowercased,
    of the source named by its first part. *)
Lemma paramOf_camel p u l :
  p ≠ EmptyString → strForallb isLower p = true → isUpper u = true →
  l ≠ EmptyString → strForallb isLower l = true →
  paramOf (p +:+ String u l) = Some (p, ToLower (String u l)).
Proof.
  intros Hp Hpl Hu Hl Hll. unfold paramOf, Regexp.FindStringSubmatch.
  rewrite findFrom_argRe by done.
  cbn [seq fmap list_fmap]. unfold Regexp.submatch.
  rewrite lookup_insert_ne by done. rewrite lookup_insert_ne by done.
  rewrite lookup_insert_eq.
  rewrite lookup_insert_ne by done. rewrite lookup_insert_eq.
  f_equal. f_equal.
  - rewrite Nat.sub_0_r. simpl. apply strTake_app.
  - f_equal. rewrite strDrop_app. rewrite length_app.
    replace (String.length p + String.length (String u l) - String.length p)%nat
      with (String.length (String u l)) by lia.
    apply strTake_all.
Qed.

(** ** Plan construction *)

Lemma getParam_setParam gfg s k v s' k' :
  getParam (setParam gfg s k v) s' k'
  = if decide (s = s' ∧ k = k') then Some v else getParam gfg s' k'.
Proof.
  unfold getParam, setParam; simpl.
  destruct (decide (s = s')) as [->|Hs].
  - rewrite lookup_insert_eq; simpl.
    destruct (decide (k = k')) as [->|Hk].
    + rewrite lookup_insert_eq. by rewrite decide_True.
    + rewrite lookup_insert_ne by done.
      rewrite decide_False by (intros [_ ?]; done).
      by destruct (params gfg !! s').
  - rewrite lookup_insert_ne by done.
    by rewrite decide_False by (intros [? _]; done).
Qed.

Lemma directiveLoop_cons gfg name value rest :
  directiveLoop gfg ((name, value) :: rest) =
  if decide (name = "order") then
    if forallb (fun p => bool_decide (is_Some (Sources !! p))) (Split value ","%char)
    then directiveLoop (setOrder gfg (Split value ","%char)) rest
    else (gfg, Some ErrInvalidOrder)
  else
    match paramOf name with
    | Some (src, key) => directiveLoop (setParam gfg src key value) rest
    | None => directiveLoop gfg rest
    end.
Proof.
  cbn [directiveLoop]. destruct (decide (name = "order")); [reflexivity|].
  unfold paramOf.
  destruct (Regexp.FindStringSubmatch argRe 2 name) as [|m0 [|m1 [|m2 ms]]];
    reflexivity.
Qed.

Lemma directiveLoop_params visit : ∀ gfg gfg',
  directiveLoop gfg visit = (gfg', None) →
  ∀ src key,
    getParam gfg' src key
    = match lastParam visit src key with
      | Some v => Some v
      | None => getParam gfg src key
      end.
Proof.
  induction visit as [|[name value] rest IH]; intros gfg gfg' Hrun src key.
  - simpl in Hrun. by injection Hrun as ->.
  - rewrite directiveLoop_cons in Hrun. cbn [lastParam].
    destruct (decide (name = "order")) as [->|Hname].
    + destruct (forallb _ _); [|discriminate].
      rewrite (IH _ _ Hrun src key).
      destruct (lastParam rest src key); [reflexivity|].
      by rewrite decide_False by (intros [? _]; done).
    + destruct (paramOf name) as [[s k]|] eqn:Hp.
      * rewrite (IH _ _ Hrun src key).
        destruct (lastParam rest src key); [reflexivity|].
        rewrite getParam_setParam.
        destruct (decide (s = src ∧ k = key)) as [[-> ->]|Hne].
        -- by rewrite decide_True.
        -- rewrite decide_False; [reflexivity|].
           intros [_ Heq]. injection Heq as -> ->. by apply Hne.
      * rewrite (IH _ _ Hrun src key).
        destruct (lastParam rest src key); [reflexivity|].
        by rewrite decide_False by (intros [_ ?]; done).
Qed.

Lemma lastParam_Some visit src key v :
  lastParam visit src key = Some v →
  ∃ name, (name, v) ∈ visit ∧ name ≠ "order" ∧ paramOf name = Some (src, key).
Proof.
  induction visit as [|[name value] rest IH]; [done|]. cbn [lastParam].
  destruct (lastParam rest src key) as [v'|].
  - intros [= ->]. destruct IH as (n & Hin & Hn); [done|].
    exists n. split; [apply elem_of_cons; by right|done].
  - case_decide as Hd; [|done]. intros [= ->].
    exists name. split; [apply elem_of_cons; by left|done].
Qed.

Lemma lastParam_None visit src key :
  (∀ name value, (name, value) ∈ visit → name ≠ "order" →
                 paramOf name ≠ Some (src, key)) →
  lastParam visit src key = None.
Proof.
  intros Hno. destruct (lastParam visit src key) as [v|] eqn:E; [|done].
  apply lastParam_Some in E as (n & Hin & Hn & Hp). by destruct (Hno n v).
Qed.

Lemma lastParam_unique visit src key name value :
  NoDup visit.*1 → (name, value) ∈ visit → name ≠ "order" →
  paramOf name = Some (src, key) →
  (∀ name' value', (name', value') ∈ visit → name' ≠ "order" →
                   paramOf name' = Some (src, key) → name' = name) →
  lastParam visit src key = Some value.
Proof.
  induction visit as [|[n0 v0] rest IH]; intros Hnd Hin Hname Hp Huniq.
  - by apply elem_of_nil in Hin.
  - cbn [lastParam]. rewrite fmap_cons in Hnd. apply NoDup_cons in Hnd as [Hfresh Hnd].
    apply elem_of_cons in Hin as [[= <- <-]|Hin].
    + destruct (lastParam rest src key) as [v|] eqn:E.
      * apply lastParam_Some in E as (n1 & Hin1 & Hn1 & Hp1).
        assert (n1 = name) as ->
          by (apply (Huniq n1 v); [apply elem_of_cons; by right|done|done]).
        exfalso. apply Hfresh. simpl.
        apply list_elem_of_fmap. by exists (name, v).
      * by rewrite decide_True.
    + rewrite IH; try done.
      intros n' v' Hin'. apply (Huniq n' v'). apply elem_of_cons. by right.
Qed.

(** C10, as the code has it. A key of the directive field other than
    [order] stands for a parameter when [argRe] has a match somewhere in
    it, and then for the one that the leftmost match names: group 1 is the
    source, group 2 in lowercase the parameter, and what the key has
    around the match is dropped. When plan construction succeeds, the
    value of such a key is stored under that parameter, provided no other
    key of the tag stands for the same parameter; a parameter that no key
    stands for is left as it was. For a key made of lowercase letters, one
    uppercase letter and lowercase letters, source and parameter are the
    two parts of the key. *)
Theorem directive_keys_become_params (t : list StructField) (gf : StructField)
  (gfg gfg' : Gofiguration) :
  FieldByName t "gofigure" = Some gf →
  ranges (getStructTags Unquote (Tag gf))
         (rangeTags (getStructTags Unquote (Tag gf))) →
  parseGofigureField gfg t = (gfg', None) →
  (∀ name value src key,
     getStructTags Unquote (Tag gf) !! name = Some value →
     name ≠ "order" → paramOf name = Some (src, key) →
     (∀ name', is_Some (getStructTags Unquote (Tag gf) !! name') →
               name' ≠ "order" → paramOf name' = Some (src, key) → name' = name) →
     getParam gfg' src key = Some value)
  ∧ (∀ src key,
       (∀ name, is_Some (getStructTags Unquote (Tag gf) !! name) →
                name ≠ "order" → paramOf name ≠ Some (src, key)) →
       getParam gfg' src key = getParam gfg src key)
  ∧ (∀ p u l,
       p ≠ EmptyString → strForallb isLower p = true → isUpper u = true →
       l ≠ EmptyString → strForallb isLower l = true →
       paramOf (p +:+ String u l) = Some (p, ToLower (String u l))).
Proof.
  intros Hgf Hrange Hrun. unfold parseGofigureField in Hrun. rewrite Hgf in Hrun.
  set (tags := getStructTags Unquote (Tag gf)) in *.
  assert (Hin : ∀ name value, (name, value) ∈ rangeTags tags ↔ tags !! name = Some value).
  { intros name value. unfold ranges in Hrange. rewrite Hrange.
    apply elem_of_map_to_list. }
  assert (Hnd : NoDup (rangeTags tags).*1).
  { unfold ranges in Hrange. rewrite Hrange. apply NoDup_fst_map_to_list. }
  pose proof (directiveLoop_params _ _ _ Hrun) as Hparams.
  split; [|split].
  - intros name value src key Hlook Hname Hp Huniq. rewrite Hparams.
    rewrite (lastParam_unique _ src key name value); try done.
    + by apply Hin.
    + intros n' v' Hin' Hn' Hp'. apply Huniq; try done.
      apply Hin in Hin'. eauto.
  - intros src key Hno. rewrite Hparams.
    rewrite lastParam_None; [done|].
    intros n v Hin' Hn. apply Hno; [|done]. apply Hin in Hin'. eauto.
  - apply paramOf_camel.
Qed.

Lemma directiveLoop_invalid_order visit v : ∀ gfg,
  ("order", v) ∈ visit →
  forallb (fun p => bool_decide (is_Some (Sources !! p))) (Split v ","%char) = false →
  (directiveLoop gfg visit).2 = Some ErrInvalidOrder.
Proof.
  induction visit as [|[name value] rest IH]; intros gfg Hin Hbad.
  - by apply elem_of_nil in Hin.
  - rewrite directiveLoop_cons.
    apply elem_of_cons in Hin as [[= <- <-]|Hin].
    + rewrite decide_True by done. by rewrite Hbad.
    + destruct (decide (name = "order")).
      * destruct (forallb _ (Split value _)); [by apply IH|done].
      * destruct (paramOf name) as [[s k]|]; by apply IH.
Qed.

(** C6. When the [order] directive of the record names a source that is
    not in the registry, [ParseStruct] fails with [ErrInvalidOrder], and
    [Gofigure] returns that error before any source is called and without
    writing to any field of the record. *)
Theorem invalid_order_rejected (t : list StructField) (gf : StructField)
  (v p : string) (st : state F World) :
  FieldByName t "gofigure" = Some gf →
  ranges (getStructTags Unquote (Tag gf))
         (rangeTags (getStructTags Unquote (Tag gf))) →
  getStructTags Unquote (Tag gf) !! "order" = Some v →
  p ∈ Split v ","%char →
  Sources !! p = None →
  ParseStruct t = Err ErrInvalidOrder
  ∧ Gofigure t st = (Failed ErrInvalidOrder, st).
Proof.
  intros Hgf Hrange Horder Hp Hnone.
  assert (HP : ParseStruct t = Err ErrInvalidOrder).
  { unfold ParseStruct, parseGofigureField. rewrite Hgf.
    match goal with |- context [directiveLoop ?g ?l] =>
      pose proof (directiveLoop_invalid_order l v g) as Hbad;
      destruct (directiveLoop g l) as [g' e] end.
    simpl in Hbad. rewrite Hbad; [reflexivity| |].
    - unfold ranges in Hrange. rewrite Hrange. by apply elem_of_map_to_list.
    - apply not_true_is_false. intros Hall.
      rewrite forallb_forall in Hall.
      specialize (Hall p (proj1 (list_elem_of_In _ _) Hp)).
      apply bool_decide_eq_true in Hall as [? Hsome]. congruence. }
  split; [exact HP|]. unfold Gofigure. by rewrite HP.
Qed.

(** ** The life cycle of the sources *)

Lemma bind_run {A B} (m : M A) (f : A → M B) st :
  (m ≫= f) st =
  match m st with
  | (Done a, st') => f a st'
  | (Failed e, st') => (Failed e, st')
  | (Panicked, st') => (Panicked, st')
  end.
Proof. reflexivity. Qed.

Lemma forEach_cons {A} (x : A) l body st :
  forEach (x :: l) body st =
  match body x st with
  | (Done _, st') => forEach l body st'
  | (Failed e, st') => (Failed e, st')
  | (Panicked, st') => (Panicked, st')
  end.
Proof. reflexivity. Qed.

Lemma forEach_app {A} (l1 l2 : list A) body st :
  forEach (l1 ++ l2) body st =
  match forEach l1 body st with
  | (Done _, st') => forEach l2 body st'
  | (Failed e, st') => (Failed e, st')
  | (Panicked, st') => (Panicked, st')
  end.
Proof.
  revert st. induction l1 as [|x l1 IH]; intros st; [reflexivity|].
  rewrite <- app_comm_cons, !forEach_cons.
  destruct (body x st) as [[[]|e|] st']; [apply IH|reflexivity|reflexivity].
Qed.

Lemma adds_ret {A} P (a : A) : adds P (ret a).
Proof. intros st. exists []. by rewrite app_nil_r. Qed.

Lemma adds_fail {A} P e : adds P (@fail A e).
Proof. intros st. exists []. by rewrite app_nil_r. Qed.

Lemma adds_panic {A} P : adds P (@panic A).
Proof. intros st. exists []. by rewrite app_nil_r. Qed.

Lemma adds_bind {A B} P (m : M A) (f : A → M B) :
  adds P m → (∀ a, adds P (f a)) → adds P (m ≫= f).
Proof.
  intros Hm Hf st. rewrite bind_run.
  destruct (Hm st) as (l1 & Hl1 & HP1).
  destruct (m st) as [[a|e|] st']; simpl in *; [|eauto|eauto].
  destruct (Hf a st') as (l2 & Hl2 & HP2).
  exists (l1 ++ l2). rewrite Hl2, Hl1, app_assoc. split; [done|].
  by apply Forall_app.
Qed.

Lemma adds_forEach {A} P (l : list A) body :
  (∀ x, adds P (body x)) → adds P (forEach l body).
Proof.
  intros Hbody. induction l as [|x l IH]; [apply adds_ret|].
  apply adds_bind; [apply Hbody|intros _; apply IH].
Qed.

Lemma adds_withSource {A} P name (f : Source World → M A) :
  (∀ src, adds P (f src)) → adds P (withSource name f).
Proof.
  intros Hf. unfold withSource. destruct (Sources !! name); [apply Hf|apply adds_panic].
Qed.

Lemma adds_callInit o args : adds notCleanup (callInit o args).
Proof.
  apply adds_withSource. intros src st. cbv beta.
  destruct (Init src args (world st)) as [err w].
  exists [CallInit o args]. split; [reflexivity|]. by constructor.
Qed.

Lemma adds_callRegister o key def tags t :
  adds notCleanup (callRegister o key def tags t).
Proof.
  apply adds_withSource. intros src st. cbv beta.
  destruct (Register src key def tags t (world st)) as [err w].
  exists [CallRegister o key def tags t]. split; [reflexivity|]. by constructor.
Qed.

Lemma adds_callGet o key prev : adds notCleanup (callGet o key prev).
Proof.
  apply adds_withSource. intros src st. cbv beta.
  destruct (Get src key prev (world st)) as [r w].
  exists [CallGet o key prev]. split; [reflexivity|]. by constructor.
Qed.

Lemma adds_callGetArray o key prev : adds notCleanup (callGetArray o key prev).
Proof.
  apply adds_withSource. intros src st. cbv beta.
  destruct (GetArray src key prev (world st)) as [r w].
  exists [CallGetArray o key prev]. split; [reflexivity|]. by constructor.
Qed.

Lemma adds_setField P gfi v : adds P (setField gfi v).
Proof.
  intros st. exists []. unfold setField. rewrite app_nil_r. by case_decide.
Qed.

Lemma adds_appendField P gfi v : adds P (appendField gfi v).
Proof.
  intros st. unfold appendField.
  destruct (predeclared _); [|apply (adds_panic P st)].
  destruct (record st !! goValue gfi) as [[]|]; try apply (adds_panic P st).
  apply adds_setField.
Qed.

Lemma adds_defaultTypeLoop gfi order : ∀ prev,
  adds notCleanup (defaultTypeLoop gfi order prev).
Proof.
  induction order as [|o rest IH]; intros prev; [apply adds_ret|].
  cbn [defaultTypeLoop]. apply adds_bind; [apply adds_callGet|]. intros val.
  destruct (coerceScalar _ _ _ _); [|apply adds_fail].
  apply adds_bind; [apply adds_setField|intros _; apply IH].
Qed.

Lemma adds_populateSliceType gfi order :
  adds notCleanup (populateSliceType gfi order).
Proof.
  apply adds_forEach. intros o.
  apply adds_bind; [apply adds_callGetArray|]. intros val.
  destruct (rkind _); try apply adds_ret.
  destruct (elemConv _ _) as [conv|]; [|apply adds_ret].
  apply adds_forEach. intros x.
  destruct (conv x); [apply adds_appendField|apply adds_fail].
Qed.

Lemma adds_populateField gfg gfi : adds notCleanup (populateField gfg gfi).
Proof.
  unfold populateField.
  destruct (rkind _); try apply adds_fail; try apply adds_populateSliceType;
    (apply adds_bind; [apply adds_defaultTypeLoop|intros _; apply adds_ret]).
Qed.

Lemma adds_applyBody gfg : adds notCleanup (applyBody gfg).
Proof.
  unfold applyBody.
  apply adds_bind; [|intros _; apply adds_bind; [|intros _]].
  - apply adds_forEach. intros o. apply adds_callInit.
  - apply adds_forEach. intros gfi. apply adds_forEach. intros o.
    apply adds_callRegister.
  - apply adds_forEach. intros gfi. apply adds_populateField.
Qed.

(** With every name registered, [cleanupSources] calls [Cleanup] on each
    source of the list, in its order, and returns. *)
Lemma cleanup_run (l : list string) : ∀ st,
  Forall (fun o => is_Some (Sources !! o)) l →
  forEach l callCleanup st
  = (Done tt, {| world := cleanupWorld l (world st);
                 calls := calls st ++ (CallCleanup <$> l);
                 record := record st |}).
Proof.
  induction l as [|o l IH]; intros st Hreg.
  - simpl. rewrite app_nil_r. by destruct st.
  - apply Forall_cons in Hreg as [[src Hsrc] Hreg].
    rewrite forEach_cons. unfold callCleanup at 1, withSource. rewrite Hsrc.
    rewrite (IH (logCall (CallCleanup o) (Cleanup src (world st)) st) Hreg).
    unfold cleanupWorld. simpl. by rewrite Hsrc, <- app_assoc.
Qed.

Lemma directiveLoop_order visit : ∀ gfg gfg',
  Forall (fun o => is_Some (Sources !! o)) (order gfg) →
  directiveLoop gfg visit = (gfg', None) →
  Forall (fun o => is_Some (Sources !! o)) (order gfg').
Proof.
  induction visit as [|[name value] rest IH]; intros gfg gfg' Hreg Hrun.
  - simpl in Hrun. by injection Hrun as <-.
  - rewrite directiveLoop_cons in Hrun.
    destruct (decide (name = "order")).
    + destruct (forallb _ _) eqn:Hall; [|discriminate].
      refine (IH _ _ _ Hrun). simpl.
      apply Forall_forall. intros o Ho.
      rewrite forallb_forall in Hall.
      specialize (Hall o (proj1 (list_elem_of_In _ _) Ho)).
      by apply bool_decide_eq_true in Hall.
    + destruct (paramOf name) as [[s k]|]; by refine (IH _ _ _ Hrun).
Qed.

(** The plan [ParseStruct] builds obeys the invariant of the data model:
    every name of its order is registered. *)
Lemma ParseStruct_order t gfg :
  is_Some (Sources !! "env") → is_Some (Sources !! "flag") →
  ParseStruct t = Ok gfg →
  Forall (fun o => is_Some (Sources !! o)) (order gfg).
Proof.
  intros Henv Hflag. unfold ParseStruct, parseGofigureField.
  set (gfg0 := {| order := DefaultOrder; params := ∅; fields := ∅ |}).
  assert (H0 : Forall (fun o => is_Some (Sources !! o)) (order gfg0))
    by (repeat constructor; done).
  destruct (FieldByName t "gofigure") as [gf|].
  - destruct (directiveLoop gfg0 _) as [g [e|]] eqn:Hrun; [done|].
    intros [= <-]. simpl. by apply (directiveLoop_order _ _ _ H0 Hrun).
  - by intros [= <-].
Qed.

(** [Apply] on a plan whose order names registered sources only. *)
Lemma Apply_cleanup (gfg : Gofiguration) (st : state F World) :
  Forall (fun o => is_Some (Sources !! o)) (order gfg) →
  (∃ body, calls (applyBody gfg st).2 = calls st ++ body ∧ Forall notCleanup body)
  ∧ calls (Apply gfg st).2
    = calls (applyBody gfg st).2 ++ (CallCleanup <$> order gfg)
  ∧ (Apply gfg st).1 = (applyBody gfg st).1
  ∧ record (Apply gfg st).2 = record (applyBody gfg st).2
  ∧ world (Apply gfg st).2
    = cleanupWorld (order gfg) (world (applyBody gfg st).2).
Proof.
  intros Hreg. split; [apply adds_applyBody|].
  assert (Hdefer : Apply gfg st = defer (cleanupSources gfg) (applyBody gfg) st)
    by reflexivity.
  rewrite Hdefer. unfold defer.
  destruct (applyBody gfg st) as [r st1]. simpl.
  unfold cleanupSources. rewrite (cleanup_run (order gfg) st1 Hreg). by simpl.
Qed.

(** C5. However [Apply] ends (with nil, with an error of [Init],
    [Register] or population, or with a panic), [Cleanup] is invoked on
    the source of each position of the order, in order, as the last thing
    it does: the calls [Apply] makes are those of its body, none of which
    is a [Cleanup], followed by one [Cleanup] for each position of the
    order and nothing after them; the world it leaves is the world the
    body left with the [Cleanup] of each of these sources applied to it,
    one after the other; the outcome and the fields of the record are
    those the body left. This holds for every plan whose order names
    registered sources, and so, with [env] and [flag] registered as they
    are in the file, for the plan of every record and for [Gofigure],
    which runs [Apply] on that plan. *)
Theorem cleanup_always_runs :
  (∀ gfg st,
     Forall (fun o => is_Some (Sources !! o)) (order gfg) →
     (∃ body, calls (applyBody gfg st).2 = calls st ++ body
              ∧ Forall notCleanup body)
     ∧ calls (Apply gfg st).2
       = calls (applyBody gfg st).2 ++ (CallCleanup <$> order gfg)
     ∧ (Apply gfg st).1 = (applyBody gfg st).1
     ∧ record (Apply gfg st).2 = record (applyBody gfg st).2
     ∧ world (Apply gfg st).2
       = cleanupWorld (order gfg) (world (applyBody gfg st).2))
  ∧ (∀ t gfg st,
       is_Some (Sources !! "env") → is_Some (Sources !! "flag") →
       ParseStruct t = Ok gfg →
       Gofigure t st = Apply gfg st
       ∧ (∃ body, calls (applyBody gfg st).2 = calls st ++ body
                  ∧ Forall notCleanup body)
       ∧ calls (Gofigure t st).2
         = calls (applyBody gfg st).2 ++ (CallCleanup <$> order gfg)
       ∧ (Gofigure t st).1 = (applyBody gfg st).1
       ∧ record (Gofigure t st).2 = record (applyBody gfg st).2
       ∧ world (Gofigure t st).2
         = cleanupWorld (order gfg) (world (applyBody gfg st).2))
  ∧ (∀ o src os w,
       Sources !! o = Some src →
       cleanupWorld [] w = w
       ∧ cleanupWorld (o :: os) w = cleanupWorld os (Cleanup src w)).
Proof.
  split; [apply Apply_cleanup|]. split.
  - intros t gfg st Henv Hflag Hparse.
    pose proof (ParseStruct_order t gfg Henv Hflag Hparse) as Hreg.
    assert (HG : Gofigure t st = Apply gfg st)
      by (unfold Gofigure; by rewrite Hparse).
    rewrite HG. split; [reflexivity|]. by apply Apply_cleanup.
  - intros o src os w Hsrc. split; [reflexivity|].
    unfold cleanupWorld. simpl. by rewrite Hsrc.
Qed.

(** ** Population of scalar fields *)

Lemma callGet_run o key prev src st r w :
  Sources !! o = Some src →
  Get src key prev (world st) = (r, w) →
  callGet o key prev st
  = (match r with Ok val => Done val | Err e => Failed e end,
     logCall (CallGet o key prev) w st).
Proof. intros Hsrc Hget. unfold callGet, withSource. by rewrite Hsrc, Hget. Qed.

Lemma callGetArray_run o key prev src st r w :
  Sources !! o = Some src →
  GetArray src key prev (world st) = (r, w) →
  callGetArray o key prev st
  = (match r with Ok val => Done val | Err e => Failed e end,
     logCall (CallGetArray o key prev) w st).
Proof. intros Hsrc Hget. unfold callGetArray, withSource. by rewrite Hsrc, Hget. Qed.

Lemma setField_run gfi v st :
  PkgPath (goField gfi) = EmptyString →
  setField gfi v st
  = (Done tt, {| world := world st; calls := calls st;
                 record := <[goValue gfi := v]> (record st) |}).
Proof. intros Hexp. unfold setField. by rewrite decide_True. Qed.

Lemma defaultTypeLoop_cons gfi o rest prev st :
  defaultTypeLoop gfi (o :: rest) prev st =
  match callGet o (keyFor gfi o) prev st with
  | (Done val, st1) =>
      match coerceScalar target F ParseFloat (rkind (Type_ (goField gfi))) val with
      | Err e => (Failed e, st1)
      | Ok v =>
          match setField gfi v st1 with
          | (Done _, st2) =>
              defaultTypeLoop gfi rest
                (Some (valAfter (rkind (Type_ (goField gfi))) val)) st2
          | (Failed e, st2) => (Failed e, st2)
          | (Panicked, st2) => (Panicked, st2)
          end
      end
  | (Failed e, st1) => (Failed e, st1)
  | (Panicked, st1) => (Panicked, st1)
  end.
Proof.
  cbn [defaultTypeLoop]. rewrite bind_run.
  destruct (callGet o (keyFor gfi o) prev st) as [[val|e|] st1]; try reflexivity.
  destruct (coerceScalar _ _ _ _); reflexivity.
Qed.

Lemma defaultTypeLoop_app gfi l1 l2 : ∀ prev st,
  defaultTypeLoop gfi (l1 ++ l2) prev st =
  match defaultTypeLoop gfi l1 prev st with
  | (Done p, st1) => defaultTypeLoop gfi l2 p st1
  | (Failed e, st1) => (Failed e, st1)
  | (Panicked, st1) => (Panicked, st1)
  end.
Proof.
  induction l1 as [|o l1 IH]; intros prev st; [reflexivity|].
  rewrite <- app_comm_cons, !defaultTypeLoop_cons.
  destruct (callGet _ _ _ _) as [[val|e|] st1]; try reflexivity.
  destruct (coerceScalar _ _ _ _); [|reflexivity].
  destruct (setField _ _ _) as [[[]|e|] st2]; [apply IH|reflexivity|reflexivity].
Qed.

(** C2, as the code has it. In scalar population the value of every
    source is coerced as soon as it has been obtained, in the order of the
    sources: a value that does not parse, from whichever source, ends the
    population with the parse error right after that source's [Get],
    before any later source is asked, and with the record as the earlier
    sources left it; when the last source's value parses, the field ends
    up holding its coercion. *)
Theorem scalar_coercion_every_source (gfi : Gofiguritem)
  (pre post : list string) (o : string) (src : Source World)
  (st st1 : state F World) (p : option string) (val : string) (w : World) :
  defaultTypeLoop gfi pre None st = (Done p, st1) →
  Sources !! o = Some src →
  Get src (keyFor gfi o) p (world st1) = (Ok val, w) →
  (∀ e, coerceScalar target F ParseFloat (rkind (Type_ (goField gfi))) val
        = Err e →
        populateDefaultType gfi (pre ++ o :: post) st
        = (Failed e, logCall (CallGet o (keyFor gfi o) p) w st1))
  ∧ (∀ v, coerceScalar target F ParseFloat (rkind (Type_ (goField gfi))) val
          = Ok v →
          PkgPath (goField gfi) = EmptyString →
          populateDefaultType gfi (pre ++ [o]) st
          = (Done tt, {| world := w;
                         calls := calls st1 ++ [CallGet o (keyFor gfi o) p];
                         record := <[goValue gfi := v]> (record st1) |})).
Proof.
  intros Hpre Hsrc Hget. split.
  - intros e He. unfold populateDefaultType. rewrite bind_run.
    rewrite defaultTypeLoop_app, Hpre, defaultTypeLoop_cons.
    rewrite (callGet_run _ _ _ _ _ _ _ Hsrc Hget). by rewrite He.
  - intros v Hv Hexp. unfold populateDefaultType. rewrite bind_run.
    rewrite defaultTypeLoop_app, Hpre, defaultTypeLoop_cons.
    rewrite (callGet_run _ _ _ _ _ _ _ Hsrc Hget), Hv.
    by rewrite setField_run.
Qed.

(** Scalar population from two sources that both give a value that
    parses: [a] is asked first, with nil, then [b], with what the variable
    [val] of the first turn holds by then, and the field ends up with the
    coercion of the value of [b]. *)
Lemma scalar_two_sources (gfi : Gofiguritem) (a b : string)
  (sa sb : Source World) (st : state F World) (va vb : string)
  (w1 w2 : World) (xa xb : value F) :
  let k := rkind (Type_ (goField gfi)) in
  Sources !! a = Some sa → Sources !! b = Some sb →
  PkgPath (goField gfi) = EmptyString →
  Get sa (keyFor gfi a) None (world st) = (Ok va, w1) →
  coerceScalar target F ParseFloat k va = Ok xa →
  Get sb (keyFor gfi b) (Some (valAfter k va)) w1 = (Ok vb, w2) →
  coerceScalar target F ParseFloat k vb = Ok xb →
  populateDefaultType gfi [a; b] st
  = (Done tt,
     {| world := w2;
        calls := calls st ++ [CallGet a (keyFor gfi a) None;
                              CallGet b (keyFor gfi b) (Some (valAfter k va))];
        record := <[goValue gfi := xb]> (<[goValue gfi := xa]> (record st)) |}).
Proof.
  intros k Ha Hb Hexp Hga Hxa Hgb Hxb. subst k.
  unfold populateDefaultType. rewrite bind_run, defaultTypeLoop_cons.
  rewrite (callGet_run _ _ _ _ _ _ _ Ha Hga). rewrite Hxa.
  rewrite setField_run by done. rewrite defaultTypeLoop_cons.
  erewrite callGet_run; [|exact Hb|exact Hgb]. cbv beta iota. rewrite Hxb.
  rewrite setField_run by done. simpl. by rewrite <- app_assoc.
Qed.

(** What the second source is given is the value of the first, except for
    the empty value of a boolean field. *)
Lemma valAfter_same k val :
  k ≠ Bool ∨ val ≠ EmptyString → valAfter k val = val.
Proof.
  intros [Hk|Hval]; destruct k; try done.
  unfold valAfter, boolVal. by destruct val.
Qed.

(** ** Population of sequence fields *)

Lemma appendField_run gfi v st init :
  predeclared (relem (Type_ (goField gfi))) = true →
  PkgPath (goField gfi) = EmptyString →
  record st !! goValue gfi = Some (VSlice init) →
  appendField gfi v st
  = (Done tt, {| world := world st; calls := calls st;
                 record := <[goValue gfi := VSlice (init ++ [v])]> (record st) |}).
Proof.
  intros Hpre Hexp Hl. unfold appendField. rewrite Hpre, Hl.
  by apply setField_run.
Qed.

Lemma append_elems gfi conv : ∀ val st init cs,
  predeclared (relem (Type_ (goField gfi))) = true →
  PkgPath (goField gfi) = EmptyString →
  record st !! goValue gfi = Some (VSlice init) →
  coerceAll conv val = Ok cs →
  forEach val (fun s => match conv s with
                        | Err e => fail e
                        | Ok v => appendField gfi v
                        end) st
  = (Done tt, {| world := world st; calls := calls st;
                 record := <[goValue gfi := VSlice (init ++ cs)]> (record st) |}).
Proof.
  induction val as [|s val IH]; intros st init cs Hpre Hexp Hl Hcs.
  - injection Hcs as <-. rewrite app_nil_r, list_insert_id by done.
    by destruct st.
  - cbn [coerceAll] in Hcs. rewrite forEach_cons.
    destruct (conv s) as [v|e]; [|discriminate].
    destruct (coerceAll conv val) as [vs|e] eqn:Hvs; [|discriminate].
    injection Hcs as <-.
    rewrite (appendField_run _ _ _ init) by done.
    rewrite (IH _ (init ++ [v]) vs); try done.
    + simpl. rewrite list_insert_insert_eq. by rewrite <- app_assoc.
    + simpl. apply list_lookup_insert_eq. by apply lookup_lt_Some in Hl.
Qed.

Lemma populateSliceType_cons gfi o rest st :
  populateSliceType gfi (o :: rest) st =
  match callGetArray o (keyFor gfi o) None st with
  | (Done val, st1) =>
      match
        match rkind (Type_ (goField gfi)) with
        | Slice =>
            match elemConv target F (rkind (relem (Type_ (goField gfi)))) with
            | Some conv =>
                forEach val (fun s => match conv s with
                                      | Err e => fail e
                                      | Ok v => appendField gfi v
                                      end)
            | None => ret tt
            end
        | _ => ret tt
        end st1
      with
      | (Done _, st2) => populateSliceType gfi rest st2
      | (Failed e, st2) => (Failed e, st2)
      | (Panicked, st2) => (Panicked, st2)
      end
  | (Failed e, st1) => (Failed e, st1)
  | (Panicked, st1) => (Panicked, st1)
  end.
Proof.
  unfold populateSliceType. rewrite forEach_cons, bind_run.
  destruct (callGetArray _ _ _ _) as [[val|e|] st1]; reflexivity.
Qed.

Lemma populateSliceType_step gfi k conv o rest src st val w init cs :
  rkind (Type_ (goField gfi)) = Slice →
  relem (Type_ (goField gfi)) = TKind k →
  elemConv target F k = Some conv →
  PkgPath (goField gfi) = EmptyString →
  Sources !! o = Some src →
  GetArray src (keyFor gfi o) None (world st) = (Ok val, w) →
  record st !! goValue gfi = Some (VSlice init) →
  coerceAll conv val = Ok cs →
  populateSliceType gfi (o :: rest) st
  = populateSliceType gfi rest
      {| world := w; calls := calls st ++ [CallGetArray o (keyFor gfi o) None];
         record := <[goValue gfi := VSlice (init ++ cs)]> (record st) |}.
Proof.
  intros Hty Hel Hconv Hexp Hsrc Hget Hl Hcs.
  rewrite populateSliceType_cons.
  rewrite (callGetArray_run _ _ _ _ _ _ _ Hsrc Hget).
  rewrite Hty, Hel. cbn [rkind]. rewrite Hconv.
  rewrite (append_elems _ _ _ _ init cs); try done.
  by rewrite Hel.
Qed.

(** C3, as the code has it. For an exported sequence field whose element
    type is [string] or one of the predeclared integer types ([int],
    [int8], ..., [uint64]; a defined type such as [time.Duration] is not
    among them, [reflect.Append] panics there) and the order [a, b],
    [GetArray] is called on [a] and then on [b], both times with nil for
    [previous], and when every element converts the field ends up holding
    what it held before, followed by the converted elements of [a],
    followed by those of [b], duplicates included. *)
Theorem slice_two_sources (gfi : Gofiguritem) (k : Kind)
  (conv : string → result (value F)) (a b : string) (sa sb : Source World)
  (st : state F World) (va vb : list string) (w1 w2 : World)
  (init ca cb : list (value F)) :
  rkind (Type_ (goField gfi)) = Slice →
  relem (Type_ (goField gfi)) = TKind k →
  elemConv target F k = Some conv →
  PkgPath (goField gfi) = EmptyString →
  Sources !! a = Some sa → Sources !! b = Some sb →
  record st !! goValue gfi = Some (VSlice init) →
  GetArray sa (keyFor gfi a) None (world st) = (Ok va, w1) →
  GetArray sb (keyFor gfi b) None w1 = (Ok vb, w2) →
  coerceAll conv va = Ok ca →
  coerceAll conv vb = Ok cb →
  populateSliceType gfi [a; b] st
  = (Done tt,
     {| world := w2;
        calls := calls st ++ [CallGetArray a (keyFor gfi a) None;
                              CallGetArray b (keyFor gfi b) None];
        record := <[goValue gfi := VSlice (init ++ ca ++ cb)]> (record st) |}).
Proof.
  intros Hty Hel Hconv Hexp Ha Hb Hl Hga Hgb Hca Hcb.
  rewrite (populateSliceType_step gfi k conv a [b] sa st va w1 init ca) by done.
  rewrite (populateSliceType_step gfi k conv b [] sb _ vb w2 (init ++ ca) cb);
    try done.
  - simpl. rewrite list_insert_insert_eq. by rewrite <- !app_assoc.
  - simpl. apply list_lookup_insert_eq. by apply lookup_lt_Some in Hl.
Qed.

(** ** Field types without a coercion rule *)

Lemma populateSliceType_ignored gfi :
  rkind (Type_ (goField gfi)) = Slice →
  elemConv target F (rkind (relem (Type_ (goField gfi)))) = None →
  ∀ os st,
    record (populateSliceType gfi os st).2 = record st
    ∧ (Forall (fun o => is_Some (Sources !! o)) os →
       (∀ o src, Sources !! o = Some src →
                 ∀ key w, ∃ val w', GetArray src key None w = (Ok val, w')) →
       populateSliceType gfi os st
       = (Done tt,
          {| world := getArrayWorld gfi os (world st);
             calls := calls st
                      ++ ((fun o => CallGetArray o (keyFor gfi o) None) <$> os);
             record := record st |})).
Proof.
  intros Hk Hconv os. induction os as [|o rest IH]; intros st.
  - split; [reflexivity|]. intros _ _. simpl. rewrite app_nil_r.
    by destruct st.
  - rewrite populateSliceType_cons, Hk, Hconv.
    unfold callGetArray, withSource. cbn [getArrayWorld].
    destruct (Sources !! o) as [src|] eqn:Hsrc.
    + destruct (GetArray src (keyFor gfi o) None (world st)) as [[val|e] w] eqn:Hget;
        cbv beta iota.
      * unfold ret. destruct (IH (logCall (CallGetArray o (keyFor gfi o) None) w st))
          as [Hrec Hdone].
        split; [exact Hrec|]. intros Hreg Hall.
        rewrite Hdone; [|by apply Forall_cons in Hreg as [_ ?]|done].
        simpl. by rewrite <- app_assoc.
      * split; [reflexivity|]. intros _ Hall.
        destruct (Hall o src Hsrc (keyFor gfi o) (world st)) as (val & w' & Hok).
        congruence.
    + split; [reflexivity|]. intros Hreg _.
      apply Forall_cons in Hreg as [[? ?] _]. congruence.
Qed.

(** C4, as the code has it. A field whose kind is one of [Invalid],
    [Uintptr], the complex kinds, [Chan], [Func], [Ptr], [UnsafePointer],
    [Interface], [Map], [Struct] and [Array] makes population fail with
    [ErrUnsupportedFieldType] at the moment the field is reached, without
    any call to a source and without any write to the record. A sequence
    field whose elements are not strings or integers, a sequence of
    floating-point numbers for instance, gives no error: [GetArray] is
    called with nil on every source of the order, in order, what the
    sources return is dropped, and the field keeps the contents it had. *)
Theorem unsupported_field_types (gfg : Gofiguration) (gfi : Gofiguritem) :
  (rkind (Type_ (goField gfi))
     ∈ [Invalid; Uintptr; Complex64; Complex128; Chan; Func; Ptr;
        UnsafePointer; Interface; Map; Struct; Array] →
   (∀ st, populateField gfg gfi st = (Failed ErrUnsupportedFieldType, st))
   ∧ (∀ pre post st st1,
        (rangeFields 1 (fields gfg)).*2 = pre ++ gfi :: post →
        forEach pre (populateField gfg) st = (Done tt, st1) →
        populateStruct gfg st = (Failed ErrUnsupportedFieldType, st1)))
  ∧ (rkind (Type_ (goField gfi)) = Slice →
     elemConv target F (rkind (relem (Type_ (goField gfi)))) = None →
     (∀ st, record (populateField gfg gfi st).2 = record st)
     ∧ (Forall (fun o => is_Some (Sources !! o)) (order gfg) →
        (∀ o src, Sources !! o = Some src →
                  ∀ key w, ∃ val w', GetArray src key None w = (Ok val, w')) →
        ∀ st, populateField gfg gfi st
              = (Done tt,
                 {| world := getArrayWorld gfi (order gfg) (world st);
                    calls := calls st
                             ++ ((fun o => CallGetArray o (keyFor gfi o) None)
                                   <$> order gfg);
                    record := record st |})))
  ∧ (∀ k, elemConv target F k = None
          ↔ k ∉ [String_; Int; Int8; Int16; Int32; Int64;
                 Uint; Uint8; Uint16; Uint32; Uint64])
  ∧ (∀ o src os w,
       Sources !! o = Some src →
       getArrayWorld gfi [] w = w
       ∧ getArrayWorld gfi (o :: os) w
         = getArrayWorld gfi os (GetArray src (keyFor gfi o) None w).2).
Proof.
  split_and!.
  - intros Hk.
    assert (Hfail : ∀ st, populateField gfg gfi st
                          = (Failed ErrUnsupportedFieldType, st)).
    { intros st. unfold populateField.
      repeat (apply elem_of_cons in Hk as [->|Hk]; [reflexivity|]).
      by apply elem_of_nil in Hk. }
    split; [exact Hfail|].
    intros pre post st st1 Hvisit Hpre. unfold populateStruct.
    rewrite Hvisit, forEach_app, Hpre, forEach_cons. by rewrite Hfail.
  - intros Hk Hconv.
    assert (Heq : populateField gfg gfi = populateSliceType gfi (order gfg))
      by (unfold populateField; by rewrite Hk).
    rewrite Heq. split.
    + intros st. by apply populateSliceType_ignored.
    + intros Hreg Hall st.
      by apply (populateSliceType_ignored gfi Hk Hconv (order gfg) st).
  - intros k. split.
    + intros Hnone Hin.
      repeat (apply elem_of_cons in Hin as [->|Hin]; [discriminate|]).
      by apply elem_of_nil in Hin.
    + intros Hnot. destruct k; try reflexivity;
        exfalso; apply Hnot; repeat constructor.
  - intros o src os w Hsrc. split; [reflexivity|].
    cbn [getArrayWorld]. by rewrite Hsrc.
Qed.

(** ** The directive parser *)

Lemma append_assoc a b c : (a +:+ b) +:+ c = a +:+ (b +:+ c).
Proof.
  induction a as [|x a IH]; [reflexivity|].
  rewrite !append_String. by rewrite IH.
Qed.

Lemma length_spaces n : String.length (spaces n) = n.
Proof. induction n as [|n IH]; simpl; [reflexivity|by rewrite IH]. Qed.

Lemma skipSpace_spaces n r :
  ¬ startsWith " "%char r → skipSpace (spaces n +:+ r) = n.
Proof.
  intros Hr. induction n as [|n IH].
  - rewrite append_empty_l. destruct r as [|c r]; [reflexivity|].
    simpl. rewrite decide_False; [reflexivity|].
    intros ->. apply Hr. by exists r.
  - cbn [spaces]. rewrite append_String. simpl. by rewrite IH.
Qed.

Lemma strDrop_spaces n r : strDrop n (spaces n +:+ r) = r.
Proof.
  rewrite <- (length_spaces n) at 1. apply strDrop_app.
Qed.

Lemma scanName_app name tail :
  strForall nameChar name →
  (tail = EmptyString ∨ ∃ c t, tail = String c t ∧ ¬ nameChar c) →
  scanName (name +:+ tail) = String.length name.
Proof.
  intros Hname Htail. induction name as [|c name IH].
  - rewrite append_empty_l. destruct Htail as [->|(c & t & -> & Hc)]; [reflexivity|].
    cbn [scanName]. by case_decide.
  - destruct Hname as [Hc Hname]. rewrite append_String. cbn [scanName String.length].
    case_decide; [by rewrite IH|done].
Qed.

Lemma get_app_length a c r :
  String.get (String.length a) (a +:+ String c r) = Some c.
Proof. induction a as [|x a IH]; [reflexivity|]. rewrite append_String. exact IH. Qed.

Lemma get_app_length_1 a c d r :
  String.get (String.length a + 1) (a +:+ String c (String d r)) = Some d.
Proof. induction a as [|x a IH]; [reflexivity|]. rewrite append_String. exact IH. Qed.

Lemma get_length a : String.get (String.length a) a = None.
Proof. induction a as [|x a IH]; [reflexivity|exact IH]. Qed.

Lemma strDrop_app_1 a c r :
  strDrop (String.length a + 1) (a +:+ String c r) = r.
Proof. induction a as [|x a IH]; [reflexivity|]. rewrite append_String. exact IH. Qed.

Lemma scanQuoted_body body rest :
  Forall wfItem body →
  scanQuoted (renderBody body +:+ String dquote rest)
  = String.length (renderBody body).
Proof.
  induction 1 as [|i body Hi _ IH]; [reflexivity|].
  cbn [renderBody]. rewrite append_assoc, length_app.
  destruct i as [c|c]; cbn [renderItem]; rewrite !append_String, append_empty_l.
  - destruct Hi as [Hq Hb]. cbn [scanQuoted].
    rewrite !decide_False by done. by rewrite IH.
  - cbn [scanQuoted]. rewrite decide_False by done.
    rewrite decide_True by done. by rewrite IH.
Qed.

Lemma scanQuoted_unterminated body trail :
  Forall wfItem body →
  trail = EmptyString ∨ trail = String backslash EmptyString →
  (String.length (renderBody body +:+ trail)
   ≤ scanQuoted (renderBody body +:+ trail))%nat.
Proof.
  intros Hbody Htrail. induction Hbody as [|i body Hi _ IH].
  - rewrite append_empty_l. destruct Htrail as [->| ->]; simpl; lia.
  - cbn [renderBody]. rewrite append_assoc.
    destruct i as [c|c]; cbn [renderItem]; rewrite !append_String, append_empty_l.
    + destruct Hi as [Hq Hb]. cbn [scanQuoted String.length].
      rewrite !decide_False by done. lia.
    + cbn [scanQuoted String.length]. rewrite decide_False by done.
      rewrite decide_True by done. lia.
Qed.

Lemma nameChar_colon : ¬ nameChar ":"%char.
Proof. intros (_ & H & _). done. Qed.

Lemma nameChar_space : ¬ nameChar " "%char.
Proof. intros (H & _). done. Qed.

Lemma nameChar_dquote : ¬ nameChar dquote.
Proof. intros (_ & _ & H). done. Qed.

Lemma name_not_space name tail :
  strForall nameChar name →
  ¬ startsWith " "%char tail →
  ¬ startsWith " "%char (name +:+ tail).
Proof.
  intros Hname Htail. destruct name as [|c name]; [done|].
  rewrite append_String. intros [r [= -> _]]. destruct Hname as [[H _] _]. done.
Qed.

(** One turn of the loop on a well-formed pair stores the pair and goes
    on with what follows it. *)
Lemma tagStep_directive d rest :
  wfDirective d →
  tagStep Unquote (renderDirective d +:+ rest)
  = Some (dName d, directiveValue d, rest).
Proof.
  intros [Hname Hbody]. unfold renderDirective, tagStep.
  rewrite !append_assoc, append_String.
  set (q := String dquote (renderBody (dBody d) +:+ String dquote rest)).
  assert (Hq : quoted (dBody d) +:+ rest = q).
  { unfold quoted, q. rewrite append_String, append_assoc.
    by rewrite append_String, append_empty_l. }
  rewrite Hq.
  set (X := dName d +:+ String ":"%char q).
  assert (HX : ¬ startsWith " "%char X).
  { apply name_not_space; [done|]. by intros [r [= ]]. }
  rewrite skipSpace_spaces by done. rewrite strDrop_spaces.
  assert (Hne : X ≠ EmptyString).
  { unfold X. destruct (dName d); [done|]. by rewrite append_String. }
  rewrite decide_False by done.
  assert (Hi : scanName X = String.length (dName d)).
  { apply scanName_app; [done|]. right. eexists _, _.
    split; [reflexivity|apply nameChar_colon]. }
  rewrite Hi.
  assert (HlenX : String.length X
                  = (String.length (dName d) + 3
                     + String.length (renderBody (dBody d))
                     + String.length rest)%nat).
  { unfold X, q. rewrite length_app. cbn [String.length].
    rewrite length_app. cbn [String.length]. lia. }
  assert (Hget1 : String.get (String.length (dName d)) X = Some ":"%char)
    by apply get_app_length.
  assert (Hget2 : String.get (String.length (dName d) + 1) X = Some dquote)
    by apply get_app_length_1.
  assert (Hdrop : strDrop (String.length (dName d) + 1) X = q)
    by apply strDrop_app_1.
  assert (Htake : strTake (String.length (dName d)) X = dName d)
    by apply strTake_app.
  rewrite Hget1, Hget2, Hdrop, Htake.
  case_decide as Hbrk; [destruct Hbrk as [?|[?|?]]; [lia|done|done]|].
  assert (Hscan : scanQuoted (strDrop 1 q)
                  = String.length (renderBody (dBody d)))
    by (by apply scanQuoted_body).
  rewrite Hscan.
  assert (Hlenq : String.length q
                  = (String.length (renderBody (dBody d)) + 2
                     + String.length rest)%nat).
  { unfold q. cbn [String.length]. rewrite length_app. cbn [String.length]. lia. }
  case_decide; [lia|].
  assert (Hqv : strTake (S (String.length (renderBody (dBody d))) + 1) q
                = quoted (dBody d)).
  { unfold q, quoted.
    replace (S (String.length (renderBody (dBody d))) + 1)%nat
      with (S (String.length (renderBody (dBody d) +:+ String dquote EmptyString)))
      by (rewrite length_app; simpl; lia).
    cbn [strTake]. apply (f_equal (String dquote)).
    replace (renderBody (dBody d) +:+ String dquote rest)
      with ((renderBody (dBody d) +:+ String dquote EmptyString) +:+ rest)
      by (by rewrite append_assoc, append_String, append_empty_l).
    apply strTake_app. }
  assert (Hrest : strDrop (S (String.length (renderBody (dBody d))) + 1) q = rest).
  { unfold q.
    replace (S (String.length (renderBody (dBody d))) + 1)%nat
      with (S (String.length (renderBody (dBody d)) + 1)) by lia.
    cbn [strDrop]. apply strDrop_app_1. }
  rewrite Hqv, Hrest. reflexivity.
Qed.

Lemma get_app_tail a c r n :
  String.get (String.length a + n) (a +:+ String c r) = String.get n (String c r).
Proof. induction a as [|x a IH]; [reflexivity|]. rewrite append_String. exact IH. Qed.

(** One turn of the loop on spaces, or on spaces and a malformed token,
    is a [break]. *)
Lemma tagStep_stops rest : stopsAt rest → tagStep Unquote rest = None.
Proof.
  intros (n & r & -> & Hr). unfold tagStep.
  destruct Hr as [->|[Hsp Hmal]].
  - rewrite skipSpace_spaces by (by intros [? ?]). by rewrite strDrop_spaces.
  - rewrite skipSpace_spaces by done. rewrite strDrop_spaces.
    case_decide as Hne; [reflexivity|].
    destruct Hmal as [name tail Hname Htail|name body trail Hname Hbody Htrail].
    + assert (Hi : scanName (name +:+ tail) = String.length name).
      { apply scanName_app; [done|].
        destruct Htail as [->|[[t ->]|[[t ->]|(t & -> & _)]]]; [by left|..];
          right; eexists _, _; (split; [reflexivity|]);
          [apply nameChar_space|apply nameChar_dquote|apply nameChar_colon]. }
      rewrite Hi. rewrite decide_True; [reflexivity|].
      destruct Htail as [->|[[t ->]|[[t ->]|(t & -> & Ht)]]].
      * left. rewrite append_empty_r. lia.
      * right; left. by rewrite get_app_length.
      * right; left. by rewrite get_app_length.
      * destruct t as [|c t].
        -- left. rewrite length_app. simpl. lia.
        -- right; right. rewrite get_app_length_1. intros [= ->].
           apply Ht. by exists t.
    + set (q := String dquote (renderBody body +:+ trail)).
      set (X := name +:+ String ":"%char q).
      assert (Hi : scanName X = String.length name).
      { apply scanName_app; [done|]. right. eexists _, _.
        split; [reflexivity|apply nameChar_colon]. }
      rewrite Hi.
      assert (Hdrop : strDrop (String.length name + 1) X = q)
        by apply strDrop_app_1.
      rewrite Hdrop.
      case_decide; [reflexivity|].
      rewrite decide_True; [reflexivity|].
      unfold q. cbn [strDrop String.length].
      pose proof (scanQuoted_unterminated body trail Hbody Htrail). lia.
Qed.

Lemma length_renderDirective d :
  (3 ≤ String.length (renderDirective d))%nat.
Proof.
  unfold renderDirective, quoted. rewrite !length_app. cbn [String.length].
  rewrite length_app. cbn [String.length]. lia.
Qed.

Lemma tagLoop_directives rest : stopsAt rest → ∀ ds m fuel,
  Forall wfDirective ds →
  (String.length (renderDirectives ds +:+ rest) ≤ fuel)%nat →
  tagLoop Unquote fuel (renderDirectives ds +:+ rest) m
  = foldl (fun m d => <[dName d := directiveValue d]> m) m ds.
Proof.
  intros Hstop ds. induction ds as [|d ds IH]; intros m fuel Hwf Hfuel.
  - cbn [renderDirectives foldl]. rewrite append_empty_l.
    destruct fuel as [|fuel]; [reflexivity|]. cbn [tagLoop].
    case_decide; [reflexivity|]. by rewrite tagStep_stops.
  - apply Forall_cons in Hwf as [Hd Hwf].
    cbn [renderDirectives foldl] in *. rewrite append_assoc in *.
    rewrite length_app in Hfuel. pose proof (length_renderDirective d) as Hlen.
    destruct fuel as [|fuel]; [lia|]. cbn [tagLoop].
    case_decide as Hempty.
    + apply (f_equal String.length) in Hempty. rewrite length_app in Hempty.
      simpl in Hempty. lia.
    + rewrite tagStep_directive by done. apply IH; [done|lia].
Qed.

Lemma getStructTags_directives (ds : list directive) (rest : string) :
  Forall wfDirective ds →
  stopsAt rest →
  getStructTags Unquote (renderDirectives ds +:+ rest) = directiveMap ds.
Proof.
  intros Hwf Hstop. unfold getStructTags, directiveMap.
  by apply tagLoop_directives.
Qed.

Lemma not_nameChar c :
  ¬ nameChar c → c = " "%char ∨ c = ":"%char ∨ c = dquote.
Proof.
  intros Hc. destruct (decide (c = " "%char)); [by left|].
  destruct (decide (c = ":"%char)); [by right; left|].
  destruct (decide (c = dquote)); [by right; right|].
  exfalso. by apply Hc.
Qed.

(** Every string is a run of spaces and a rest that does not start with a
    space. *)
Lemma split_spaces tag :
  ∃ n r, tag = spaces n +:+ r ∧ ¬ startsWith " "%char r.
Proof.
  induction tag as [|c tag (n & r & -> & Hr)].
  - exists O, EmptyString. split; [reflexivity|]. by intros [? ?].
  - destruct (decide (c = " "%char)) as [->|Hc].
    + by exists (S n), r.
    + exists O, (String c (spaces n +:+ r)). split; [reflexivity|].
      intros [? [= ? _]]. done.
Qed.

(** Every string is a key and a rest that is empty or starts with a
    space, a colon or a quote. *)
Lemma split_name X :
  ∃ name tail, X = name +:+ tail ∧ strForall nameChar name
    ∧ (tail = EmptyString ∨ ∃ c t, tail = String c t ∧ ¬ nameChar c).
Proof.
  induction X as [|c X (name & tail & -> & Hname & Htail)].
  - exists EmptyString, EmptyString. split_and!; [done|done|by left].
  - destruct (decide (nameChar c)) as [Hc|Hc].
    + exists (String c name), tail. split_and!; [done|by split|done].
    + exists EmptyString, (String c (name +:+ tail)).
      split_and!; [done|done|]. right. by eexists _, _.
Qed.

(** Every string is the inside of a quoted value and a rest that is empty,
    a lone backslash, or starts with the closing quote. *)
Lemma split_body u :
  ∃ body trail, u = renderBody body +:+ trail ∧ Forall wfItem body
    ∧ (trail = EmptyString ∨ trail = String backslash EmptyString
       ∨ startsWith dquote trail).
Proof.
  remember (String.length u) as n eqn:Hn. revert u Hn.
  induction n as [n IH] using lt_wf_ind. intros u Hn.
  destruct u as [|c u].
  - exists [], EmptyString. split_and!; [done|constructor|by left].
  - destruct (decide (c = dquote)) as [->|Hq].
    + exists [], (String dquote u). split_and!; [done|constructor|].
      right; right. by exists u.
    + destruct (decide (c = backslash)) as [->|Hb].
      * destruct u as [|e u].
        -- exists [], (String backslash EmptyString).
           split_and!; [done|constructor|]. right; by left.
        -- destruct (IH (String.length u) ltac:(simpl in Hn; lia) u eq_refl)
             as (body & trail & -> & Hbody & Htrail).
           exists (Escaped e :: body), trail. split_and!; [done| |done].
           by constructor.
      * destruct (IH (String.length u) ltac:(simpl in Hn; lia) u eq_refl)
          as (body & trail & -> & Hbody & Htrail).
        exists (Plain c :: body), trail. split_and!; [done| |done].
        by constructor.
Qed.

(** A non-empty string that does not start with a space is a malformed
    token, or starts with a well-formed pair. *)
Lemma token_cases X :
  X ≠ EmptyString → ¬ startsWith " "%char X →
  malformed X
  ∨ ∃ name body rest,
      X = name +:+ String ":"%char (quoted body) +:+ rest
      ∧ strForall nameChar name ∧ Forall wfItem body.
Proof.
  intros Hne Hsp.
  destruct (split_name X) as (name & tail & -> & Hname & Htail).
  destruct Htail as [->|(c & t & -> & Hc)].
  { left. apply MissingColon; [done|by left]. }
  apply not_nameChar in Hc as [->|[->| ->]].
  { left. apply MissingColon; [done|]. right; left. by exists t. }
  2:{ left. apply MissingColon; [done|]. right; right; left. by exists t. }
  destruct t as [|c u].
  { left. apply MissingColon; [done|]. right; right; right.
    exists EmptyString. split; [done|]. by intros [? ?]. }
  destruct (decide (c = dquote)) as [->|Hq].
  2:{ left. apply MissingColon; [done|]. right; right; right.
      exists (String c u). split; [done|]. intros [? [= ? _]]. done. }
  destruct (split_body u) as (body & trail & -> & Hbody & Htrail).
  destruct Htrail as [->|[->|[rest ->]]].
  - left. apply UnterminatedQuote; [done|done|by left].
  - left. apply UnterminatedQuote; [done|done|by right].
  - right. exists name, body, rest. split_and!; [|done|done].
    f_equal. unfold quoted. rewrite !append_String. do 2 f_equal.
    rewrite append_assoc. by rewrite append_String, append_empty_l.
Qed.

(** Every tag is a sequence of well-formed pairs followed by spaces, or by
    spaces and a malformed token. *)
Lemma tag_decomposes tag :
  ∃ ds rest, tag = renderDirectives ds +:+ rest
             ∧ Forall wfDirective ds ∧ stopsAt rest.
Proof.
  remember (String.length tag) as n eqn:Hn. revert tag Hn.
  induction n as [n IH] using lt_wf_ind. intros tag Hn.
  destruct (split_spaces tag) as (k & r & -> & Hsp).
  destruct (decide (r = EmptyString)) as [->|Hne].
  { exists [], (spaces k +:+ EmptyString). split_and!; [done|constructor|].
    exists k, EmptyString. split; [done|by left]. }
  destruct (token_cases r Hne Hsp)
    as [Hmal|(name & body & rest & -> & Hname & Hbody)].
  { exists [], (spaces k +:+ r). split_and!; [done|constructor|].
    exists k, r. split; [done|]. by right. }
  destruct (IH (String.length rest)) with (tag := rest)
    as (ds & rest' & -> & Hds & Hstop); [|reflexivity|].
  { subst n. rewrite !length_app. cbn [String.length]. lia. }
  exists ({| dSpaces := k; dName := name; dBody := body |} :: ds), rest'.
  split_and!; [|by constructor|done].
  cbn [renderDirectives]. unfold renderDirective; simpl.
  by rewrite !append_assoc.
Qed.

(** C7. Every tag is a sequence of well-formed pairs followed by spaces
    only, or by spaces and a token that is malformed (the colon is
    missing, or the quote of the value is not closed), and it is parsed
    into the map of the pairs in front of that token: the parser returns
    a map in every case and has no way to signal an error. This holds for
    every way of reading the tag as pairs and a rest of that kind. *)
Theorem getStructTags_lenient (tag : string) :
  (∃ ds rest,
     tag = renderDirectives ds +:+ rest
     ∧ Forall wfDirective ds ∧ stopsAt rest
     ∧ getStructTags Unquote tag = directiveMap ds)
  ∧ (∀ ds rest,
       tag = renderDirectives ds +:+ rest →
       Forall wfDirective ds → stopsAt rest →
       getStructTags Unquote tag = directiveMap ds).
Proof.
  split.
  - destruct (tag_decomposes tag) as (ds & rest & -> & Hds & Hstop).
    exists ds, rest. split_and!; try done.
    by apply getStructTags_directives.
  - intros ds rest -> Hds Hstop. by apply getStructTags_directives.
Qed.

(** ** More on plan construction *)

Lemma getStructTags_empty : getStructTags Unquote EmptyString = ∅.
Proof. reflexivity. Qed.

Lemma fieldLoop_cons sf rest i acc :
  fieldLoop (sf :: rest) i acc =
  if decide (Name sf = "gofigure") then fieldLoop rest (S i) acc
  else fieldLoop rest (S i) (<[Name sf := itemOf sf i]> acc).
Proof.
  cbn [fieldLoop]. case_decide; [reflexivity|]. unfold itemOf.
  destruct (Tag sf) as [|c tag] eqn:Htag; [|reflexivity].
  cbn [String.length Nat.ltb Nat.leb]. by rewrite getStructTags_empty.
Qed.

Lemma fieldLoop_lookup fs : ∀ i acc name gfi,
  fieldLoop fs i acc !! name = Some gfi →
  acc !! name = Some gfi
  ∨ ∃ j sf, fs !! j = Some sf ∧ Name sf = name ∧ name ≠ "gofigure"
            ∧ gfi = itemOf sf (i + j).
Proof.
  induction fs as [|sf rest IH]; intros i acc name gfi Hl; [by left|].
  rewrite fieldLoop_cons in Hl. case_decide as Hs.
  - apply IH in Hl as [Hl|(j & sf' & Hj & Hn & Hne & ->)]; [by left|].
    right. exists (S j), sf'. split_and!; try done. f_equal. lia.
  - apply IH in Hl as [Hl|(j & sf' & Hj & Hn & Hne & ->)].
    + apply lookup_insert_Some in Hl as [[<- <-]|[_ Hl]]; [|by left].
      right. exists O, sf. split_and!; try done. f_equal. lia.
    + right. exists (S j), sf'. split_and!; try done. f_equal. lia.
Qed.

Lemma fieldLoop_last fs : ∀ i acc j sf,
  fs !! j = Some sf → Name sf ≠ "gofigure" →
  (∀ j' sf', (j < j')%nat → fs !! j' = Some sf' → Name sf' ≠ Name sf) →
  fieldLoop fs i acc !! Name sf = Some (itemOf sf (i + j)).
Proof.
  induction fs as [|sf0 rest IH]; intros i acc j sf Hj Hne Hlast; [done|].
  rewrite fieldLoop_cons. destruct j as [|j].
  - injection Hj as ->. rewrite decide_False by done.
    destruct (fieldLoop rest (S i) (<[Name sf := itemOf sf i]> acc) !! Name sf)
      as [gfi|] eqn:Hl.
    + apply fieldLoop_lookup in Hl as [Hl|(j' & sf' & Hj' & Hn & _)].
      * rewrite lookup_insert_eq in Hl. rewrite <- Hl. do 2 f_equal. lia.
      * exfalso. apply (Hlast (S j') sf'); [lia|done|done].
    + exfalso.
      assert (Hmono : ∀ fs' i' acc', is_Some (acc' !! Name sf) →
                is_Some (fieldLoop fs' i' acc' !! Name sf)).
      { clear. induction fs' as [|sf1 fs' IH']; intros i' acc' Hs; [done|].
        rewrite fieldLoop_cons. case_decide; apply IH'; [done|].
        rewrite lookup_insert. case_decide; eauto. }
      destruct (Hmono rest (S i) (<[Name sf := itemOf sf i]> acc)) as [? Hs].
      * rewrite lookup_insert_eq. eauto.
      * congruence.
  - simpl in Hj.
    assert (IH' : ∀ acc', fieldLoop rest (S i) acc' !! Name sf
                          = Some (itemOf sf (S i + j))).
    { intros acc'. apply IH; try done.
      intros j' sf' Hlt Hj'. apply (Hlast (S j') sf'); [lia|done]. }
    replace (i + S j)%nat with (S i + j)%nat by lia.
    case_decide; apply IH'.
Qed.

Lemma directiveLoop_fields visit : ∀ gfg gfg' e,
  directiveLoop gfg visit = (gfg', e) → fields gfg' = fields gfg.
Proof.
  induction visit as [|[name value] rest IH]; intros gfg gfg' e Hrun.
  - simpl in Hrun. by injection Hrun as <- _.
  - rewrite directiveLoop_cons in Hrun. case_decide.
    + destruct (forallb _ _); [by apply IH in Hrun|by injection Hrun as <- _].
    + destruct (paramOf name) as [[s k]|]; by apply IH in Hrun.
Qed.

Lemma ParseStruct_fields t gfg :
  ParseStruct t = Ok gfg → fields gfg = fieldLoop t 0 ∅.
Proof.
  unfold ParseStruct, parseGofigureField.
  destruct (FieldByName t "gofigure") as [gf|].
  - destruct (directiveLoop _ _) as [g [e|]] eqn:Hrun; [done|].
    intros [= <-]. simpl. by rewrite (directiveLoop_fields _ _ _ _ Hrun).
  - by intros [= <-].
Qed.

(** X1. Every item of the plan that [ParseStruct] builds stands for a
    field of the record: it is filed under the name of that field, which is
    not [gofigure], its [goValue] is the index of the field, and its keys
    are the directives of the field's own tag. *)
Theorem plan_items_are_fields (t : list StructField) (gfg : Gofiguration)
  (name : string) (gfi : Gofiguritem) :
  ParseStruct t = Ok gfg →
  fields gfg !! name = Some gfi →
  name ≠ "gofigure"
  ∧ field gfi = name
  ∧ Name (goField gfi) = name
  ∧ t !! goValue gfi = Some (goField gfi)
  ∧ keys gfi = getStructTags Unquote (Tag (goField gfi)).
Proof.
  intros Hparse Hl. rewrite (ParseStruct_fields _ _ Hparse) in Hl.
  apply fieldLoop_lookup in Hl as [Hl|(j & sf & Hj & Hn & Hne & ->)];
    [by rewrite lookup_empty in Hl|].
  by split_and!.
Qed.

(** X2. Every field of the record other than [gofigure] is in the plan:
    the plan holds, under the name of the field, the item of the last
    field of that name, with the index of that field. *)
Theorem plan_has_every_field (t : list StructField) (gfg : Gofiguration)
  (j : nat) (sf : StructField) :
  ParseStruct t = Ok gfg →
  t !! j = Some sf →
  Name sf ≠ "gofigure" →
  (∀ j' sf', (j < j')%nat → t !! j' = Some sf' → Name sf' ≠ Name sf) →
  fields gfg !! Name sf = Some (itemOf sf j).
Proof.
  intros Hparse Hj Hne Hlast. rewrite (ParseStruct_fields _ _ Hparse).
  by apply (fieldLoop_last t 0 ∅ j sf).
Qed.

Lemma directiveLoop_no_order visit : ∀ gfg,
  "order" ∉ visit.*1 →
  ∃ gfg', directiveLoop gfg visit = (gfg', None) ∧ order gfg' = order gfg.
Proof.
  induction visit as [|[name value] rest IH]; intros gfg Hno; [by exists gfg|].
  rewrite directiveLoop_cons. rewrite fmap_cons in Hno.
  apply not_elem_of_cons in Hno as [Hne Hno]. simpl in Hne.
  rewrite decide_False by done.
  destruct (paramOf name) as [[s k]|]; [|by apply IH].
  destruct (IH (setParam gfg s k value) Hno) as (gfg' & Hrun & Ho).
  by exists gfg'.
Qed.

Lemma directiveLoop_error visit : ∀ gfg gfg' e,
  directiveLoop gfg visit = (gfg', Some e) →
  e = ErrInvalidOrder
  ∧ ∃ v p, ("order", v) ∈ visit ∧ p ∈ Split v ","%char ∧ Sources !! p = None.
Proof.
  induction visit as [|[name value] rest IH]; intros gfg gfg' e Hrun; [done|].
  rewrite directiveLoop_cons in Hrun.
  assert (Hlift : ∀ g, directiveLoop g rest = (gfg', Some e) →
            e = ErrInvalidOrder
            ∧ ∃ v p, ("order", v) ∈ (name, value) :: rest
                     ∧ p ∈ Split v ","%char ∧ Sources !! p = None).
  { intros g Hg. destruct (IH _ _ _ Hg) as (-> & v & p & Hin & Hp & Hnone).
    split; [done|]. exists v, p. split_and!; try done.
    apply elem_of_cons. by right. }
  destruct (decide (name = "order")) as [->|Hname].
  - destruct (forallb _ _) eqn:Hall; [by apply Hlift in Hrun|].
    injection Hrun as _ <-. split; [done|].
    apply not_true_iff_false in Hall. rewrite forallb_forall in Hall.
    assert (Hex : ∃ p, p ∈ Split value ","%char ∧ Sources !! p = None).
    { clear -Hall. induction (Split value ","%char) as [|p l IH].
      - exfalso. apply Hall. intros x [].
      - destruct (Sources !! p) as [src|] eqn:Hp.
        + destruct IH as (q & Hq & Hnone).
          * intros Hl. apply Hall. intros x [<-|Hx].
            -- apply bool_decide_eq_true. by rewrite Hp.
            -- by apply Hl.
          * exists q. split; [apply elem_of_cons; by right|done].
        + exists p. split; [apply elem_of_cons; by left|done]. }
    destruct Hex as (p & Hp & Hnone). exists value, p.
    split_and!; try done. apply elem_of_cons. by left.
  - destruct (paramOf name) as [[s k]|]; by apply Hlift in Hrun.
Qed.

Lemma directiveLoop_order_set visit : ∀ gfg v,
  NoDup visit.*1 → ("order", v) ∈ visit →
  forallb (fun p => bool_decide (is_Some (Sources !! p))) (Split v ","%char) = true →
  ∃ gfg', directiveLoop gfg visit = (gfg', None)
          ∧ order gfg' = Split v ","%char.
Proof.
  induction visit as [|[name value] rest IH]; intros gfg v Hnd Hin Hall.
  - by apply elem_of_nil in Hin.
  - rewrite fmap_cons in Hnd. apply NoDup_cons in Hnd as [Hfresh Hnd].
    rewrite directiveLoop_cons.
    apply elem_of_cons in Hin as [[= <- <-]|Hin].
    + rewrite decide_True by done. rewrite Hall.
      destruct (directiveLoop_no_order rest (setOrder gfg (Split v ","%char)))
        as (gfg' & Hrun & Ho); [exact Hfresh|].
      by exists gfg'.
    + assert (Hname : name ≠ "order").
      { intros ->. apply Hfresh. simpl. apply list_elem_of_fmap.
        by exists ("order", v). }
      rewrite decide_False by done.
      destruct (paramOf name) as [[s k]|]; by apply IH.
Qed.

(** X3. [ParseStruct] has one way to fail: when it returns an error, the
    error is [ErrInvalidOrder], the record has a [gofigure] field, and the
    [order] directive of that field names a source that is not
    registered. *)
Theorem ParseStruct_fails_on_order_only (t : list StructField) (e : error) :
  (∀ tags, ranges tags (rangeTags tags)) →
  ParseStruct t = Err e →
  e = ErrInvalidOrder
  ∧ ∃ gf v p, FieldByName t "gofigure" = Some gf
              ∧ getStructTags Unquote (Tag gf) !! "order" = Some v
              ∧ p ∈ Split v ","%char ∧ Sources !! p = None.
Proof.
  intros Hrange. unfold ParseStruct, parseGofigureField.
  destruct (FieldByName t "gofigure") as [gf|]; [|done].
  destruct (directiveLoop _ _) as [g [e'|]] eqn:Hrun; [|done].
  intros [= <-].
  destruct (directiveLoop_error _ _ _ _ Hrun) as (-> & v & p & Hin & Hp & Hnone).
  split; [done|]. exists gf, v, p. split_and!; try done.
  specialize (Hrange (getStructTags Unquote (Tag gf))). unfold ranges in Hrange.
  rewrite Hrange in Hin. by apply elem_of_map_to_list in Hin.
Qed.

(** X4. An [order] directive whose names are all registered replaces the
    default order: the plan's order is the list of the names between the
    commas, in the order written and with repetitions kept. Without an
    [order] directive, or without a [gofigure] field, the plan keeps
    [DefaultOrder]. *)
Theorem order_directive_sets_order (t : list StructField) (gf : StructField) :
  FieldByName t "gofigure" = Some gf →
  ranges (getStructTags Unquote (Tag gf))
         (rangeTags (getStructTags Unquote (Tag gf))) →
  (∀ v, getStructTags Unquote (Tag gf) !! "order" = Some v →
        (∀ p, p ∈ Split v ","%char → is_Some (Sources !! p)) →
        ∃ gfg, ParseStruct t = Ok gfg ∧ order gfg = Split v ","%char)
  ∧ (getStructTags Unquote (Tag gf) !! "order" = None →
     ∃ gfg, ParseStruct t = Ok gfg ∧ order gfg = DefaultOrder).
Proof.
  intros Hgf Hrange. unfold ranges in Hrange.
  unfold ParseStruct, parseGofigureField. rewrite Hgf.
  set (tags := getStructTags Unquote (Tag gf)) in *.
  set (gfg0 := {| order := DefaultOrder; params := ∅; fields := ∅ |}).
  split.
  - intros v Hv Hreg.
    destruct (directiveLoop_order_set (rangeTags tags) gfg0 v)
      as (gfg' & Hrun & Ho).
    + rewrite Hrange. apply NoDup_fst_map_to_list.
    + rewrite Hrange. by apply elem_of_map_to_list.
    + apply forallb_forall. intros p Hp. apply bool_decide_eq_true.
      apply Hreg. by apply list_elem_of_In.
    + rewrite Hrun. by eexists.
  - intros Hnone.
    destruct (directiveLoop_no_order (rangeTags tags) gfg0)
      as (gfg' & Hrun & Ho).
    + rewrite Hrange. intros Hin. apply list_elem_of_fmap in Hin as ([k v] & Hk & Hin).
      simpl in Hk. subst k. apply elem_of_map_to_list in Hin. congruence.
    + rewrite Hrun. by eexists.
Qed.

(** ** More on the directive parser *)

Lemma directiveMap_snoc ds d :
  directiveMap (ds ++ [d]) = <[dName d := directiveValue d]> (directiveMap ds).
Proof. unfold directiveMap. by rewrite foldl_app. Qed.

Lemma directiveMap_lookup ds k :
  directiveMap ds !! k
  = directiveValue <$> last (filter (fun d => dName d = k) ds).
Proof.
  induction ds as [|d ds IH] using rev_ind; [reflexivity|].
  rewrite directiveMap_snoc, filter_app, filter_cons, filter_nil.
  destruct (decide (dName d = k)) as [<-|Hne].
  - rewrite lookup_insert_eq. by rewrite last_snoc.
  - rewrite lookup_insert_ne by done. by rewrite app_nil_r.
Qed.

(** X5. What a lookup in the parsed directives gives. For a tag read as
    well-formed pairs followed by spaces or a malformed token (every tag
    can be read so), looking a key up gives the value of the last pair
    with that key in front of the malformed token, or nothing when no such
    pair has the key. *)
Theorem getStructTags_lookup (ds : list directive) (rest k : string) :
  Forall wfDirective ds →
  stopsAt rest →
  getStructTags Unquote (renderDirectives ds +:+ rest) !! k
  = directiveValue <$> last (filter (fun d => dName d = k) ds).
Proof.
  intros Hwf Hstop. rewrite getStructTags_directives by done.
  apply directiveMap_lookup.
Qed.

(** ** Integers stay within their kind *)

Lemma uintLoop_bound maxVal s : ∀ n r e,
  0 ≤ n ≤ maxVal →
  Strconv.uintLoop maxVal s n = (r, e) →
  match e with
  | None => 0 ≤ r ≤ maxVal
  | Some ErrRange => r = maxVal
  | Some ErrSyntax => True
  end.
Proof.
  induction s as [|c s IH]; intros n r e Hn Hrun; cbn [Strconv.uintLoop] in Hrun.
  - by injection Hrun as <- <-.
  - destruct (_ && _) eqn:Hdigit; [|by injection Hrun as <- <-].
    apply andb_true_iff in Hdigit as [Hlo Hhi].
    apply Z.leb_le in Hlo, Hhi.
    destruct (_ <=? n); [by injection Hrun as <- <-|].
    destruct (_ || _) eqn:Hover; [by injection Hrun as <- <-|].
    apply orb_false_iff in Hover as [_ Hmax]. apply Z.ltb_ge in Hmax.
    eapply IH; [|exact Hrun]. lia.
Qed.

Lemma ParseUint_bound s bits u :
  0 < bits →
  Strconv.ParseUint target s bits = Ok u → 0 ≤ u < 2 ^ bits.
Proof.
  intros Hbits. unfold Strconv.ParseUint, Strconv.ParseUint10.
  case_decide; [done|].
  destruct (bits =? 0) eqn:Hz; [apply Z.eqb_eq in Hz; lia|].
  destruct (Strconv.uintLoop _ s 0) as [r [e|]] eqn:Hrun; [done|].
  intros [= <-].
  assert (0 < 2 ^ bits) by (apply Z.pow_pos_nonneg; lia).
  assert (Hstart : 0 ≤ 0 ≤ 2 ^ bits - 1) by lia.
  pose proof (uintLoop_bound _ _ _ _ _ Hstart Hrun) as Hb. simpl in Hb. lia.
Qed.

Lemma ParseInt_bound s bits i :
  1 < bits →
  Strconv.ParseInt target s bits = Ok i → - 2 ^ (bits - 1) ≤ i < 2 ^ (bits - 1).
Proof.
  intros Hbits. unfold Strconv.ParseInt.
  destruct s as [|c rest]; [done|].
  destruct (if decide (c = "+"%char) then _ else _) as [neg digits].
  unfold Strconv.ParseUint10.
  assert (Hpow : 2 ≤ 2 ^ (bits - 1)).
  { change 2 with (2 ^ 1) at 1. apply Z.pow_le_mono_r; lia. }
  assert (Hdouble : 2 ^ bits = 2 * 2 ^ (bits - 1)).
  { rewrite <- Z.pow_succ_r by lia. f_equal. lia. }
  destruct (decide (digits = EmptyString)); [done|].
  destruct (bits =? 0) eqn:Hz; [apply Z.eqb_eq in Hz; lia|].
  destruct (Strconv.uintLoop _ digits 0) as [un e] eqn:Hrun.
  assert (Hstart : 0 ≤ 0 ≤ 2 ^ bits - 1) by lia.
  pose proof (uintLoop_bound _ _ _ _ _ Hstart Hrun) as Hb.
  destruct e as [[|]|]; [done| |].
  - subst un. destruct neg; simpl.
    + destruct (_ <? _) eqn:Hc; [done|]. apply Z.ltb_ge in Hc. lia.
    + destruct (_ <=? _) eqn:Hc; [done|]. apply Z.leb_gt in Hc. lia.
  - destruct neg; simpl.
    + destruct (_ <? _) eqn:Hc; [done|]. apply Z.ltb_ge in Hc.
      intros [= <-]. lia.
    + destruct (_ <=? _) eqn:Hc; [done|]. apply Z.leb_gt in Hc.
      intros [= <-]. lia.
Qed.

Lemma toSigned_small bits i :
  0 < bits → - 2 ^ (bits - 1) ≤ i < 2 ^ (bits - 1) → toSigned bits i = i.
Proof.
  intros Hbits Hi. unfold toSigned.
  assert (Hdouble : 2 ^ bits = 2 * 2 ^ (bits - 1)).
  { rewrite <- Z.pow_succ_r by lia. f_equal. lia. }
  destruct (decide (0 ≤ i)) as [Hpos|Hneg].
  - rewrite Z.mod_small by lia.
    destruct (_ <? _) eqn:Hc; [done|]. apply Z.ltb_ge in Hc. lia.
  - replace (i mod 2 ^ bits) with (i + 2 ^ bits).
    + destruct (_ <? _) eqn:Hc; [apply Z.ltb_lt in Hc; lia|lia].
    + symmetry. rewrite <- (Z_mod_plus_full i 1 (2 ^ bits)).
      rewrite Z.mul_1_l. apply Z.mod_small. lia.
Qed.

Lemma toUnsigned_small bits u :
  0 ≤ u < 2 ^ bits → toUnsigned bits u = u.
Proof. intros Hu. unfold toUnsigned. by apply Z.mod_small. Qed.

(** X6. Integers of the sized kinds are never cut to fit their field,
    and [int] and [uint] are cut on a 32-bit target only. When the
    coercion of a value for a field of kind [int8], [int16], [int32] or
    [int64] succeeds, what is stored is the number [ParseInt] read with the
    bit size of the kind, and it lies in the range of the kind; likewise
    for [uint8] to [uint64] and [ParseUint]: a value outside the range is
    an error, not a wrapped number. For [int] and [uint] the value is
    parsed with bit size 64 whatever the target, and stored after
    conversion to the [int] or [uint] of the target: unchanged on a 64-bit
    target and whenever it fits 32 bits, reduced modulo [2^32] without an
    error otherwise. *)
Theorem coerced_integers_in_range (k : Kind) (bits : Z) (val : string)
  (v : value F) :
  coerceScalar target F ParseFloat k val = Ok v →
  ((k, bits) ∈ [(Int8, 8); (Int16, 16); (Int32, 32); (Int64, 64)] →
   ∃ i, v = VInt i ∧ Strconv.ParseInt target (numVal val) bits = Ok i
        ∧ - 2 ^ (bits - 1) ≤ i < 2 ^ (bits - 1))
  ∧ ((k, bits) ∈ [(Uint8, 8); (Uint16, 16); (Uint32, 32); (Uint64, 64)] →
     ∃ u, v = VUint u ∧ Strconv.ParseUint target (numVal val) bits = Ok u
          ∧ 0 ≤ u < 2 ^ bits)
  ∧ (k = Int →
     ∃ i, Strconv.ParseInt target (numVal val) 64 = Ok i
          ∧ - 2 ^ 63 ≤ i < 2 ^ 63
          ∧ v = VInt (toSigned (Strconv.IntSize target) i)
          ∧ (target = Arch64 ∨ - 2 ^ 31 ≤ i < 2 ^ 31 → v = VInt i))
  ∧ (k = Uint →
     ∃ u, Strconv.ParseUint target (numVal val) 64 = Ok u
          ∧ 0 ≤ u < 2 ^ 64
          ∧ v = VUint (toUnsigned (Strconv.IntSize target) u)
          ∧ (target = Arch64 ∨ u < 2 ^ 32 → v = VUint u)).
Proof.
  intros Hv. split_and!.
  - intros Hk.
    repeat (apply elem_of_cons in Hk as [[= -> ->]|Hk]);
      try (by apply elem_of_nil in Hk); cbn [coerceScalar] in Hv.
    all: destruct (Strconv.ParseInt target (numVal val) _) as [i|e] eqn:Hp;
      [|done]; injection Hv as <-;
      pose proof Hp as Hb; apply ParseInt_bound in Hb; [|lia];
      exists i; split_and!; [|done|lia|lia];
      f_equal; apply toSigned_small; [done|exact Hb].
  - intros Hk.
    repeat (apply elem_of_cons in Hk as [[= -> ->]|Hk]);
      try (by apply elem_of_nil in Hk); cbn [coerceScalar] in Hv.
    all: destruct (Strconv.ParseUint target (numVal val) _) as [u|e] eqn:Hp;
      [|done]; injection Hv as <-;
      pose proof Hp as Hb; apply ParseUint_bound in Hb; [|lia];
      exists u; split_and!; [|done|lia|lia];
      f_equal; apply toUnsigned_small; exact Hb.
  - intros ->. cbn [coerceScalar] in Hv.
    destruct (Strconv.ParseInt target (numVal val) 64) as [i|e] eqn:Hp; [|done].
    injection Hv as <-.
    pose proof Hp as Hb. apply ParseInt_bound in Hb; [|lia].
    exists i. split_and!; [done|lia|lia|done|].
    intros Hfit. f_equal.
    destruct target; cbn [Strconv.IntSize]; apply toSigned_small; try lia.
    destruct Hfit as [?|?]; [done|lia].
  - intros ->. cbn [coerceScalar] in Hv.
    destruct (Strconv.ParseUint target (numVal val) 64) as [u|e] eqn:Hp; [|done].
    injection Hv as <-.
    pose proof Hp as Hb. apply ParseUint_bound in Hb; [|lia].
    exists u. split_and!; [done|lia|lia|done|].
    intros Hfit. f_equal.
    destruct target; cbn [Strconv.IntSize]; apply toUnsigned_small; try lia.
    destruct Hfit as [?|?]; [done|lia].
Qed.

(** ** Errors of the sources and of the elements *)

(** X7. An error of a source is handed on as it is. When [Get] of a
    source fails in scalar population, or [GetArray] in array population,
    population ends with that very error right after the call: the sources
    that follow are not asked, and the record is as the sources before left
    it. *)
Theorem source_error_passes_through (gfi : Gofiguritem)
  (pre post : list string) (o : string) (src : Source World) (e : error)
  (st st1 : state F World) (w : World) :
  Sources !! o = Some src →
  (∀ p, defaultTypeLoop gfi pre None st = (Done p, st1) →
        Get src (keyFor gfi o) p (world st1) = (Err e, w) →
        populateDefaultType gfi (pre ++ o :: post) st
        = (Failed e, logCall (CallGet o (keyFor gfi o) p) w st1))
  ∧ (populateSliceType gfi pre st = (Done tt, st1) →
     GetArray src (keyFor gfi o) None (world st1) = (Err e, w) →
     populateSliceType gfi (pre ++ o :: post) st
     = (Failed e, logCall (CallGetArray o (keyFor gfi o) None) w st1)).
Proof.
  intros Hsrc. split.
  - intros p Hpre Hget. unfold populateDefaultType. rewrite bind_run.
    rewrite defaultTypeLoop_app, Hpre, defaultTypeLoop_cons.
    by rewrite (callGet_run _ _ _ _ _ _ _ Hsrc Hget).
  - intros Hpre Hget. unfold populateSliceType in *.
    rewrite forEach_app, Hpre, forEach_cons, bind_run.
    by rewrite (callGetArray_run _ _ _ _ _ _ _ Hsrc Hget).
Qed.

Lemma append_elems_error gfi conv : ∀ good st init cs bad more e,
  predeclared (relem (Type_ (goField gfi))) = true →
  PkgPath (goField gfi) = EmptyString →
  record st !! goValue gfi = Some (VSlice init) →
  coerceAll conv good = Ok cs →
  conv bad = Err e →
  forEach (good ++ bad :: more)
    (fun s => match conv s with
              | Err e => fail e
              | Ok v => appendField gfi v
              end) st
  = (Failed e, {| world := world st; calls := calls st;
                  record := <[goValue gfi := VSlice (init ++ cs)]> (record st) |}).
Proof.
  intros good st init cs bad more e Hpre Hexp Hl Hcs Hbad.
  rewrite forEach_app, (append_elems _ _ _ _ init cs) by done.
  rewrite forEach_cons, Hbad. reflexivity.
Qed.

(** X8. Array population is not undone by an error. For an exported
    sequence field whose element type is [string] or one of the
    predeclared integer types: when an element that a source returned does
    not convert, population ends with the error of that element; the
    elements that the source returned in front of it have been appended to
    the field and stay there, and what follows the element is not looked
    at. *)
Theorem slice_element_error_keeps_prefix (gfi : Gofiguritem) (k : Kind)
  (conv : string → result (value F)) (o : string) (rest : list string)
  (src : Source World) (st : state F World) (good more : list string)
  (bad : string) (w : World) (init cs : list (value F)) (e : error) :
  rkind (Type_ (goField gfi)) = Slice →
  relem (Type_ (goField gfi)) = TKind k →
  elemConv target F k = Some conv →
  PkgPath (goField gfi) = EmptyString →
  Sources !! o = Some src →
  GetArray src (keyFor gfi o) None (world st) = (Ok (good ++ bad :: more), w) →
  record st !! goValue gfi = Some (VSlice init) →
  coerceAll conv good = Ok cs →
  conv bad = Err e →
  populateSliceType gfi (o :: rest) st
  = (Failed e,
     {| world := w; calls := calls st ++ [CallGetArray o (keyFor gfi o) None];
        record := <[goValue gfi := VSlice (init ++ cs)]> (record st) |}).
Proof.
  intros Hty Hel Hconv Hexp Hsrc Hget Hl Hcs Hbad.
  rewrite populateSliceType_cons.
  rewrite (callGetArray_run _ _ _ _ _ _ _ Hsrc Hget).
  rewrite Hty, Hel. cbn [rkind]. rewrite Hconv.
  rewrite (append_elems_error _ _ _ _ init cs bad more e); try done.
  by rewrite Hel.
Qed.

(** X18. A sequence whose element type is a defined type cannot be
    populated. For a sequence field whose element type is a defined type
    of string or integer kind ([[]time.Duration], say): when the source
    that is asked returns a sequence whose first element converts,
    population panics right after that [GetArray], in [reflect.Append];
    nothing has been appended, no error is returned, and the sources that
    follow are not asked. A source that returns no element causes no panic:
    population goes on with the sources that follow. *)
Theorem defined_element_type_panics (gfi : Gofiguritem)
  (conv : string → result (value F)) (o : string) (rest : list string)
  (src : Source World) (st : state F World) (s : string) (more : list string)
  (v : value F) (w : World) :
  rkind (Type_ (goField gfi)) = Slice →
  predeclared (relem (Type_ (goField gfi))) = false →
  elemConv target F (rkind (relem (Type_ (goField gfi)))) = Some conv →
  Sources !! o = Some src →
  (GetArray src (keyFor gfi o) None (world st) = (Ok (s :: more), w) →
   conv s = Ok v →
   populateSliceType gfi (o :: rest) st
   = (Panicked, logCall (CallGetArray o (keyFor gfi o) None) w st))
  ∧ (GetArray src (keyFor gfi o) None (world st) = (Ok [], w) →
     populateSliceType gfi (o :: rest) st
     = populateSliceType gfi rest
         (logCall (CallGetArray o (keyFor gfi o) None) w st)).
Proof.
  intros Hty Hel Hconv Hsrc. split.
  - intros Hget Hs. rewrite populateSliceType_cons.
    rewrite (callGetArray_run _ _ _ _ _ _ _ Hsrc Hget).
    rewrite Hty, Hconv, forEach_cons, Hs.
    unfold appendField. by rewrite Hel.
  - intros Hget. rewrite populateSliceType_cons.
    rewrite (callGetArray_run _ _ _ _ _ _ _ Hsrc Hget).
    by rewrite Hty, Hconv.
Qed.

(** ** What the engine leaves alone *)

Lemma writesOnly_ret {A} I (a : A) : writesOnly I (ret a).
Proof. by intros st. Qed.

Lemma writesOnly_fail {A} I e : writesOnly I (@fail A e).
Proof. by intros st. Qed.

Lemma writesOnly_panic {A} I : writesOnly I (@panic A).
Proof. by intros st. Qed.

Lemma writesOnly_bind {A B} I (m : M A) (f : A → M B) :
  writesOnly I m → (∀ a, writesOnly I (f a)) → writesOnly I (m ≫= f).
Proof.
  intros Hm Hf st. rewrite bind_run. destruct (Hm st) as [Hlen Hkeep].
  destruct (m st) as [[a|e|] st']; simpl in *; [|done|done].
  destruct (Hf a st') as [Hlen' Hkeep']. split; [congruence|].
  intros i Hi. by rewrite Hkeep', Hkeep.
Qed.

Lemma writesOnly_forEach {A} I (l : list A) body :
  (∀ x, x ∈ l → writesOnly I (body x)) → writesOnly I (forEach l body).
Proof.
  induction l as [|x l IH]; intros Hbody; [apply writesOnly_ret|].
  apply writesOnly_bind.
  - apply Hbody, elem_of_cons. by left.
  - intros _. apply IH. intros y Hy. apply Hbody, elem_of_cons. by right.
Qed.

Lemma writesOnly_weaken {A} (I J : nat → Prop) (m : M A) :
  (∀ i, I i → J i) → writesOnly I m → writesOnly J m.
Proof.
  intros HIJ Hm st. destruct (Hm st) as [Hlen Hkeep]. split; [done|].
  intros i Hi. apply Hkeep. intros HI. by apply Hi, HIJ.
Qed.

Lemma writesOnly_withSource {A} I name (f : Source World → M A) :
  (∀ src, writesOnly I (f src)) → writesOnly I (withSource name f).
Proof.
  intros Hf. unfold withSource.
  destruct (Sources !! name); [apply Hf|apply writesOnly_panic].
Qed.

Lemma writesOnly_callInit I o args : writesOnly I (callInit o args).
Proof.
  apply writesOnly_withSource. intros src st. cbv beta.
  by destruct (Init src args (world st)).
Qed.

Lemma writesOnly_callRegister I o key def tags t :
  writesOnly I (callRegister o key def tags t).
Proof.
  apply writesOnly_withSource. intros src st. cbv beta.
  by destruct (Register src key def tags t (world st)).
Qed.

Lemma writesOnly_callGet I o key prev : writesOnly I (callGet o key prev).
Proof.
  apply writesOnly_withSource. intros src st. cbv beta.
  by destruct (Get src key prev (world st)).
Qed.

Lemma writesOnly_callGetArray I o key prev :
  writesOnly I (callGetArray o key prev).
Proof.
  apply writesOnly_withSource. intros src st. cbv beta.
  by destruct (GetArray src key prev (world st)).
Qed.

Lemma writesOnly_callCleanup I o : writesOnly I (callCleanup o).
Proof. apply writesOnly_withSource. by intros src st. Qed.

Lemma writesOnly_setField gfi v :
  writesOnly (fun i => i = goValue gfi) (setField gfi v).
Proof.
  intros st. unfold setField. case_decide; [|done]. simpl.
  split; [apply length_insert|].
  intros i Hi. apply list_lookup_insert_ne. congruence.
Qed.

Lemma writesOnly_appendField gfi v :
  writesOnly (fun i => i = goValue gfi) (appendField gfi v).
Proof.
  intros st. unfold appendField.
  destruct (predeclared _); [|done].
  destruct (record st !! goValue gfi) as [[]|]; try done.
  apply writesOnly_setField.
Qed.

Lemma writesOnly_defaultTypeLoop gfi order : ∀ prev,
  writesOnly (fun i => i = goValue gfi) (defaultTypeLoop gfi order prev).
Proof.
  induction order as [|o rest IH]; intros prev; [apply writesOnly_ret|].
  cbn [defaultTypeLoop]. apply writesOnly_bind; [apply writesOnly_callGet|].
  intros val. destruct (coerceScalar _ _ _ _); [|apply writesOnly_fail].
  apply writesOnly_bind; [apply writesOnly_setField|intros _; apply IH].
Qed.

Lemma writesOnly_populateField gfg gfi :
  writesOnly (fun i => i = goValue gfi) (populateField gfg gfi).
Proof.
  unfold populateField.
  destruct (rkind _); try apply writesOnly_fail;
    try (apply writesOnly_bind;
         [apply writesOnly_defaultTypeLoop|intros _; apply writesOnly_ret]).
  apply writesOnly_forEach. intros o _.
  apply writesOnly_bind; [apply writesOnly_callGetArray|]. intros val.
  destruct (rkind _); try apply writesOnly_ret.
  destruct (elemConv _ _) as [conv|]; [|apply writesOnly_ret].
  apply writesOnly_forEach. intros x _.
  destruct (conv x); [apply writesOnly_appendField|apply writesOnly_fail].
Qed.

Lemma writesOnly_applySetup gfg : writesOnly (fun _ => False) (applySetup gfg).
Proof.
  apply writesOnly_bind; [|intros _].
  - apply writesOnly_forEach. intros o _. apply writesOnly_callInit.
  - apply writesOnly_forEach. intros gfi _. apply writesOnly_forEach.
    intros o _. apply writesOnly_callRegister.
Qed.

Lemma writesOnly_cleanupSources I gfg : writesOnly I (cleanupSources gfg).
Proof. apply writesOnly_forEach. intros o _. apply writesOnly_callCleanup. Qed.

Lemma writesOnly_defer {A} I d (body : M A) :
  writesOnly I d → writesOnly I body → writesOnly I (defer d body).
Proof.
  intros Hd Hbody st. unfold defer.
  destruct (Hbody st) as [Hlen Hkeep]. destruct (body st) as [r st1].
  destruct (Hd st1) as [Hlen' Hkeep']. simpl in *.
  destruct (d st1) as [[[]|e|] st2]; simpl in *;
    (split; [congruence|]); intros i Hi; by rewrite Hkeep', Hkeep.
Qed.

Lemma writesOnly_Apply gfg :
  ranges (fields gfg) (rangeFields 1 (fields gfg)) →
  writesOnly (fun i => ∃ name gfi, fields gfg !! name = Some gfi
                                   ∧ goValue gfi = i)
             (Apply gfg).
Proof.
  intros Hrange. apply writesOnly_defer; [apply writesOnly_cleanupSources|].
  assert (Hsetup := writesOnly_applySetup gfg).
  apply writesOnly_bind; [|intros _; apply writesOnly_bind; [|intros _]].
  - apply writesOnly_forEach. intros o _. apply writesOnly_callInit.
  - apply writesOnly_forEach. intros gfi _. apply writesOnly_forEach.
    intros o _. apply writesOnly_callRegister.
  - apply writesOnly_forEach. intros gfi Hgfi.
    apply (writesOnly_weaken (fun i => i = goValue gfi));
      [|apply writesOnly_populateField].
    intros i ->. apply list_elem_of_fmap in Hgfi as ([name gfi'] & -> & Hin).
    unfold ranges in Hrange. rewrite Hrange in Hin.
    apply elem_of_map_to_list in Hin. by exists name, gfi'.
Qed.

(** X9. [Gofigure] keeps the number of fields of the record and writes to
    the fields of the plan only: the directive field [gofigure] is never
    written to, whatever its type, and so is any position that is not a
    field of the record. This holds however the run ends. *)
Theorem Gofigure_writes_fields_only (t : list StructField)
  (st : state F World) (i : nat) :
  (∀ m, ranges m (rangeFields 1 m)) →
  (∀ sf, t !! i = Some sf → Name sf = "gofigure") →
  length (record (Gofigure t st).2) = length (record st)
  ∧ record (Gofigure t st).2 !! i = record st !! i.
Proof.
  intros Hrange Hi. unfold Gofigure.
  destruct (ParseStruct t) as [gfg|e] eqn:Hparse; [|done].
  destruct (writesOnly_Apply gfg (Hrange _) st) as [Hlen Hkeep].
  split; [done|]. apply Hkeep.
  intros (name & gfi & Hl & <-).
  rewrite (ParseStruct_fields _ _ Hparse) in Hl.
  apply fieldLoop_lookup in Hl as [Hl|(j & sf & Hj & Hn & Hne & ->)];
    [by rewrite lookup_empty in Hl|].
  apply Hi in Hj. congruence.
Qed.

Lemma adds_weaken {A} (P Q : call → Prop) (m : M A) :
  (∀ c, P c → Q c) → adds P m → adds Q m.
Proof.
  intros HPQ Hm st. destruct (Hm st) as (l & Hl & HP).
  exists l. split; [done|]. by apply (Forall_impl P).
Qed.

Lemma adds_callInit_setup o args : adds isSetup (callInit o args).
Proof.
  apply adds_withSource. intros src st. cbv beta.
  destruct (Init src args (world st)) as [err w].
  exists [CallInit o args]. split; [reflexivity|]. by constructor.
Qed.

Lemma adds_callRegister_setup o key def tags t :
  adds isSetup (callRegister o key def tags t).
Proof.
  apply adds_withSource. intros src st. cbv beta.
  destruct (Register src key def tags t (world st)) as [err w].
  exists [CallRegister o key def tags t]. split; [reflexivity|]. by constructor.
Qed.

Lemma adds_applySetup gfg : adds isSetup (applySetup gfg).
Proof.
  apply adds_bind; [|intros _].
  - apply adds_forEach. intros o. apply adds_callInit_setup.
  - apply adds_forEach. intros gfi. apply adds_forEach. intros o.
    apply adds_callRegister_setup.
Qed.

Lemma applyBody_setup gfg st :
  applyBody gfg st =
  match applySetup gfg st with
  | (Done _, st1) => populateStruct gfg st1
  | (Failed e, st1) => (Failed e, st1)
  | (Panicked, st1) => (Panicked, st1)
  end.
Proof.
  unfold applyBody, applySetup. rewrite !bind_run.
  by destruct (initSources gfg st) as [[[]|e|] st0].
Qed.

(** X10. When the set-up fails, nothing is asked and nothing is written.
    If [Init] of a source or [Register] of a field returns an error (or
    panics), [Apply] ends with that outcome; the calls it has made are
    [Init] and [Register] calls followed by the [Cleanup] of every source
    of the order, so no [Get] or [GetArray] is made, and the record is
    exactly as it was. *)
Theorem failed_setup_asks_nothing (gfg : Gofiguration) (st : state F World) :
  Forall (fun o => is_Some (Sources !! o)) (order gfg) →
  (applySetup gfg st).1 ≠ Done tt →
  (Apply gfg st).1 = (applySetup gfg st).1
  ∧ record (Apply gfg st).2 = record st
  ∧ ∃ setup, Forall isSetup setup
             ∧ calls (Apply gfg st).2
               = calls st ++ setup ++ (CallCleanup <$> order gfg).
Proof.
  intros Hreg Hfail.
  destruct (Apply_cleanup gfg st Hreg) as (_ & Hcalls & Hout & Hrec & _).
  rewrite Hout, Hrec, Hcalls, applyBody_setup.
  destruct (adds_applySetup gfg st) as (l & Hl & Hsetup).
  destruct (writesOnly_applySetup gfg st) as [Hlen Hkeep].
  destruct (applySetup gfg st) as [[[]|e|] st1]; [done| |]; simpl in *.
  - split_and!; [done| |].
    + apply list_eq. intros i. apply Hkeep. tauto.
    + exists l. split; [done|]. by rewrite Hl, app_assoc.
  - split_and!; [done| |].
    + apply list_eq. intros i. apply Hkeep. tauto.
    + exists l. split; [done|]. by rewrite Hl, app_assoc.
Qed.

(** ** The value handed on as [previous] *)

Lemma adds_defaultTypeLoop_previous gfi order : ∀ p,
  adds getWithPrevious (defaultTypeLoop gfi order (Some p)).
Proof.
  induction order as [|o rest IH]; intros p; [apply adds_ret|].
  cbn [defaultTypeLoop]. apply adds_bind.
  - apply adds_withSource. intros src st. cbv beta.
    destruct (Get src (keyFor gfi o) (Some p) (world st)) as [r w].
    exists [CallGet o (keyFor gfi o) (Some p)]. split; [reflexivity|].
    by constructor.
  - intros val. destruct (coerceScalar _ _ _ _); [|apply adds_fail].
    apply adds_bind; [apply adds_setField|intros _; apply IH].
Qed.

(** X11. How [previous] is used, for an order of any length. In scalar
    population only the first source is asked with nil: every [Get] after
    the first is given a value. In array population every call is a
    [GetArray] with nil. *)
Theorem previous_argument (gfi : Gofiguritem) :
  (∀ o rest st,
     ∃ l, calls (populateDefaultType gfi (o :: rest) st).2 = calls st ++ l
          ∧ (l = []
             ∨ ∃ l', l = CallGet o (keyFor gfi o) None :: l'
                     ∧ Forall getWithPrevious l'))
  ∧ (∀ order st,
       ∃ l, calls (populateSliceType gfi order st).2 = calls st ++ l
            ∧ Forall getArrayWithNil l).
Proof.
  split.
  - intros o rest st. unfold populateDefaultType.
    rewrite bind_run, defaultTypeLoop_cons.
    unfold callGet at 1, withSource.
    destruct (Sources !! o) as [src|]; [|exists []; by rewrite app_nil_r; auto].
    destruct (Get src (keyFor gfi o) None (world st)) as [[val|e] w]; cbv beta iota.
    2:{ exists [CallGet o (keyFor gfi o) None]. split; [reflexivity|].
        right. by exists []. }
    destruct (coerceScalar _ _ _ _) as [v|e].
    2:{ exists [CallGet o (keyFor gfi o) None]. split; [reflexivity|].
        right. by exists []. }
    set (st1 := logCall _ w st).
    destruct (adds_setField getWithPrevious gfi v st1) as (l1 & Hl1 & HP1).
    destruct (setField gfi v st1) as [[[]|e|] st2]; simpl in Hl1.
    + destruct (adds_defaultTypeLoop_previous gfi rest
                  (valAfter (rkind (Type_ (goField gfi))) val) st2)
        as (l2 & Hl2 & HP2).
      destruct (defaultTypeLoop gfi rest _ st2) as [[p|e|] st3]; simpl in *;
        (exists (CallGet o (keyFor gfi o) None :: l1 ++ l2);
         split; [rewrite Hl2, Hl1; unfold st1; simpl;
                 by rewrite <- !app_assoc|];
         right; eexists; split; [reflexivity|by apply Forall_app]).
    + exists (CallGet o (keyFor gfi o) None :: l1).
      split; [simpl; rewrite Hl1; unfold st1; simpl; by rewrite <- !app_assoc|].
      right. by eexists.
    + exists (CallGet o (keyFor gfi o) None :: l1).
      split; [simpl; rewrite Hl1; unfold st1; simpl; by rewrite <- !app_assoc|].
      right. by eexists.
  - intros order. apply adds_forEach. intros o.
    apply adds_bind.
    + apply adds_withSource. intros src st. cbv beta.
      destruct (GetArray src (keyFor gfi o) None (world st)) as [r w].
      exists [CallGetArray o (keyFor gfi o) None]. split; [reflexivity|].
      by constructor.
    + intros val. destruct (rkind _); try apply adds_ret.
      destruct (elemConv _ _) as [conv|]; [|apply adds_ret].
      apply adds_forEach. intros x.
      destruct (conv x); [apply adds_appendField|apply adds_fail].
Qed.

(** ** Keys that stand for no parameter *)

Lemma plusLoop_fails p k s : ∀ n pos c,
  (∀ pos' s' c', k pos' s' c' = None ∨ ∃ a r, s' = String a r ∧ isUpper a = true) →
  strForallb (fun a => negb (isUpper a)) s = true →
  Regexp.plusLoop (Regexp.matchRe (Regexp.Class p)) k n pos s c = None.
Proof.
  induction s as [|a s IH]; intros n pos c Hk Hs; rewrite plusLoop_class; [done|].
  simpl in Hs. apply andb_true_iff in Hs as [Ha Hs].
  assert (Hnone : k (S pos) s c = None).
  { destruct (Hk (S pos) s c) as [?|(b & r & -> & Hb)]; [done|].
    simpl in Hs. rewrite Hb in Hs. done. }
  destruct (p a); [|done]. destruct n as [|n]; [done|].
  by rewrite IH.
Qed.

Lemma findFrom_argRe_no_upper s : ∀ pos,
  strForallb (fun a => negb (isUpper a)) s = true →
  Regexp.findFrom argRe pos s = None.
Proof.
  induction s as [|a s IH]; intros pos Hs; rewrite findFrom_unfold.
  - reflexivity.
  - assert (Hm : Regexp.matchRe argRe pos (String a s) ∅
                   (fun pos' _ c => Some (<[O := (pos, pos')]> c)) = None).
    { cbn [argRe Regexp.matchRe].
      fold (Regexp.matchRe (Regexp.Class isLower)).
      apply plusLoop_fails; [|done].
      intros pos' s' c'. destruct s' as [|b r]; [by left|].
      destruct (isUpper b) eqn:Hb; [right; eauto|by left]. }
    rewrite Hm. apply IH. simpl in Hs. by apply andb_true_iff in Hs as [_ ?].
Qed.

Lemma directiveLoop_params_same visit : ∀ gfg gfg' e,
  (∀ name value, (name, value) ∈ visit → name ≠ "order" → paramOf name = None) →
  directiveLoop gfg visit = (gfg', e) → params gfg' = params gfg.
Proof.
  induction visit as [|[name value] rest IH]; intros gfg gfg' e Hnone Hrun.
  - simpl in Hrun. by injection Hrun as <- _.
  - assert (Hrest : ∀ n v, (n, v) ∈ rest → n ≠ "order" → paramOf n = None).
    { intros n v Hin. apply (Hnone n v), elem_of_cons. by right. }
    rewrite directiveLoop_cons in Hrun. case_decide as Hname.
    + destruct (forallb _ _); [|by injection Hrun as <- _].
      by rewrite (IH _ _ _ Hrest Hrun).
    + rewrite (Hnone name value) in Hrun; [|apply elem_of_cons; by left|done].
      by apply (IH _ _ _ Hrest Hrun).
Qed.

(** X12. A key without an uppercase ASCII letter stands for no parameter:
    [argRe] has no match in it. A directive field whose keys, [order]
    apart, are all of that kind leaves the parameters of the plan as they
    were, so every source is initialised with the empty map. *)
Theorem lowercase_keys_set_no_parameter (t : list StructField)
  (gfg gfg' : Gofiguration) (e : option error) :
  (∀ name, strForallb (fun a => negb (isUpper a)) name = true →
           paramOf name = None)
  ∧ ((∀ tags, ranges tags (rangeTags tags)) →
     (∀ gf name, FieldByName t "gofigure" = Some gf →
                 is_Some (getStructTags Unquote (Tag gf) !! name) →
                 name ≠ "order" →
                 strForallb (fun a => negb (isUpper a)) name = true) →
     parseGofigureField gfg t = (gfg', e) →
     params gfg' = params gfg).
Proof.
  assert (Hparam : ∀ name, strForallb (fun a => negb (isUpper a)) name = true →
                           paramOf name = None).
  { intros name Hname. unfold paramOf, Regexp.FindStringSubmatch.
    by rewrite findFrom_argRe_no_upper. }
  split; [exact Hparam|].
  intros Hrange Hkeys. unfold parseGofigureField.
  destruct (FieldByName t "gofigure") as [gf|] eqn:Hgf; [|by intros [= <- _]].
  apply directiveLoop_params_same. intros name value Hin Hname.
  apply Hparam, (Hkeys gf); [done| |done].
  specialize (Hrange (getStructTags Unquote (Tag gf))). unfold ranges in Hrange.
  rewrite Hrange in Hin. apply elem_of_map_to_list in Hin. eauto.
Qed.

(** ** The set-up phase *)

Lemma callInit_run o args src st err w :
  Sources !! o = Some src →
  Init src args (world st) = (err, w) →
  callInit o args st
  = (match err with None => Done tt | Some e => Failed e end,
     logCall (CallInit o args) w st).
Proof. intros Hsrc Hinit. unfold callInit, withSource. by rewrite Hsrc, Hinit. Qed.

(** X13. [initSources] stops at the first [Init] that fails. The sources
    in front of it have been initialised, each with its parameters or with
    the empty map when the directive field gave it none; the error is
    returned as it is, and [Init] is not called on the sources that
    follow. *)
Theorem initSources_stops_at_error (gfg : Gofiguration)
  (pre post : list string) (o : string) (src : Source World) (e : error)
  (st st1 : state F World) (w : World) :
  order gfg = pre ++ o :: post →
  forEach pre (fun o => callInit o (default ∅ (params gfg !! o))) st
  = (Done tt, st1) →
  Sources !! o = Some src →
  Init src (default ∅ (params gfg !! o)) (world st1) = (Some e, w) →
  initSources gfg st
  = (Failed e, logCall (CallInit o (default ∅ (params gfg !! o))) w st1).
Proof.
  intros Horder Hpre Hsrc Hinit. unfold initSources.
  rewrite Horder, forEach_app, Hpre, forEach_cons.
  by rewrite (callInit_run _ _ _ _ _ _ Hsrc Hinit).
Qed.

Lemma register_one_field gfi (l : list string) : ∀ st,
  Forall (fun o => is_Some (Sources !! o)) l →
  (∀ o src key def tags t w, Sources !! o = Some src →
                             (Register src key def tags t w).1 = None) →
  ∃ w', forEach l (fun o => callRegister o (keyFor gfi o) EmptyString
                              (keys gfi) (Type_ (goField gfi))) st
        = (Done tt,
           {| world := w';
              calls := calls st
                       ++ ((fun o => CallRegister o (keyFor gfi o) EmptyString
                                       (keys gfi) (Type_ (goField gfi))) <$> l);
              record := record st |}).
Proof.
  induction l as [|o l IH]; intros st Hreg Hok.
  - exists (world st). simpl. rewrite app_nil_r. by destruct st.
  - apply Forall_cons in Hreg as [[src Hsrc] Hreg].
    rewrite forEach_cons. unfold callRegister at 1, withSource. rewrite Hsrc.
    pose proof (Hok o src (keyFor gfi o) EmptyString (keys gfi)
                  (Type_ (goField gfi)) (world st) Hsrc) as Hnone.
    destruct (Register src _ _ _ _ (world st)) as [err w]. simpl in Hnone.
    subst err.
    destruct (IH (logCall (CallRegister o (keyFor gfi o) EmptyString (keys gfi)
                             (Type_ (goField gfi))) w st) Hreg Hok) as [w' Hw'].
    exists w'. rewrite Hw'. simpl. by rewrite <- app_assoc.
Qed.

(** X14. With sources whose [Register] does not fail, [registerFields]
    makes exactly one [Register] call for every pair of a field of the plan
    and a position of the order: field after field as the plan is visited
    and, within a field, source after source in order, each call with the
    key of that source for the field, the empty default, the directives of
    the field and its type. The record is not touched. *)
Theorem registerFields_once_per_pair (gfg : Gofiguration) (st : state F World) :
  Forall (fun o => is_Some (Sources !! o)) (order gfg) →
  (∀ o src key def tags t w, Sources !! o = Some src →
                             (Register src key def tags t w).1 = None) →
  ∃ w', registerFields gfg st
        = (Done tt,
           {| world := w';
              calls := calls st
                       ++ ((rangeFields 0 (fields gfg)).*2
                             ≫= registerCalls gfg);
              record := record st |}).
Proof.
  intros Hreg Hok. unfold registerFields.
  generalize ((rangeFields 0 (fields gfg)).*2). intros visit. revert st.
  induction visit as [|gfi visit IH]; intros st.
  - exists (world st). simpl. rewrite app_nil_r. by destruct st.
  - rewrite forEach_cons.
    destruct (register_one_field gfi (order gfg) st Hreg Hok) as [w1 Hw1].
    rewrite Hw1. destruct (IH {| world := w1;
                                 calls := calls st ++ registerCalls gfg gfi;
                                 record := record st |}) as [w' Hw'].
    exists w'. unfold registerCalls in *. rewrite Hw'. simpl.
    by rewrite <- app_assoc.
Qed.

(** X15. The keys of the parsed directives are names: whatever the tag,
    no key that [getStructTags] returns holds a space, a colon or a
    double quote. *)
Theorem getStructTags_keys_are_names (tag k : string) :
  is_Some (getStructTags Unquote tag !! k) → strForall nameChar k.
Proof.
  destruct (tag_decomposes tag) as (ds & rest & -> & Hds & Hstop).
  rewrite getStructTags_directives, directiveMap_lookup by done.
  intros [v Hv]. apply fmap_Some in Hv as (d & Hlast & _).
  apply last_Some_elem_of in Hlast.
  apply list_elem_of_filter in Hlast as [<- Hin].
  rewrite Forall_forall in Hds. by destruct (Hds d Hin).
Qed.

(** ** A whole run *)

Lemma callRegister_run o key def tags t src st err w :
  Sources !! o = Some src →
  Register src key def tags t (world st) = (err, w) →
  callRegister o key def tags t st
  = (match err with None => Done tt | Some e => Failed e end,
     logCall (CallRegister o key def tags t) w st).
Proof.
  intros Hsrc Hreg. unfold callRegister, withSource. by rewrite Hsrc, Hreg.
Qed.

Lemma callCleanup_run o src st :
  Sources !! o = Some src →
  callCleanup o st
  = (Done tt, logCall (CallCleanup o) (Cleanup src (world st)) st).
Proof. intros Hsrc. unfold callCleanup, withSource. by rewrite Hsrc. Qed.

Lemma ranges_singleton {V} (rng : gmap string V → list (string * V)) k (v : V) :
  ranges {[k := v]} (rng {[k := v]}) → rng {[k := v]} = [(k, v)].
Proof.
  unfold ranges. rewrite map_to_list_singleton.
  apply Permutation_singleton_r.
Qed.

Lemma coerceScalar_scalar_kind k val v gfg gfi :
  rkind (Type_ (goField gfi)) = k →
  coerceScalar target F ParseFloat k val = Ok v →
  populateField gfg gfi = populateDefaultType gfi (order gfg).
Proof.
  intros Hk Hv. unfold populateField. rewrite Hk.
  by destruct k.
Qed.

(** X16. The life cycle of a resolution, for a record with one exported
    scalar field and no directive field, of its own or promoted, two
    sources [env] and [flag] that answer without error and two values that
    parse. [Gofigure] calls, in this order: [Init] on [env] and on [flag],
    each with the empty map; [Register] on [env] and on [flag] for the
    field; [Get] on [env] with nil and then on [flag] with what the
    variable [val] holds at the end of the turn of [env]; [Cleanup] on
    [env] and on [flag]. It returns nil and the field holds the coercion of
    the value of [flag]. What [flag] is given is the value [env] returned,
    with one exception: when the field is boolean and [env] returned the
    empty string, it is the text [false]. *)
Theorem one_field_life_cycle (fld : StructField) (senv sflag : Source World)
  (st : state F World) (w1 w2 w3 w4 w5 w6 : World) (va vb : string)
  (xa xb : value F) :
  FieldByName [fld] "gofigure" = None →
  PkgPath fld = EmptyString →
  (∀ site m, ranges m (rangeFields site m)) →
  Sources !! "env" = Some senv →
  Sources !! "flag" = Some sflag →
  Init senv ∅ (world st) = (None, w1) →
  Init sflag ∅ w1 = (None, w2) →
  Register senv (keyFor (itemOf fld 0) "env") EmptyString
    (keys (itemOf fld 0)) (Type_ fld) w2 = (None, w3) →
  Register sflag (keyFor (itemOf fld 0) "flag") EmptyString
    (keys (itemOf fld 0)) (Type_ fld) w3 = (None, w4) →
  Get senv (keyFor (itemOf fld 0) "env") None w4 = (Ok va, w5) →
  coerceScalar target F ParseFloat (rkind (Type_ fld)) va = Ok xa →
  Get sflag (keyFor (itemOf fld 0) "flag")
    (Some (valAfter (rkind (Type_ fld)) va)) w5 = (Ok vb, w6) →
  coerceScalar target F ParseFloat (rkind (Type_ fld)) vb = Ok xb →
  Gofigure [fld] st
  = (Done tt,
     {| world := Cleanup sflag (Cleanup senv w6);
        calls := calls st ++
          [CallInit "env" ∅; CallInit "flag" ∅;
           CallRegister "env" (keyFor (itemOf fld 0) "env") EmptyString
             (keys (itemOf fld 0)) (Type_ fld);
           CallRegister "flag" (keyFor (itemOf fld 0) "flag") EmptyString
             (keys (itemOf fld 0)) (Type_ fld);
           CallGet "env" (keyFor (itemOf fld 0) "env") None;
           CallGet "flag" (keyFor (itemOf fld 0) "flag")
             (Some (valAfter (rkind (Type_ fld)) va));
           CallCleanup "env"; CallCleanup "flag"];
        record := <[0%nat := xb]> (<[0%nat := xa]> (record st)) |})
  ∧ (rkind (Type_ fld) ≠ Bool ∨ va ≠ EmptyString →
     valAfter (rkind (Type_ fld)) va = va)
  ∧ (rkind (Type_ fld) = Bool → va = EmptyString →
     valAfter (rkind (Type_ fld)) va = "false").
Proof.
  intros Hnone Hexp Hrange Henv Hflag Hi1 Hi2 Hr1 Hr2 Hg1 Hx1 Hg2 Hx2.
  split; [|split; [apply valAfter_same|by intros -> ->]].
  assert (Hname : Name fld ≠ "gofigure").
  { intros Heq. unfold FieldByName in Hnone. cbn [find] in Hnone.
    by rewrite bool_decide_eq_true_2 in Hnone. }
  set (gfi := itemOf fld 0) in *.
  set (gfg := {| order := DefaultOrder; params := ∅;
                 fields := {[ Name fld := gfi ]} |}).
  assert (Hparse : ParseStruct [fld] = Ok gfg).
  { unfold ParseStruct, parseGofigureField. rewrite Hnone.
    unfold parseFields. cbn [fields order params].
    rewrite fieldLoop_cons, decide_False by done. reflexivity. }
  unfold Gofigure. rewrite Hparse.
  assert (Hvisit : ∀ site, (rangeFields site (fields gfg)).*2 = [gfi]).
  { intros site. cbn [fields gfg].
    by rewrite (ranges_singleton (rangeFields site) _ _ (Hrange site _)). }
  assert (Hinit : initSources gfg st
                  = (Done tt, logCall (CallInit "flag" ∅) w2
                                (logCall (CallInit "env" ∅) w1 st))).
  { unfold initSources. cbn [order gfg params]. unfold DefaultOrder.
    rewrite forEach_cons, lookup_empty. cbn [default].
    rewrite (callInit_run _ _ _ _ _ _ Henv Hi1).
    rewrite forEach_cons, lookup_empty. cbn [default].
    by erewrite callInit_run; [|exact Hflag|exact Hi2]. }
  assert (Hregister : ∀ st0, world st0 = w2 →
            registerFields gfg st0
            = (Done tt,
               logCall (CallRegister "flag" (keyFor gfi "flag") EmptyString
                          (keys gfi) (Type_ fld)) w4
                 (logCall (CallRegister "env" (keyFor gfi "env") EmptyString
                             (keys gfi) (Type_ fld)) w3 st0))).
  { intros st0 Hw. unfold registerFields. rewrite Hvisit.
    rewrite forEach_cons. cbn [order gfg]. unfold DefaultOrder.
    rewrite forEach_cons.
    erewrite callRegister_run; [|exact Henv|rewrite Hw; exact Hr1].
    rewrite forEach_cons.
    by erewrite callRegister_run; [|exact Hflag|exact Hr2]. }
  assert (Hpopulate : ∀ st0, world st0 = w4 →
            populateStruct gfg st0
            = (Done tt,
               {| world := w6;
                  calls := calls st0 ++
                    [CallGet "env" (keyFor gfi "env") None;
                     CallGet "flag" (keyFor gfi "flag")
                       (Some (valAfter (rkind (Type_ fld)) va))];
                  record := <[0%nat := xb]> (<[0%nat := xa]> (record st0)) |})).
  { intros st0 Hw. unfold populateStruct. rewrite Hvisit, forEach_cons.
    rewrite (coerceScalar_scalar_kind _ va xa gfg gfi eq_refl Hx1).
    cbn [order gfg]. unfold DefaultOrder.
    rewrite (scalar_two_sources gfi "env" "flag" senv sflag st0 va vb w5 w6
               xa xb Henv Hflag Hexp); try done.
    by rewrite Hw. }
  assert (Hbody : applyBody gfg st
                  = (Done tt,
                     {| world := w6;
                        calls := calls st ++
                          [CallInit "env" ∅; CallInit "flag" ∅;
                           CallRegister "env" (keyFor gfi "env") EmptyString
                             (keys gfi) (Type_ fld);
                           CallRegister "flag" (keyFor gfi "flag") EmptyString
                             (keys gfi) (Type_ fld);
                           CallGet "env" (keyFor gfi "env") None;
                           CallGet "flag" (keyFor gfi "flag")
                             (Some (valAfter (rkind (Type_ fld)) va))];
                        record := <[0%nat := xb]> (<[0%nat := xa]> (record st)) |})).
  { unfold applyBody. rewrite bind_run, Hinit, bind_run.
    rewrite Hregister by reflexivity. rewrite Hpopulate by reflexivity.
    simpl. by rewrite <- ?app_assoc. }
  assert (Hdefer : Apply gfg st = defer (cleanupSources gfg) (applyBody gfg) st)
    by reflexivity.
  rewrite Hdefer. unfold defer. rewrite Hbody.
  unfold cleanupSources. cbn [order gfg]. unfold DefaultOrder.
  rewrite forEach_cons, (callCleanup_run _ _ _ Henv).
  rewrite forEach_cons, (callCleanup_run _ _ _ Hflag).
  unfold logCall. simpl. by rewrite <- !app_assoc.
Qed.

Lemma writesOnly_setField_unexported I gfi v :
  PkgPath (goField gfi) ≠ EmptyString → writesOnly I (setField gfi v).
Proof. intros Hpkg st. unfold setField. by case_decide. Qed.

Lemma writesOnly_populateField_unexported gfg gfi :
  PkgPath (goField gfi) ≠ EmptyString →
  writesOnly (fun _ => False) (populateField gfg gfi).
Proof.
  intros Hpkg.
  assert (Hloop : ∀ os prev,
            writesOnly (fun _ => False) (defaultTypeLoop gfi os prev)).
  { induction os as [|o rest IH]; intros prev; [apply writesOnly_ret|].
    cbn [defaultTypeLoop]. apply writesOnly_bind; [apply writesOnly_callGet|].
    intros val. destruct (coerceScalar _ _ _ _); [|apply writesOnly_fail].
    apply writesOnly_bind; [by apply writesOnly_setField_unexported|].
    intros _; apply IH. }
  unfold populateField.
  destruct (rkind _); try apply writesOnly_fail;
    try (apply writesOnly_bind;
         [apply Hloop|intros _; apply writesOnly_ret]).
  apply writesOnly_forEach. intros o _.
  apply writesOnly_bind; [apply writesOnly_callGetArray|]. intros val.
  destruct (rkind _); try apply writesOnly_ret.
  destruct (elemConv _ _) as [conv|]; [|apply writesOnly_ret].
  apply writesOnly_forEach. intros x _.
  destruct (conv x) as [v|]; [|apply writesOnly_fail].
  intros st. unfold appendField.
  destruct (predeclared _); [|done].
  destruct (record st !! goValue gfi) as [[]|]; try done.
  by apply writesOnly_setField_unexported.
Qed.

(** X17. A field that is not exported is never written to: whatever the
    sources return and however population of the field ends, the record
    is left as it was. The field is not skipped either: with a scalar
    kind, as soon as a source returns a value that converts, population
    panics, right after that [Get] and before any other source is asked;
    with a slice kind it panics at the first element that converts. *)
Theorem unexported_field_never_written (gfg : Gofiguration)
  (gfi : Gofiguritem) (st : state F World) (o : string) (rest : list string)
  (src : Source World) (w : World) :
  PkgPath (goField gfi) ≠ EmptyString →
  record (populateField gfg gfi st).2 = record st
  ∧ (∀ val v,
       Sources !! o = Some src →
       Get src (keyFor gfi o) None (world st) = (Ok val, w) →
       coerceScalar target F ParseFloat (rkind (Type_ (goField gfi))) val = Ok v →
       populateDefaultType gfi (o :: rest) st
       = (Panicked, logCall (CallGet o (keyFor gfi o) None) w st))
  ∧ (∀ ek conv s more v l,
       Sources !! o = Some src →
       Type_ (goField gfi) = TSlice ek →
       elemConv target F (rkind ek) = Some conv →
       GetArray src (keyFor gfi o) None (world st) = (Ok (s :: more), w) →
       conv s = Ok v →
       record st !! goValue gfi = Some (VSlice l) →
       populateSliceType gfi (o :: rest) st
       = (Panicked, logCall (CallGetArray o (keyFor gfi o) None) w st)).
Proof.
  intros Hpkg. split_and!.
  - destruct (writesOnly_populateField_unexported gfg gfi Hpkg st)
      as [Hlen Hkeep].
    apply list_eq. intros i. apply Hkeep. tauto.
  - intros val v Hsrc Hget Hconv.
    unfold populateDefaultType. rewrite bind_run. cbn [defaultTypeLoop].
    rewrite bind_run. unfold callGet, withSource. rewrite Hsrc, Hget.
    rewrite Hconv. rewrite bind_run. unfold setField.
    by rewrite decide_False.
  - intros ek conv s more v l Hsrc Hty Hconv Hget Hs Hl.
    unfold populateSliceType. rewrite forEach_cons, bind_run.
    unfold callGetArray, withSource. rewrite Hsrc, Hget, Hty. cbn [rkind relem].
    rewrite Hconv, forEach_cons, Hs.
    unfold appendField, logCall. cbn [record Type_]. rewrite Hty. cbn [relem].
    destruct (predeclared ek); [|reflexivity]. rewrite Hl.
    unfold setField. by rewrite decide_False.
Qed.

(** X19. The two switches agree. Whatever the target, the conversion that
    an arm of the element switch of [populateSliceType] applies to an
    element is the coercion that the arm of the same kind in
    [populateDefaultType] applies to a scalar value: the same parse
    function, the same bit size, the same treatment of the empty string,
    the same narrowing to the kind. The element switch has no arm for the
    boolean and the floating-point kinds. *)
Theorem element_conversion_is_scalar_coercion (k : Kind)
  (conv : string → result (value F)) (s : string) :
  elemConv target F k = Some conv →
  conv s = coerceScalar target F ParseFloat k s
  ∧ k ∈ [String_; Int; Int8; Int16; Int32; Int64;
         Uint; Uint8; Uint16; Uint32; Uint64].
Proof.
  intros Hconv. destruct k; try discriminate; injection Hconv as <-;
    (split; [reflexivity|repeat constructor]).
Qed.

End Engine.

(** * The engine on the sample instances *)

(** C1. A boolean field, the order [env, flag], and a source [env] whose
    [Get] returns the empty string: the [reflect.Bool] case overwrites the
    variable that [prevVal] points to, and [Get] of [flag] is given
    "false" for [previous], not the empty string that [env] returned. *)
Lemma bool_empty_value_passed_as_false :
  Get (tableSource ∅ ∅) "Debug" None O = (Ok EmptyString, 1%nat)
  ∧ populateDefaultType Arch64 Z sampleParseFloat nat
      (sampleSources (tableSource ∅ ∅) (tableSource ∅ ∅))
      (sampleItem "Debug" (TKind Bool) 0) ["env"; "flag"]
      (sampleState [VBool true])
    = (Done tt,
       {| world := 2%nat;
          calls := [CallGet "env" "Debug" None;
                    CallGet "flag" "Debug" (Some "false")];
          record := [VBool false] |}).
Proof. split; vm_compute; reflexivity. Qed.

(** For the other kinds, and for a boolean field whose first value is not
    empty, the second source is given the value of the first, as in this
    run on an integer field. *)
Lemma scalar_two_sources_run :
  populateDefaultType Arch64 Z sampleParseFloat nat
    (sampleSources (tableSource {[ "Port" := "80" ]} ∅) (tableSource ∅ ∅))
    (sampleItem "Port" (TKind Int) 0) ["env"; "flag"]
    (sampleState [VInt 1])
  = (Done tt,
     {| world := 2%nat;
        calls := [CallGet "env" "Port" None; CallGet "flag" "Port" (Some "80")];
        record := [VInt 80] |}).
Proof.
  apply (scalar_two_sources Arch64 Z sampleParseFloat nat
           (sampleSources (tableSource {[ "Port" := "80" ]} ∅) (tableSource ∅ ∅))
           (sampleItem "Port" (TKind Int) 0) "env" "flag"
           (tableSource {[ "Port" := "80" ]} ∅) (tableSource ∅ ∅)
           (sampleState [VInt 1]) "80" "80" 1%nat 2%nat (VInt 80) (VInt 80));
    vm_compute; reflexivity.
Qed.

(** C2 fails as stated: the first source gives "x" for an integer field,
    the second would give "5", which parses; population ends with the
    parse error of "x" and the second source is never asked. *)
Lemma scalar_malformed_earlier_value_aborts :
  coerceScalar Arch64 Z sampleParseFloat Int "5" = Ok (VInt 5)
  ∧ Get (tableSource {[ "Port" := "5" ]} ∅) "Port" (Some "x") 1%nat
    = (Ok "5", 2%nat)
  ∧ populateDefaultType Arch64 Z sampleParseFloat nat
      (sampleSources (tableSource {[ "Port" := "x" ]} ∅)
                     (tableSource {[ "Port" := "5" ]} ∅))
      (sampleItem "Port" (TKind Int) 0) ["env"; "flag"]
      (sampleState [VInt 80])
    = (Failed (NumError "ParseInt" "x" ErrSyntax),
       {| world := 1%nat; calls := [CallGet "env" "Port" None];
          record := [VInt 80] |}).
Proof. repeat split; vm_compute; reflexivity. Qed.

Lemma scalar_coercion_every_source_witness :
  populateDefaultType Arch64 Z sampleParseFloat nat
    (sampleSources (tableSource {[ "Port" := "x" ]} ∅)
                   (tableSource {[ "Port" := "5" ]} ∅))
    (sampleItem "Port" (TKind Int) 0) ([] ++ "env" :: ["flag"])
    (sampleState [VInt 80])
  = (Failed (NumError "ParseInt" "x" ErrSyntax),
     logCall Z nat (CallGet "env" "Port" None) 1%nat (sampleState [VInt 80]))
  ∧ populateDefaultType Arch64 Z sampleParseFloat nat
      (sampleSources (tableSource {[ "Port" := "x" ]} ∅)
                     (tableSource {[ "Port" := "5" ]} ∅))
      (sampleItem "Port" (TKind Int) 0) ([] ++ ["flag"])
      (sampleState [VInt 80])
    = (Done tt,
       {| world := 1%nat; calls := [] ++ [CallGet "flag" "Port" None];
          record := <[0%nat := VInt 5]> [VInt 80] |}).
Proof.
  split.
  - apply (proj1 (scalar_coercion_every_source Arch64 Z sampleParseFloat nat
                    (sampleSources (tableSource {[ "Port" := "x" ]} ∅)
                                   (tableSource {[ "Port" := "5" ]} ∅))
                    (sampleItem "Port" (TKind Int) 0) [] ["flag"] "env"
                    (tableSource {[ "Port" := "x" ]} ∅)
                    (sampleState [VInt 80]) (sampleState [VInt 80]) None "x" 1%nat
                    ltac:(vm_compute; reflexivity) ltac:(vm_compute; reflexivity)
                    ltac:(vm_compute; reflexivity))).
    vm_compute; reflexivity.
  - apply (proj2 (scalar_coercion_every_source Arch64 Z sampleParseFloat nat
                    (sampleSources (tableSource {[ "Port" := "x" ]} ∅)
                                   (tableSource {[ "Port" := "5" ]} ∅))
                    (sampleItem "Port" (TKind Int) 0) [] [] "flag"
                    (tableSource {[ "Port" := "5" ]} ∅)
                    (sampleState [VInt 80]) (sampleState [VInt 80]) None "5" 1%nat
                    ltac:(vm_compute; reflexivity) ltac:(vm_compute; reflexivity)
                    ltac:(vm_compute; reflexivity)));
      vm_compute; reflexivity.
Defined.

(** C3 fails as stated: the field holds one element before population
    and ends up with that element in front of those of the two sources. *)
Lemma slice_keeps_initial_elements :
  populateSliceType Arch64 Z nat
    (sampleSources (tableSource ∅ {[ "Tags" := ["1"] ]})
                   (tableSource ∅ {[ "Tags" := ["2"] ]}))
    (sampleItem "Tags" (TSlice (TKind String_)) 0) ["env"; "flag"]
    (sampleState [VSlice [VString "x"]])
  = (Done tt,
     {| world := 2%nat;
        calls := [CallGetArray "env" "Tags" None; CallGetArray "flag" "Tags" None];
        record := [VSlice [VString "x"; VString "1"; VString "2"]] |})
  ∧ VSlice [VString "x"; VString "1"; VString "2"]
    ≠ @VSlice Z ([VString "1"] ++ [VString "2"]).
Proof. split; [vm_compute; reflexivity|discriminate]. Qed.

Lemma slice_two_sources_witness :
  populateSliceType Arch64 Z nat
    (sampleSources (tableSource ∅ {[ "Tags" := ["1"; "1"] ]})
                   (tableSource ∅ {[ "Tags" := ["2"] ]}))
    (sampleItem "Tags" (TSlice (TKind Int8)) 0) ["env"; "flag"]
    (sampleState [VSlice [VInt 7]])
  = (Done tt,
     {| world := 2%nat;
        calls := [] ++ [CallGetArray "env" "Tags" None;
                        CallGetArray "flag" "Tags" None];
        record := <[0%nat := VSlice ([VInt 7] ++ [VInt 1; VInt 1] ++ [VInt 2])]>
                    [VSlice [VInt 7]] |}).
Proof.
  refine (slice_two_sources Arch64 Z nat
            (sampleSources (tableSource ∅ {[ "Tags" := ["1"; "1"] ]})
                           (tableSource ∅ {[ "Tags" := ["2"] ]}))
            (sampleItem "Tags" (TSlice (TKind Int8)) 0) Int8 _
            "env" "flag"
            (tableSource ∅ {[ "Tags" := ["1"; "1"] ]})
            (tableSource ∅ {[ "Tags" := ["2"] ]})
            (sampleState [VSlice [VInt 7]]) ["1"; "1"] ["2"] 1%nat 2%nat
            [VInt 7] [VInt 1; VInt 1] [VInt 2]
            eq_refl eq_refl eq_refl eq_refl _ _ _ _ _ _ _);
    vm_compute; reflexivity.
Defined.

(** A sequence of a defined type, here [[]time.Duration]: the first
    element that converts makes [reflect.Append] panic, and the field is
    left as it was. *)
Lemma duration_slice_panics :
  populateSliceType Arch64 Z nat
    (sampleSources (tableSource ∅ {[ "Waits" := ["5"; "7"] ]})
                   (tableSource ∅ ∅))
    (sampleItem "Waits" (TSlice (TNamed "Duration" (TKind Int64))) 0)
    ["env"; "flag"] (sampleState [VSlice []])
  = (Panicked,
     {| world := 1%nat; calls := [CallGetArray "env" "Waits" None];
        record := [VSlice []] |}).
Proof. vm_compute. reflexivity. Qed.

(** C4 fails as stated: a record whose only field is a sequence of
    floating-point numbers is resolved without an error; the source is
    asked, returns one element, and the field stays empty. *)
Lemma float_slice_silently_ignored :
  GetArray (tableSource ∅ {[ "Rates" := ["1.5"] ]}) "Rates" None 4%nat
  = (Ok ["1.5"], 5%nat)
  ∧ Gofigure Arch64 Z sampleParseFloat sampleUnquote nat
      (sampleSources (tableSource ∅ {[ "Rates" := ["1.5"] ]}) (tableSource ∅ ∅))
      sampleRangeTags sampleRangeFields noPromoted
      [exportedField "Rates" (TSlice (TKind Float64)) EmptyString]
      (sampleState [VSlice []])
    = (Done tt,
       {| world := 8%nat;
          calls := [CallInit "env" ∅; CallInit "flag" ∅;
                    CallRegister "env" "Rates" EmptyString ∅ (TSlice (TKind Float64));
                    CallRegister "flag" "Rates" EmptyString ∅ (TSlice (TKind Float64));
                    CallGetArray "env" "Rates" None;
                    CallGetArray "flag" "Rates" None;
                    CallCleanup "env"; CallCleanup "flag"];
          record := [VSlice []] |}).
Proof. split; vm_compute; reflexivity. Qed.

Lemma unsupported_field_types_witness :
  populateField Arch64 Z sampleParseFloat nat
    (sampleSources (tableSource ∅ ∅) (tableSource ∅ ∅))
    samplePlan (sampleItem "Nested" (TKind Struct) 0) (sampleState [VOpaque])
  = (Failed ErrUnsupportedFieldType, sampleState [VOpaque])
  ∧ populateField Arch64 Z sampleParseFloat nat
      (sampleSources (tableSource ∅ {[ "Rates" := ["1.5"] ]}) (tableSource ∅ ∅))
      samplePlan (sampleItem "Rates" (TSlice (TKind Float64)) 0)
      (sampleState [VSlice []])
    = (Done tt,
       {| world := getArrayWorld nat
                     (sampleSources (tableSource ∅ {[ "Rates" := ["1.5"] ]})
                                    (tableSource ∅ ∅))
                     (sampleItem "Rates" (TSlice (TKind Float64)) 0)
                     (order samplePlan) (world (sampleState [VSlice []]));
          calls := calls (sampleState [VSlice []])
                   ++ ((fun o => CallGetArray o
                                   (keyFor (sampleItem "Rates"
                                              (TSlice (TKind Float64)) 0) o)
                                   None) <$> order samplePlan);
          record := record (sampleState [VSlice []]) |}).
Proof.
  split.
  - refine (proj1 (proj1 (unsupported_field_types Arch64 Z sampleParseFloat nat
                            (sampleSources (tableSource ∅ ∅) (tableSource ∅ ∅))
                            sampleRangeFields samplePlan
                            (sampleItem "Nested" (TKind Struct) 0)) _)
                  (sampleState [VOpaque])).
    vm_compute. repeat constructor.
  - refine (proj2 (proj1 (proj2 (unsupported_field_types Arch64 Z
                            sampleParseFloat nat
                            (sampleSources (tableSource ∅ {[ "Rates" := ["1.5"] ]})
                                           (tableSource ∅ ∅))
                            sampleRangeFields samplePlan
                            (sampleItem "Rates" (TSlice (TKind Float64)) 0)))
                         eq_refl eq_refl)
                  _ _ (sampleState [VSlice []])).
    + vm_compute. repeat constructor; eauto.
    + intros o src Hsrc key w. unfold sampleSources in Hsrc.
      apply lookup_insert_Some in Hsrc as [[_ <-]|[_ Hsrc]]; [simpl; eauto|].
      apply lookup_singleton_Some in Hsrc as [_ <-]. simpl. eauto.
Defined.

Lemma ParseStruct_sampleRecord :
  ParseStruct sampleUnquote nat
    (sampleSources (tableSource ∅ ∅) (tableSource ∅ ∅)) sampleRangeTags noPromoted
    sampleRecord
  = Ok samplePlan.
Proof. vm_compute. reflexivity. Qed.

Lemma cleanup_always_runs_witness :
  Gofigure Arch64 Z sampleParseFloat sampleUnquote nat
    (sampleSources (tableSource ∅ ∅) (tableSource ∅ ∅))
    sampleRangeTags sampleRangeFields noPromoted sampleRecord
    (sampleState [VOpaque; VInt 1])
  = Apply Arch64 Z sampleParseFloat nat
      (sampleSources (tableSource ∅ ∅) (tableSource ∅ ∅))
      sampleRangeFields samplePlan (sampleState [VOpaque; VInt 1])
  ∧ (∃ body,
       calls (applyBody Arch64 Z sampleParseFloat nat
                (sampleSources (tableSource ∅ ∅) (tableSource ∅ ∅))
                sampleRangeFields samplePlan (sampleState [VOpaque; VInt 1])).2
       = calls (sampleState [VOpaque; VInt 1]) ++ body
       ∧ Forall notCleanup body)
  ∧ calls (Gofigure Arch64 Z sampleParseFloat sampleUnquote nat
             (sampleSources (tableSource ∅ ∅) (tableSource ∅ ∅))
             sampleRangeTags sampleRangeFields noPromoted sampleRecord
             (sampleState [VOpaque; VInt 1])).2
    = calls (applyBody Arch64 Z sampleParseFloat nat
               (sampleSources (tableSource ∅ ∅) (tableSource ∅ ∅))
               sampleRangeFields samplePlan (sampleState [VOpaque; VInt 1])).2
      ++ (CallCleanup <$> order samplePlan)
  ∧ (Gofigure Arch64 Z sampleParseFloat sampleUnquote nat
       (sampleSources (tableSource ∅ ∅) (tableSource ∅ ∅))
       sampleRangeTags sampleRangeFields noPromoted sampleRecord
       (sampleState [VOpaque; VInt 1])).1
    = (applyBody Arch64 Z sampleParseFloat nat
         (sampleSources (tableSource ∅ ∅) (tableSource ∅ ∅))
         sampleRangeFields samplePlan (sampleState [VOpaque; VInt 1])).1
  ∧ record (Gofigure Arch64 Z sampleParseFloat sampleUnquote nat
              (sampleSources (tableSource ∅ ∅) (tableSource ∅ ∅))
              sampleRangeTags sampleRangeFields noPromoted sampleRecord
              (sampleState [VOpaque; VInt 1])).2
    = record (applyBody Arch64 Z sampleParseFloat nat
                (sampleSources (tableSource ∅ ∅) (tableSource ∅ ∅))
                sampleRangeFields samplePlan (sampleState [VOpaque; VInt 1])).2
  ∧ world (Gofigure Arch64 Z sampleParseFloat sampleUnquote nat
             (sampleSources (tableSource ∅ ∅) (tableSource ∅ ∅))
             sampleRangeTags sampleRangeFields noPromoted sampleRecord
             (sampleState [VOpaque; VInt 1])).2
    = cleanupWorld nat (sampleSources (tableSource ∅ ∅) (tableSource ∅ ∅))
        (order samplePlan)
        (world (applyBody Arch64 Z sampleParseFloat nat
                  (sampleSources (tableSource ∅ ∅) (tableSource ∅ ∅))
                  sampleRangeFields samplePlan
                  (sampleState [VOpaque; VInt 1])).2).
Proof.
  refine (proj1 (proj2 (cleanup_always_runs Arch64 Z sampleParseFloat
                          sampleUnquote nat
                          (sampleSources (tableSource ∅ ∅) (tableSource ∅ ∅))
                          sampleRangeTags sampleRangeFields noPromoted))
                sampleRecord samplePlan (sampleState [VOpaque; VInt 1])
                _ _ ParseStruct_sampleRecord);
    vm_compute; eauto.
Defined.

(** The run of [Gofigure] that the statement above is about: the error
    of a source does not keep the two [Cleanup] calls from being made. The
    world of the sample sources counts the calls they have served: five by
    the body, and the two [Cleanup] calls. *)
Lemma cleanup_after_failed_get :
  Gofigure Arch64 Z sampleParseFloat sampleUnquote nat
    (sampleSources (tableSource {[ "PORT" := "http" ]} ∅) (tableSource ∅ ∅))
    sampleRangeTags sampleRangeFields noPromoted sampleRecord
    (sampleState [VOpaque; VInt 1])
  = (Failed (NumError "ParseInt" "http" ErrSyntax),
     {| world := 7%nat;
        calls := [CallInit "env" {[ "prefix" := "APP" ]}; CallInit "flag" ∅;
                  CallRegister "env" "PORT" EmptyString {[ "env" := "PORT" ]}
                    (TKind Int);
                  CallRegister "flag" "Port" EmptyString {[ "env" := "PORT" ]}
                    (TKind Int);
                  CallGet "env" "PORT" None;
                  CallCleanup "env"; CallCleanup "flag"];
        record := [VOpaque; VInt 1] |}).
Proof. vm_compute. reflexivity. Qed.

Lemma invalid_order_rejected_witness :
  ParseStruct sampleUnquote nat
    (sampleSources (tableSource ∅ ∅) (tableSource ∅ ∅)) sampleRangeTags noPromoted
    [sentinelField (kv "order" "flag,bogus");
     exportedField "Port" (TKind Int) EmptyString]
  = Err ErrInvalidOrder
  ∧ Gofigure Arch64 Z sampleParseFloat sampleUnquote nat
      (sampleSources (tableSource ∅ ∅) (tableSource ∅ ∅))
      sampleRangeTags sampleRangeFields noPromoted
      [sentinelField (kv "order" "flag,bogus");
       exportedField "Port" (TKind Int) EmptyString]
      (sampleState [VOpaque; VInt 1])
    = (Failed ErrInvalidOrder, sampleState [VOpaque; VInt 1]).
Proof.
  refine (invalid_order_rejected Arch64 Z sampleParseFloat sampleUnquote nat
            (sampleSources (tableSource ∅ ∅) (tableSource ∅ ∅))
            sampleRangeTags sampleRangeFields noPromoted
            [sentinelField (kv "order" "flag,bogus");
             exportedField "Port" (TKind Int) EmptyString]
            (sentinelField (kv "order" "flag,bogus"))
            "flag,bogus" "bogus" (sampleState [VOpaque; VInt 1]) _ _ _ _ _).
  - vm_compute. reflexivity.
  - unfold ranges, sampleRangeTags. reflexivity.
  - vm_compute. reflexivity.
  - vm_compute. repeat constructor.
  - vm_compute. reflexivity.
Defined.

Lemma getStructTags_lenient_witness :
  getStructTags sampleUnquote
    (renderDirectives
       [{| dSpaces := 0; dName := "env"; dBody := [Plain "P"%char] |};
        {| dSpaces := 2; dName := "flag"; dBody := [Plain "p"%char] |}]
     +:+ " desc")
  = directiveMap sampleUnquote
      [{| dSpaces := 0; dName := "env"; dBody := [Plain "P"%char] |};
       {| dSpaces := 2; dName := "flag"; dBody := [Plain "p"%char] |}].
Proof.
  refine (proj2 (getStructTags_lenient sampleUnquote _) _ " desc" eq_refl _ _).
  - repeat constructor; done.
  - exists 1%nat, "desc". split; [reflexivity|]. right.
    split; [by intros [r [=]]|].
    apply (MissingColon "desc" EmptyString); [repeat split; done|by left].
Defined.

(** The same tag evaluated: the two pairs are kept, the token without a
    colon and whatever follows it are dropped. *)
Lemma getStructTags_run :
  getStructTags sampleUnquote
    (kv "env" "P" +:+ "  " +:+ kv "flag" "p" +:+ " desc " +:+ kv "x" "y")
  = {[ "env" := "P"; "flag" := "p" ]}.
Proof. vm_compute. reflexivity. Qed.

Lemma coerce_empty_string_witness :
  coerceScalar Arch64 Z sampleParseFloat Bool EmptyString = Ok (VBool false)
  ∧ (∀ k, k ∈ [Int; Int8; Int16; Int32; Int64] →
          coerceScalar Arch64 Z sampleParseFloat k EmptyString = Ok (VInt 0))
  ∧ (∀ k, k ∈ [Uint; Uint8; Uint16; Uint32; Uint64] →
          coerceScalar Arch64 Z sampleParseFloat k EmptyString = Ok (VUint 0))
  ∧ (∀ k, k ∈ [Float32; Float64] →
          coerceScalar Arch64 Z sampleParseFloat k EmptyString = Ok (VFloat 0))
  ∧ (∀ k, k ∈ [Int; Int8; Int16; Int32; Int64; Uint; Uint8; Uint16; Uint32;
               Uint64; Float32; Float64] →
          coerceScalar Arch64 Z sampleParseFloat k EmptyString
          = coerceScalar Arch64 Z sampleParseFloat k "0").
Proof.
  refine (coerce_empty_string Arch64 Z sampleParseFloat 0 _).
  intros bitSize. vm_compute. reflexivity.
Defined.

(** C9 fails as stated: the one-letter prefix "A" matches
    [^[A-Z][A-Z0-9_]*$] and does not match [ReEnvPrefix]. *)
Lemma single_letter_prefix_rejected :
  specEnvPrefix "A" = true
  ∧ Regexp.MatchString ReEnvPrefix "A" = false.
Proof. split; vm_compute; reflexivity. Qed.

(** C10 fails as stated: the key [envPrefixFoo] is a lowercase prefix
    followed by a suffix that starts with an uppercase letter, and its
    value is stored as the parameter [prefix] of [env], not as
    [prefixfoo]. *)
Lemma directive_key_longer_suffix :
  specSplitKey "envPrefixFoo" = Some ("env", "prefixfoo")
  ∧ (parseGofigureField sampleUnquote nat
       (sampleSources (tableSource ∅ ∅) (tableSource ∅ ∅)) sampleRangeTags noPromoted
       {| order := DefaultOrder; params := ∅; fields := ∅ |}
       [sentinelField (kv "envPrefixFoo" "X")]).2 = None
  ∧ getParam
      (parseGofigureField sampleUnquote nat
         (sampleSources (tableSource ∅ ∅) (tableSource ∅ ∅)) sampleRangeTags noPromoted
         {| order := DefaultOrder; params := ∅; fields := ∅ |}
         [sentinelField (kv "envPrefixFoo" "X")]).1 "env" "prefixfoo" = None
  ∧ getParam
      (parseGofigureField sampleUnquote nat
         (sampleSources (tableSource ∅ ∅) (tableSource ∅ ∅)) sampleRangeTags noPromoted
         {| order := DefaultOrder; params := ∅; fields := ∅ |}
         [sentinelField (kv "envPrefixFoo" "X")]).1 "env" "prefix" = Some "X".
Proof. repeat split; vm_compute; reflexivity. Qed.

Lemma directive_keys_become_params_witness :
  getParam
    (parseGofigureField sampleUnquote nat
       (sampleSources (tableSource ∅ ∅) (tableSource ∅ ∅)) sampleRangeTags noPromoted
       {| order := DefaultOrder; params := ∅; fields := ∅ |} sampleRecord).1
    "env" "prefix" = Some "APP".
Proof.
  assert (Htags : getStructTags sampleUnquote
                    (kv "order" "env,flag" +:+ " " +:+ kv "envPrefix" "APP")
                  = {[ "order" := "env,flag"; "envPrefix" := "APP" ]})
    by (vm_compute; reflexivity).
  refine (proj1 (directive_keys_become_params sampleUnquote nat
                   (sampleSources (tableSource ∅ ∅) (tableSource ∅ ∅))
                   sampleRangeTags noPromoted sampleRecord
                   (sentinelField (kv "order" "env,flag" +:+ " "
                                   +:+ kv "envPrefix" "APP"))
                   {| order := DefaultOrder; params := ∅; fields := ∅ |}
                   _ _ _ _)
                "envPrefix" "APP" "env" "prefix" _ _ _ _).
  - vm_compute. reflexivity.
  - unfold ranges, sampleRangeTags. reflexivity.
  - apply surjective_pairing.
  - vm_compute. reflexivity.
  - done.
  - vm_compute. reflexivity.
  - cbn [Tag sentinelField]. rewrite Htags. intros name' [v Hv] Hname Hp.
    apply lookup_insert_Some in Hv as [[<- _]|[_ Hv]]; [done|].
    by apply lookup_singleton_Some in Hv as [<- _].
Defined.

(** * More runs on the sample instances *)

Lemma plan_items_are_fields_witness :
  "Port" ≠ "gofigure"
  ∧ field (itemOf sampleUnquote (exportedField "Port" (TKind Int) (kv "env" "PORT")) 1)
    = "Port"
  ∧ Name (goField (itemOf sampleUnquote
                     (exportedField "Port" (TKind Int) (kv "env" "PORT")) 1))
    = "Port"
  ∧ sampleRecord !! goValue (itemOf sampleUnquote
                               (exportedField "Port" (TKind Int) (kv "env" "PORT")) 1)
    = Some (goField (itemOf sampleUnquote
                       (exportedField "Port" (TKind Int) (kv "env" "PORT")) 1))
  ∧ keys (itemOf sampleUnquote (exportedField "Port" (TKind Int) (kv "env" "PORT")) 1)
    = getStructTags sampleUnquote
        (Tag (goField (itemOf sampleUnquote
                         (exportedField "Port" (TKind Int) (kv "env" "PORT")) 1))).
Proof.
  refine (plan_items_are_fields sampleUnquote nat
            (sampleSources (tableSource ∅ ∅) (tableSource ∅ ∅)) sampleRangeTags noPromoted
            sampleRecord samplePlan "Port" _ ParseStruct_sampleRecord _).
  vm_compute. reflexivity.
Defined.

Lemma plan_has_every_field_witness :
  fields samplePlan !! Name (exportedField "Port" (TKind Int) (kv "env" "PORT"))
  = Some (itemOf sampleUnquote
            (exportedField "Port" (TKind Int) (kv "env" "PORT")) 1).
Proof.
  refine (plan_has_every_field sampleUnquote nat
            (sampleSources (tableSource ∅ ∅) (tableSource ∅ ∅)) sampleRangeTags noPromoted
            sampleRecord samplePlan 1
            (exportedField "Port" (TKind Int) (kv "env" "PORT"))
            ParseStruct_sampleRecord _ _ _).
  - reflexivity.
  - done.
  - intros [|[|j']] sf' Hlt Hj; [lia|lia|done].
Defined.

Lemma ParseStruct_fails_on_order_only_witness :
  ErrInvalidOrder = ErrInvalidOrder
  ∧ ∃ gf v p,
      FieldByName noPromoted [sentinelField (kv "order" "flag,bogus")] "gofigure" = Some gf
      ∧ getStructTags sampleUnquote (Tag gf) !! "order" = Some v
      ∧ p ∈ Split v ","%char
      ∧ sampleSources (tableSource ∅ ∅) (tableSource ∅ ∅) !! p = None.
Proof.
  refine (ParseStruct_fails_on_order_only sampleUnquote nat
            (sampleSources (tableSource ∅ ∅) (tableSource ∅ ∅)) sampleRangeTags noPromoted
            [sentinelField (kv "order" "flag,bogus")] ErrInvalidOrder _ _).
  - intros tags. unfold ranges, sampleRangeTags. reflexivity.
  - vm_compute. reflexivity.
Defined.

Lemma order_directive_sets_order_witness :
  ∃ gfg,
    ParseStruct sampleUnquote nat
      (sampleSources (tableSource ∅ ∅) (tableSource ∅ ∅)) sampleRangeTags noPromoted
      [sentinelField (kv "order" "flag,env,flag")] = Ok gfg
    ∧ order gfg = Split "flag,env,flag" ","%char.
Proof.
  refine (proj1 (order_directive_sets_order sampleUnquote nat
                   (sampleSources (tableSource ∅ ∅) (tableSource ∅ ∅))
                   sampleRangeTags noPromoted [sentinelField (kv "order" "flag,env,flag")]
                   (sentinelField (kv "order" "flag,env,flag")) _ _)
                "flag,env,flag" _ _).
  - vm_compute. reflexivity.
  - unfold ranges, sampleRangeTags. reflexivity.
  - vm_compute. reflexivity.
  - intros p Hp. vm_compute in Hp.
    repeat (apply elem_of_cons in Hp as [->|Hp]; [vm_compute; eauto|]).
    by apply elem_of_nil in Hp.
Defined.

Lemma getStructTags_lookup_witness :
  getStructTags sampleUnquote
    (renderDirectives
       [{| dSpaces := 0; dName := "env"; dBody := [Plain "A"%char] |};
        {| dSpaces := 1; dName := "env"; dBody := [Plain "B"%char] |}]
     +:+ " env") !! "env"
  = directiveValue sampleUnquote
    <$> last (filter (fun d => dName d = "env")
                [{| dSpaces := 0; dName := "env"; dBody := [Plain "A"%char] |};
                 {| dSpaces := 1; dName := "env"; dBody := [Plain "B"%char] |}]).
Proof.
  refine (getStructTags_lookup sampleUnquote
            [{| dSpaces := 0; dName := "env"; dBody := [Plain "A"%char] |};
             {| dSpaces := 1; dName := "env"; dBody := [Plain "B"%char] |}]
            " env" "env" _ _).
  - repeat constructor; done.
  - exists 1%nat, "env". split; [reflexivity|]. right.
    split; [by intros [r [=]]|].
    apply (MissingColon "env" EmptyString); [repeat split; done|by left].
Defined.

Lemma coerced_integers_in_range_witness :
  ∃ i, @VInt Z (-128) = VInt i
       ∧ Strconv.ParseInt Arch64 (numVal "-128") 8 = Ok i
       ∧ - 2 ^ (8 - 1) ≤ i < 2 ^ (8 - 1).
Proof.
  refine (proj1 (coerced_integers_in_range Arch64 Z sampleParseFloat Int8 8 "-128"
                   (VInt (-128)) _) _).
  - vm_compute. reflexivity.
  - repeat constructor.
Defined.

(** A number one past the range of a sized kind is an error. *)
Lemma int8_out_of_range :
  coerceScalar Arch64 Z sampleParseFloat Int8 "128"
  = Err (NumError "ParseInt" "128" ErrRange)
  ∧ coerceScalar Arch64 Z sampleParseFloat Uint8 "256"
    = Err (NumError "ParseUint" "256" ErrRange)
  ∧ coerceScalar Arch64 Z sampleParseFloat Uint8 "-1"
    = Err (NumError "ParseUint" "-1" ErrSyntax).
Proof. repeat split; vm_compute; reflexivity. Qed.

(** On a 32-bit target a value that does not fit an [int] or a [uint] is
    stored reduced modulo [2^32], without an error; on a 64-bit target it
    is stored as it is. *)
Lemma int_wraps_on_32_bit :
  coerceScalar Arch32 Z sampleParseFloat Int "4294967297" = Ok (VInt 1)
  ∧ coerceScalar Arch32 Z sampleParseFloat Int "2147483648"
    = Ok (VInt (-2147483648))
  ∧ coerceScalar Arch32 Z sampleParseFloat Uint "4294967296" = Ok (VUint 0)
  ∧ coerceScalar Arch64 Z sampleParseFloat Int "4294967297"
    = Ok (VInt 4294967297)
  ∧ populateSliceType Arch32 Z nat
      (sampleSources (tableSource ∅ {[ "Sizes" := ["4294967297"] ]})
                     (tableSource ∅ ∅))
      (sampleItem "Sizes" (TSlice (TKind Int)) 0) ["env"] (sampleState [VSlice []])
    = (Done tt,
       {| world := 1%nat; calls := [CallGetArray "env" "Sizes" None];
          record := [VSlice [VInt 1]] |}).
Proof. repeat split; vm_compute; reflexivity. Qed.

Lemma source_error_passes_through_witness :
  populateDefaultType Arch64 Z sampleParseFloat nat
    (sampleSources (tableSource {[ "Port" := "80" ]} ∅)
                   (getFailSource (SourceError "flag: bad argument")))
    (sampleItem "Port" (TKind Int) 0) (["env"] ++ "flag" :: [])
    (sampleState [VInt 1])
  = (Failed (SourceError "flag: bad argument"),
     logCall Z nat (CallGet "flag" "Port" (Some "80")) 2%nat
       {| world := 1%nat; calls := [CallGet "env" "Port" None];
          record := [VInt 80] |}).
Proof.
  refine (proj1 (source_error_passes_through Arch64 Z sampleParseFloat nat
                   (sampleSources (tableSource {[ "Port" := "80" ]} ∅)
                                  (getFailSource (SourceError "flag: bad argument")))
                   (sampleItem "Port" (TKind Int) 0) ["env"] [] "flag"
                   (getFailSource (SourceError "flag: bad argument"))
                   (SourceError "flag: bad argument")
                   (sampleState [VInt 1])
                   {| world := 1%nat; calls := [CallGet "env" "Port" None];
                      record := [VInt 80] |} 2%nat _)
                (Some "80") _ _);
    vm_compute; reflexivity.
Defined.

Lemma slice_element_error_keeps_prefix_witness :
  populateSliceType Arch64 Z nat
    (sampleSources (tableSource ∅ {[ "Ports" := ["1"; "2"; "x"; "4"] ]})
                   (tableSource ∅ ∅))
    (sampleItem "Ports" (TSlice (TKind Uint16)) 0) ("env" :: ["flag"])
    (sampleState [VSlice [VUint 9]])
  = (Failed (NumError "ParseUint" "x" ErrSyntax),
     {| world := 1%nat;
        calls := [] ++ [CallGetArray "env" "Ports" None];
        record := <[0%nat := VSlice ([VUint 9] ++ [VUint 1; VUint 2])]>
                    [VSlice [VUint 9]] |}).
Proof.
  refine (slice_element_error_keeps_prefix Arch64 Z nat
            (sampleSources (tableSource ∅ {[ "Ports" := ["1"; "2"; "x"; "4"] ]})
                           (tableSource ∅ ∅))
            (sampleItem "Ports" (TSlice (TKind Uint16)) 0) Uint16 _
            "env" ["flag"]
            (tableSource ∅ {[ "Ports" := ["1"; "2"; "x"; "4"] ]})
            (sampleState [VSlice [VUint 9]]) ["1"; "2"] ["4"] "x" 1%nat
            [VUint 9] [VUint 1; VUint 2] (NumError "ParseUint" "x" ErrSyntax)
            eq_refl eq_refl eq_refl eq_refl _ _ _ _ _);
    vm_compute; reflexivity.
Defined.

Lemma Gofigure_writes_fields_only_witness :
  length (record (Gofigure Arch64 Z sampleParseFloat sampleUnquote nat
                    (sampleSources (tableSource {[ "PORT" := "80" ]} ∅)
                                   (tableSource ∅ ∅))
                    sampleRangeTags sampleRangeFields noPromoted sampleRecord
                    (sampleState [VString "keep"; VInt 1])).2)
  = length (record (sampleState [VString "keep"; VInt 1]))
  ∧ record (Gofigure Arch64 Z sampleParseFloat sampleUnquote nat
              (sampleSources (tableSource {[ "PORT" := "80" ]} ∅)
                             (tableSource ∅ ∅))
              sampleRangeTags sampleRangeFields noPromoted sampleRecord
              (sampleState [VString "keep"; VInt 1])).2 !! 0%nat
    = record (sampleState [VString "keep"; VInt 1]) !! 0%nat.
Proof.
  refine (Gofigure_writes_fields_only Arch64 Z sampleParseFloat sampleUnquote nat
            (sampleSources (tableSource {[ "PORT" := "80" ]} ∅) (tableSource ∅ ∅))
            sampleRangeTags sampleRangeFields noPromoted sampleRecord
            (sampleState [VString "keep"; VInt 1]) 0 _ _).
  - intros m. unfold ranges, sampleRangeFields. reflexivity.
  - intros sf [= <-]. reflexivity.
Defined.

Lemma failed_setup_asks_nothing_witness :
  (Apply Arch64 Z sampleParseFloat nat
     (sampleSources (tableSource ∅ ∅) (initFailSource ErrInvalidEnvPrefix))
     sampleRangeFields samplePlan (sampleState [VOpaque; VInt 1])).1
  = (applySetup Z nat
       (sampleSources (tableSource ∅ ∅) (initFailSource ErrInvalidEnvPrefix))
       sampleRangeFields samplePlan (sampleState [VOpaque; VInt 1])).1
  ∧ record (Apply Arch64 Z sampleParseFloat nat
              (sampleSources (tableSource ∅ ∅)
                             (initFailSource ErrInvalidEnvPrefix))
              sampleRangeFields samplePlan (sampleState [VOpaque; VInt 1])).2
    = record (sampleState [VOpaque; VInt 1])
  ∧ ∃ setup,
      Forall isSetup setup
      ∧ calls (Apply Arch64 Z sampleParseFloat nat
                 (sampleSources (tableSource ∅ ∅)
                                (initFailSource ErrInvalidEnvPrefix))
                 sampleRangeFields samplePlan (sampleState [VOpaque; VInt 1])).2
        = calls (sampleState [VOpaque; VInt 1]) ++ setup
          ++ (CallCleanup <$> order samplePlan).
Proof.
  refine (failed_setup_asks_nothing Arch64 Z sampleParseFloat nat
            (sampleSources (tableSource ∅ ∅) (initFailSource ErrInvalidEnvPrefix))
            sampleRangeFields samplePlan (sampleState [VOpaque; VInt 1]) _ _).
  - vm_compute. repeat constructor; eauto.
  - vm_compute. discriminate.
Defined.

Lemma initSources_stops_at_error_witness :
  initSources Z nat
    (sampleSources (initFailSource ErrInvalidEnvPrefix) (tableSource ∅ ∅))
    samplePlan (sampleState [VOpaque; VInt 1])
  = (Failed ErrInvalidEnvPrefix,
     logCall Z nat
       (CallInit "env" (default ∅ (params samplePlan !! "env"))) 1%nat
       (sampleState [VOpaque; VInt 1])).
Proof.
  refine (initSources_stops_at_error Z nat
            (sampleSources (initFailSource ErrInvalidEnvPrefix) (tableSource ∅ ∅))
            samplePlan [] ["flag"] "env" (initFailSource ErrInvalidEnvPrefix)
            ErrInvalidEnvPrefix (sampleState [VOpaque; VInt 1])
            (sampleState [VOpaque; VInt 1]) 1%nat _ _ _ _);
    vm_compute; reflexivity.
Defined.

(** The run that the statement above is about: the prefix [APP] reaches
    [Init] of [env], and [flag] is not initialised. *)
Lemma initSources_stops_at_error_run :
  initSources Z nat
    (sampleSources (initFailSource ErrInvalidEnvPrefix) (tableSource ∅ ∅))
    samplePlan (sampleState [VOpaque; VInt 1])
  = (Failed ErrInvalidEnvPrefix,
     {| world := 1%nat; calls := [CallInit "env" {[ "prefix" := "APP" ]}];
        record := [VOpaque; VInt 1] |}).
Proof. vm_compute. reflexivity. Qed.

(** With the failing source second: [env] has been initialised with its
    parameters when [Init] of [flag] fails. *)
Lemma initSources_second_fails_run :
  initSources Z nat
    (sampleSources (tableSource ∅ ∅) (initFailSource ErrInvalidEnvPrefix))
    samplePlan (sampleState [VOpaque; VInt 1])
  = (Failed ErrInvalidEnvPrefix,
     {| world := 2%nat;
        calls := [CallInit "env" {[ "prefix" := "APP" ]}; CallInit "flag" ∅];
        record := [VOpaque; VInt 1] |}).
Proof. vm_compute. reflexivity. Qed.

Lemma registerFields_once_per_pair_witness :
  ∃ w',
    registerFields Z nat
      (sampleSources (tableSource ∅ ∅) (tableSource ∅ ∅))
      sampleRangeFields samplePlan (sampleState [VOpaque; VInt 1])
    = (Done tt,
       {| world := w';
          calls := calls (sampleState [VOpaque; VInt 1])
                   ++ ((sampleRangeFields 0 (fields samplePlan)).*2
                         ≫= registerCalls samplePlan);
          record := record (sampleState [VOpaque; VInt 1]) |}).
Proof.
  refine (registerFields_once_per_pair Z nat
            (sampleSources (tableSource ∅ ∅) (tableSource ∅ ∅))
            sampleRangeFields samplePlan (sampleState [VOpaque; VInt 1]) _ _).
  - vm_compute. repeat constructor; eauto.
  - intros o src key def tags t w Hsrc. unfold sampleSources in Hsrc.
    apply lookup_insert_Some in Hsrc as [[_ <-]|[_ Hsrc]]; [reflexivity|].
    by apply lookup_singleton_Some in Hsrc as [_ <-].
Defined.

Lemma getStructTags_keys_are_names_witness :
  strForall nameChar "env".
Proof.
  refine (getStructTags_keys_are_names sampleUnquote (kv "env" "PORT") "env" _).
  vm_compute. eauto.
Defined.

Lemma one_field_life_cycle_witness :
  Gofigure Arch64 Z sampleParseFloat sampleUnquote nat
    (sampleSources (tableSource {[ "PORT" := "80" ]} ∅)
                   (tableSource {[ "Port" := "8080" ]} ∅))
    sampleRangeTags sampleRangeFields noPromoted
    [exportedField "Port" (TKind Int) (kv "env" "PORT")]
    (sampleState [VInt 1])
  = (Done tt,
     {| world := Cleanup (tableSource {[ "Port" := "8080" ]} ∅)
                   (Cleanup (tableSource {[ "PORT" := "80" ]} ∅) 6%nat);
        calls := calls (sampleState [VInt 1]) ++
          [CallInit "env" ∅; CallInit "flag" ∅;
           CallRegister "env"
             (keyFor (itemOf sampleUnquote
                        (exportedField "Port" (TKind Int) (kv "env" "PORT")) 0)
                     "env")
             EmptyString
             (keys (itemOf sampleUnquote
                      (exportedField "Port" (TKind Int) (kv "env" "PORT")) 0))
             (Type_ (exportedField "Port" (TKind Int) (kv "env" "PORT")));
           CallRegister "flag"
             (keyFor (itemOf sampleUnquote
                        (exportedField "Port" (TKind Int) (kv "env" "PORT")) 0)
                     "flag")
             EmptyString
             (keys (itemOf sampleUnquote
                      (exportedField "Port" (TKind Int) (kv "env" "PORT")) 0))
             (Type_ (exportedField "Port" (TKind Int) (kv "env" "PORT")));
           CallGet "env"
             (keyFor (itemOf sampleUnquote
                        (exportedField "Port" (TKind Int) (kv "env" "PORT")) 0)
                     "env") None;
           CallGet "flag"
             (keyFor (itemOf sampleUnquote
                        (exportedField "Port" (TKind Int) (kv "env" "PORT")) 0)
                     "flag")
             (Some (valAfter
                      (rkind (Type_ (exportedField "Port" (TKind Int)
                                       (kv "env" "PORT")))) "80"));
           CallCleanup "env"; CallCleanup "flag"];
        record := <[0%nat := VInt 8080]>
                    (<[0%nat := VInt 80]> (record (sampleState [VInt 1]))) |}).
Proof.
  refine (proj1 (one_field_life_cycle Arch64 Z sampleParseFloat sampleUnquote
                   nat
                   (sampleSources (tableSource {[ "PORT" := "80" ]} ∅)
                                  (tableSource {[ "Port" := "8080" ]} ∅))
                   sampleRangeTags sampleRangeFields noPromoted
                   (exportedField "Port" (TKind Int) (kv "env" "PORT"))
                   (tableSource {[ "PORT" := "80" ]} ∅)
                   (tableSource {[ "Port" := "8080" ]} ∅)
                   (sampleState [VInt 1]) 1%nat 2%nat 3%nat 4%nat 5%nat 6%nat
                   "80" "8080" (VInt 80) (VInt 8080)
                   _ _ _ _ _ _ _ _ _ _ _ _ _)).
  - reflexivity.
  - reflexivity.
  - intros site m. unfold ranges, sampleRangeFields. reflexivity.
  - vm_compute. reflexivity.
  - vm_compute. reflexivity.
  - vm_compute. reflexivity.
  - vm_compute. reflexivity.
  - vm_compute. reflexivity.
  - vm_compute. reflexivity.
  - vm_compute. reflexivity.
  - vm_compute. reflexivity.
  - vm_compute. reflexivity.
  - vm_compute. reflexivity.
Defined.

(** The same run evaluated: the field is looked up under [PORT] in [env]
    and under its own name in [flag]. *)
Lemma one_field_life_cycle_run :
  Gofigure Arch64 Z sampleParseFloat sampleUnquote nat
    (sampleSources (tableSource {[ "PORT" := "80" ]} ∅)
                   (tableSource {[ "Port" := "8080" ]} ∅))
    sampleRangeTags sampleRangeFields noPromoted
    [exportedField "Port" (TKind Int) (kv "env" "PORT")]
    (sampleState [VInt 1])
  = (Done tt,
     {| world := 8%nat;
        calls := [CallInit "env" ∅; CallInit "flag" ∅;
                  CallRegister "env" "PORT" EmptyString {[ "env" := "PORT" ]}
                    (TKind Int);
                  CallRegister "flag" "Port" EmptyString {[ "env" := "PORT" ]}
                    (TKind Int);
                  CallGet "env" "PORT" None;
                  CallGet "flag" "Port" (Some "80");
                  CallCleanup "env"; CallCleanup "flag"];
        record := [VInt 8080] |}).
Proof. vm_compute. reflexivity. Qed.

Lemma unexported_field_never_written_witness :
  populateDefaultType Arch64 Z sampleParseFloat nat
    (sampleSources (tableSource {[ "port" := "80" ]} ∅) (tableSource ∅ ∅))
    {| keys := ∅; field := "port";
       goField := {| Name := "port"; PkgPath := "main"; Type_ := TKind Int;
                     Tag := EmptyString |};
       goValue := 0 |}
    ("env" :: ["flag"]) (sampleState [VInt 1])
  = (Panicked,
     logCall Z nat (CallGet "env" "port" None) 1%nat (sampleState [VInt 1])).
Proof.
  refine (proj1 (proj2 (unexported_field_never_written Arch64 Z sampleParseFloat
                          sampleUnquote nat
                          (sampleSources (tableSource {[ "port" := "80" ]} ∅)
                                         (tableSource ∅ ∅))
                          sampleRangeFields samplePlan
                          {| keys := ∅; field := "port";
                             goField := {| Name := "port"; PkgPath := "main";
                                           Type_ := TKind Int;
                                           Tag := EmptyString |};
                             goValue := 0 |}
                          (sampleState [VInt 1]) "env" ["flag"]
                          (tableSource {[ "port" := "80" ]} ∅) 1%nat _))
                "80" (VInt 80) _ _ _).
  - done.
  - vm_compute. reflexivity.
  - vm_compute. reflexivity.
  - vm_compute. reflexivity.
Defined.

Lemma defined_element_type_panics_witness :
  populateSliceType Arch64 Z nat
    (sampleSources (tableSource ∅ {[ "Waits" := ["x5"; "7"] ]})
                   (tableSource ∅ {[ "Waits" := ["5"; "7"] ]}))
    (sampleItem "Waits" (TSlice (TNamed "Duration" (TKind Int64))) 0)
    ("flag" :: ["env"]) (sampleState [VSlice []])
  = (Panicked,
     logCall Z nat (CallGetArray "flag" "Waits" None) 1%nat
       (sampleState [VSlice []])).
Proof.
  refine (proj1 (defined_element_type_panics Arch64 Z nat
                   (sampleSources (tableSource ∅ {[ "Waits" := ["x5"; "7"] ]})
                                  (tableSource ∅ {[ "Waits" := ["5"; "7"] ]}))
                   (sampleItem "Waits"
                      (TSlice (TNamed "Duration" (TKind Int64))) 0)
                   _ "flag" ["env"]
                   (tableSource ∅ {[ "Waits" := ["5"; "7"] ]})
                   (sampleState [VSlice []]) "5" ["7"] (VInt 5) 1%nat
                   eq_refl eq_refl eq_refl _) _ _);
    vm_compute; reflexivity.
Defined.

(** With a defined element type an element that does not convert is
    still an error, since the conversion comes before the append. *)
Lemma duration_slice_error_first :
  populateSliceType Arch64 Z nat
    (sampleSources (tableSource ∅ {[ "Waits" := ["x5"; "7"] ]})
                   (tableSource ∅ ∅))
    (sampleItem "Waits" (TSlice (TNamed "Duration" (TKind Int64))) 0)
    ["env"; "flag"] (sampleState [VSlice []])
  = (Failed (NumError "ParseInt" "x5" ErrSyntax),
     {| world := 1%nat; calls := [CallGetArray "env" "Waits" None];
        record := [VSlice []] |}).
Proof. vm_compute. reflexivity. Qed.

Lemma lowercase_keys_set_no_parameter_witness :
  params samplePlan = params samplePlan.
Proof.
  refine (proj2 (lowercase_keys_set_no_parameter sampleUnquote nat
                   (sampleSources (tableSource ∅ ∅) (tableSource ∅ ∅))
                   sampleRangeTags noPromoted
                   [sentinelField (kv "envprefix" "APP" +:+ " " +:+ kv "x_y" "1")]
                   samplePlan samplePlan None) _ _ _).
  - intros tags. unfold ranges, sampleRangeTags. reflexivity.
  - intros gf name Hgf Hsome Hne.
    change (Some (sentinelField
                    (kv "envprefix" "APP" +:+ " " +:+ kv "x_y" "1")) = Some gf)
      in Hgf.
    injection Hgf as <-.
    assert (Htags : getStructTags sampleUnquote
                      (Tag (sentinelField
                              (kv "envprefix" "APP" +:+ " " +:+ kv "x_y" "1")))
                    = {[ "envprefix" := "APP"; "x_y" := "1" ]})
      by (vm_compute; reflexivity).
    rewrite Htags in Hsome. destruct Hsome as [v Hv].
    apply lookup_insert_Some in Hv as [[<- _]|[_ Hv]]; [reflexivity|].
    by apply lookup_singleton_Some in Hv as [<- _].
  - vm_compute. reflexivity.
Defined.

(** The same directive field, parsed: neither key holds an uppercase
    letter, and the plan keeps the parameters it had. *)
Lemma lowercase_keys_run :
  parseGofigureField sampleUnquote nat
    (sampleSources (tableSource ∅ ∅) (tableSource ∅ ∅)) sampleRangeTags
    noPromoted samplePlan
    [sentinelField (kv "envprefix" "APP" +:+ " " +:+ kv "x_y" "1")]
  = (samplePlan, None).
Proof. vm_compute. reflexivity. Qed.

Lemma element_conversion_is_scalar_coercion_witness :
  (fun s => match Strconv.ParseUint Arch32 (numVal s) 16 with
            | Ok u => Ok (VUint (toUnsigned 16 u))
            | Err e => Err e
            end) "65536"
  = coerceScalar Arch32 Z sampleParseFloat Uint16 "65536"
  ∧ Uint16 ∈ [String_; Int; Int8; Int16; Int32; Int64;
              Uint; Uint8; Uint16; Uint32; Uint64].
Proof.
  refine (element_conversion_is_scalar_coercion Arch32 Z sampleParseFloat
            Uint16 _ "65536" eq_refl).
Defined.
